(** * Design Patterns Interview Prep (C++ edition): menu dispatcher,
      Builder, Factory and Singleton demos.

    A shallow embedding of [src/cpp/main.cpp] and of the three pattern
    headers [patterns/builder.hpp], [patterns/factory.hpp] and
    [patterns/singleton.hpp], followed by the properties of the
    specification that concern them.

    Conventions of the embedding:
    - [std::string] is [string]; [int] is [Z] (32 bits, see [INT_MIN] and
      [INT_MAX]); [std::unique_ptr<T>] is [option T], [None] being the null
      pointer;
    - [std::cin] is a record holding the characters not yet read and the
      [eofbit] and [failbit] flags; the whole input is given in advance and
      its end is end-of-file;
    - [std::cout] and [std::cerr] are the lists of the chunks written so
      far, newest first; the text on the stream is [text_of];
    - code that writes, reads, throws or dereferences runs in the monad [M]:
      a state monad over [World] with two abnormal outcomes, a thrown
      [std::exception] and undefined behaviour (a null dereference);
    - the [while (true)] loop of [DesignPatternsMenu::run] takes fuel. *)

From Stdlib Require Import String Ascii List ZArith NArith Lia Bool.
From Stdlib Require Import DecimalString Permutation.
From Stdlib Require Import DecimalFacts DecimalPos.
Import ListNotations.
Local Open Scope string_scope.

Set Default Proof Using "Type".

(* ================================================================== *)
(** ** Text *)

(** The newline and the double quote as one-character strings. *)
Definition nl : string := String (ascii_of_nat 10) EmptyString.
Definition dquote : string := String (ascii_of_nat 34) EmptyString.

(** [std::string(n, c)]. *)
Fixpoint fill (n : nat) (c : ascii) : string :=
  match n with
  | O => EmptyString
  | S k => String c (fill k c)
  end.

(** What [operator<<] prints for an [int] and for a [size_t]. *)
Definition show_int (z : Z) : string := NilZero.string_of_int (Z.to_int z).
Definition show_size (n : nat) : string := show_int (Z.of_nat n).

(** [needle] occurs verbatim in [hay]. *)
Definition occurs_in (needle hay : string) : Prop :=
  exists pre post, hay = pre ++ needle ++ post.

(** The executable version of [occurs_in]. *)
Fixpoint contains (needle hay : string) : bool :=
  prefix needle hay ||
  match hay with
  | EmptyString => false
  | String _ rest => contains needle rest
  end.

(** The characters of a stream, from the chunks written to it (newest
    first). *)
Fixpoint join (chunks : list string) : string :=
  match chunks with
  | [] => EmptyString
  | s :: rest => s ++ join rest
  end.

Definition text_of (chunks : list string) : string := join (rev chunks).

(** ASCII lower case, for comparisons that ignore case. *)
Definition lower_char (c : ascii) : ascii :=
  let n := nat_of_ascii c in
  if Nat.leb 65 n && Nat.leb n 90 then ascii_of_nat (n + 32) else c.

Fixpoint lower (s : string) : string :=
  match s with
  | EmptyString => EmptyString
  | String c rest => String (lower_char c) (lower rest)
  end.

(* ================================================================== *)
(** ** patterns/builder.hpp *)

Record HttpRequest := mkHttpRequest {
  method_ : string;
  url_ : string;
  body_ : string;
  headers_ : list (string * string);
  timeout_ : Z
}.

(** [HttpRequest() : method_("GET"), timeout_(30) {}] *)
Definition HttpRequest_new : HttpRequest :=
  {| method_ := "GET"; url_ := ""; body_ := ""; headers_ := []; timeout_ := 30 |}.

Definition setMethod (m : string) (r : HttpRequest) : HttpRequest :=
  {| method_ := m; url_ := url_ r; body_ := body_ r;
     headers_ := headers_ r; timeout_ := timeout_ r |}.

Definition setUrl (u : string) (r : HttpRequest) : HttpRequest :=
  {| method_ := method_ r; url_ := u; body_ := body_ r;
     headers_ := headers_ r; timeout_ := timeout_ r |}.

Definition setBody (b : string) (r : HttpRequest) : HttpRequest :=
  {| method_ := method_ r; url_ := url_ r; body_ := b;
     headers_ := headers_ r; timeout_ := timeout_ r |}.

(** [headers_.push_back({key, value})] *)
Definition addHeader (key value : string) (r : HttpRequest) : HttpRequest :=
  {| method_ := method_ r; url_ := url_ r; body_ := body_ r;
     headers_ := headers_ r ++ [(key, value)]; timeout_ := timeout_ r |}.

Definition setTimeout (t : Z) (r : HttpRequest) : HttpRequest :=
  {| method_ := method_ r; url_ := url_ r; body_ := body_ r;
     headers_ := headers_ r; timeout_ := t |}.

(** The body of the [for] loop of [toString]. *)
Definition header_line (h : string * string) : string :=
  "    " ++ fst h ++ ": " ++ snd h ++ nl.

Fixpoint header_lines (hs : list (string * string)) : string :=
  match hs with
  | [] => ""
  | h :: rest => header_line h ++ header_lines rest
  end.

Definition is_empty (s : string) : bool :=
  match s with
  | EmptyString => true
  | String _ _ => false
  end.

Definition toString (r : HttpRequest) : string :=
  "HTTP Request:" ++ nl ++
  "  Method: " ++ method_ r ++ nl ++
  "  URL: " ++ url_ r ++ nl ++
  "  Timeout: " ++ show_int (timeout_ r) ++ "s" ++ nl ++
  "  Headers:" ++ nl ++
  header_lines (headers_ r) ++
  (if is_empty (body_ r) then "" else "  Body: " ++ body_ r ++ nl).

(** The builder owns its request through a [std::unique_ptr]; [None] is the
    null pointer. *)
Record HttpRequestBuilder := mkBuilder {
  request_ : option HttpRequest
}.

(** [HttpRequestBuilder() : request_(std::make_unique<HttpRequest>()) {}] *)
Definition HttpRequestBuilder_new : HttpRequestBuilder :=
  {| request_ := Some HttpRequest_new |}.

(** [request_->f(...); return *this;]: the result is [None] when [request_]
    is null, the dereference being undefined behaviour. *)
Definition through_request (f : HttpRequest -> HttpRequest)
  (b : HttpRequestBuilder) : option HttpRequestBuilder :=
  match request_ b with
  | Some r => Some {| request_ := Some (f r) |}
  | None => None
  end.

Definition method (m : string) := through_request (setMethod m).
Definition url (u : string) := through_request (setUrl u).
Definition body (s : string) := through_request (setBody s).
Definition header (key value : string) := through_request (addHeader key value).
Definition timeout (t : Z) := through_request (setTimeout t).

(** [return std::move(request_);]: the pointer returned and the builder
    left behind, whose [request_] is null. *)
Definition build (b : HttpRequestBuilder)
  : option HttpRequest * HttpRequestBuilder :=
  (request_ b, {| request_ := None |}).

(** The five setters, for statements about all of them. *)
Inductive setter :=
| Method (m : string)
| Url (u : string)
| Body (s : string)
| Header (key value : string)
| Timeout (t : Z).

Definition apply_setter (c : setter) : HttpRequestBuilder -> option HttpRequestBuilder :=
  match c with
  | Method m => method m
  | Url u => url u
  | Body s => body s
  | Header k v => header k v
  | Timeout t => timeout t
  end.

(** What a setter does to the request behind the pointer. *)
Definition setter_effect (c : setter) : HttpRequest -> HttpRequest :=
  match c with
  | Method m => setMethod m
  | Url u => setUrl u
  | Body s => setBody s
  | Header k v => addHeader k v
  | Timeout t => setTimeout t
  end.

(** The request after the setters [cs], applied in order. *)
Definition after_setters (cs : list setter) (r : HttpRequest) : HttpRequest :=
  fold_left (fun acc c => setter_effect c acc) cs r.

(** A chain [b.c1(..).c2(..)...]. *)
Fixpoint chain (cs : list setter) (b : HttpRequestBuilder) : option HttpRequestBuilder :=
  match cs with
  | [] => Some b
  | c :: rest =>
      match apply_setter c b with
      | Some b' => chain rest b'
      | None => None
      end
  end.

(** [HttpRequestBuilder().c1(..)...cn(..).build()] *)
Definition built_from (cs : list setter) : option HttpRequest :=
  match chain cs HttpRequestBuilder_new with
  | Some b => fst (build b)
  | None => None
  end.

(* ================================================================== *)
(** ** patterns/factory.hpp *)

(** The only exception the sources throw is [std::invalid_argument]; the
    argument is what [what()] returns. *)
Inductive exception :=
| invalid_argument (msg : string).

Definition what (e : exception) : string :=
  match e with
  | invalid_argument msg => msg
  end.

(** The concrete products behind [std::unique_ptr<PaymentProcessor>]. *)
Inductive PaymentProcessor :=
| CreditCardProcessor
| PayPalProcessor
| BitcoinProcessor.

Definition getProcessorName (p : PaymentProcessor) : string :=
  match p with
  | CreditCardProcessor => "Credit Card Processor"
  | PayPalProcessor => "PayPal Processor"
  | BitcoinProcessor => "Bitcoin Processor"
  end.

(** [PaymentProcessorFactory::createProcessor]: [inl e] is [throw e]. *)
Definition createProcessor (type : string) : exception + PaymentProcessor :=
  if String.eqb type "credit_card" then inr CreditCardProcessor
  else if String.eqb type "paypal" then inr PayPalProcessor
  else if String.eqb type "bitcoin" then inr BitcoinProcessor
  else inl (invalid_argument ("Unknown payment processor type: " ++ type)).

Definition getAvailableProcessors : list string :=
  ["credit_card"; "paypal"; "bitcoin"].

(** [processPayment(double amount)]: the chunks it writes, in order. The
    amount is carried as the text [operator<<] prints for the [double]. *)
Definition processPayment_text (p : PaymentProcessor) (amount : string) : list string :=
  match p with
  | CreditCardProcessor =>
      [ "💳 Processing credit card payment: $" ++ amount ++ nl;
        "   • Validating card number..." ++ nl;
        "   • Checking credit limit..." ++ nl;
        "   • Processing transaction..." ++ nl;
        "   ✅ Payment successful!" ++ nl ]
  | PayPalProcessor =>
      [ "💰 Processing PayPal payment: $" ++ amount ++ nl;
        "   • Redirecting to PayPal..." ++ nl;
        "   • Authenticating user..." ++ nl;
        "   • Processing transaction..." ++ nl;
        "   ✅ Payment successful!" ++ nl ]
  | BitcoinProcessor =>
      [ "₿ Processing Bitcoin payment: $" ++ amount ++ nl;
        "   • Converting to BTC..." ++ nl;
        "   • Broadcasting transaction..." ++ nl;
        "   • Waiting for confirmations..." ++ nl;
        "   ✅ Payment successful!" ++ nl ]
  end.

(* ================================================================== *)
(** ** The console: [std::cin], [std::cout], [std::cerr] *)

Record istream := mkIstream {
  buf : string;       (* the characters not yet extracted *)
  eofbit : bool;
  failbit : bool
}.

Definition good (s : istream) : bool := negb (eofbit s) && negb (failbit s).

(** [std::isspace] in the "C" locale. *)
Definition isspace (c : ascii) : bool :=
  let n := nat_of_ascii c in
  Nat.eqb n 32 || (Nat.leb 9 n && Nat.leb n 13).

Definition isdigit (c : ascii) : bool :=
  let n := nat_of_ascii c in
  Nat.leb 48 n && Nat.leb n 57.

Definition is_newline (c : ascii) : bool := Nat.eqb (nat_of_ascii c) 10.

Fixpoint skipws (b : string) : string :=
  match b with
  | EmptyString => EmptyString
  | String c rest => if isspace c then skipws rest else b
  end.

(** [istream::sentry]: a stream that is not good gets [failbit]; with
    [skip], leading whitespace is discarded and reaching the end of the
    input sets [failbit | eofbit]. *)
Definition sentry (skip : bool) (s : istream) : bool * istream :=
  if good s then
    if skip then
      match skipws (buf s) with
      | EmptyString => (false, {| buf := ""; eofbit := true; failbit := true |})
      | b => (true, {| buf := b; eofbit := false; failbit := false |})
      end
    else (true, s)
  else (false, {| buf := buf s; eofbit := eofbit s; failbit := true |}).

(** [cin.clear()] *)
Definition clear (s : istream) : istream :=
  {| buf := buf s; eofbit := false; failbit := false |}.

(** The input after the first newline, and whether there was one. *)
Fixpoint drop_line (b : string) : string * bool :=
  match b with
  | EmptyString => (EmptyString, false)
  | String c rest => if is_newline c then (rest, true) else drop_line rest
  end.

(** [cin.ignore(std::numeric_limits<std::streamsize>::max(), '\n')] *)
Definition ignore_line (s : istream) : istream :=
  match sentry false s with
  | (true, s1) =>
      let (rest, found) := drop_line (buf s1) in
      {| buf := rest; eofbit := negb found; failbit := failbit s1 |}
  | (false, s1) => s1
  end.

(** [cin.get()], its result dropped. *)
Definition get (s : istream) : istream :=
  match sentry false s with
  | (true, s1) =>
      match buf s1 with
      | EmptyString => {| buf := ""; eofbit := true; failbit := true |}
      | String _ rest => {| buf := rest; eofbit := eofbit s1; failbit := failbit s1 |}
      end
  | (false, s1) => s1
  end.

Definition INT_MIN : Z := - 2 ^ 31.
Definition INT_MAX : Z := 2 ^ 31 - 1.

(** The longest prefix of digits, as a number, with the number of digits
    and the rest of the input. *)
Fixpoint digits (b : string) (acc : Z) (count : nat) : Z * nat * string :=
  match b with
  | String c rest =>
      if isdigit c
      then digits rest (10 * acc + Z.of_nat (nat_of_ascii c - 48)) (S count)
      else (acc, count, b)
  | EmptyString => (acc, count, b)
  end.

Definition is_sign (c : ascii) : bool :=
  let n := nat_of_ascii c in Nat.eqb n 43 || Nat.eqb n 45.

Definition is_minus (c : ascii) : bool := Nat.eqb (nat_of_ascii c) 45.

(** [cin >> choice] for an [int], base ten: after the sentry, an optional
    sign and the longest run of digits are consumed. No digit, or a value
    outside [int], sets [failbit]; reaching the end of the input sets
    [eofbit]. The result is the value stored, [None] when [failbit] is set
    ([!(cin >> choice)] holds). *)
Definition extract_int (s : istream) : option Z * istream :=
  match sentry true s with
  | (false, s1) => (None, s1)
  | (true, s1) =>
      let '(negative, b1) :=
        match buf s1 with
        | String c rest => if is_sign c then (is_minus c, rest) else (false, buf s1)
        | EmptyString => (false, buf s1)
        end in
      let '(v, count, rest) := digits b1 0 0 in
      let value := if negative then (- v)%Z else v in
      let ok := negb (Nat.eqb count 0) && Z.leb INT_MIN value && Z.leb value INT_MAX in
      ((if ok then Some value else None),
       {| buf := rest; eofbit := is_empty rest; failbit := negb ok |})
  end.

(** The longest prefix without whitespace, and the rest. *)
Fixpoint token (b : string) : string * string :=
  match b with
  | EmptyString => (EmptyString, EmptyString)
  | String c rest =>
      if isspace c then (EmptyString, b)
      else let (t, r) := token rest in (String c t, r)
  end.

(** [cin >> str] for a [std::string]: after the sentry, the characters up
    to the next whitespace. When the sentry fails the string is left as it
    was ([None]). *)
Definition extract_string (s : istream) : option string * istream :=
  match sentry true s with
  | (false, s1) => (None, s1)
  | (true, s1) =>
      let (t, rest) := token (buf s1) in
      (Some t, {| buf := rest; eofbit := is_empty rest; failbit := is_empty t |})
  end.

(** The [ConfigurationManager] object ([mutex_] holds no data of its own;
    every member function locks it for its whole body, so on one thread
    the lock is free at every call). *)
Record ConfigurationManager := mkConfig {
  appName_ : string;
  version_ : string;
  debugMode_ : bool
}.

Definition address := N.

(** The demos of the menu, in the order of [displayMenu]. *)
Inductive Pattern :=
| Builder | Factory | Singleton | Observer | Strategy | Command
| Decorator | Adapter | Facade | TemplateMethod | Proxy | Visitor
| Memento | ChainOfResponsibility | State.

(** The state of the process. [instance] is the storage of the function
    static of [getInstance], [None] until it is initialised;
    [constructed] counts the runs of the private constructor and [invoked]
    lists the demo procedures called, oldest first (both are ghost state). *)
Record World := mkWorld {
  cin : istream;
  cout : list string;
  cerr : list string;
  instance : option ConfigurationManager;
  constructed : nat;
  invoked : list Pattern
}.

Definition with_cin (s : istream) (w : World) : World :=
  {| cin := s; cout := cout w; cerr := cerr w; instance := instance w;
     constructed := constructed w; invoked := invoked w |}.

Definition with_cout (o : list string) (w : World) : World :=
  {| cin := cin w; cout := o; cerr := cerr w; instance := instance w;
     constructed := constructed w; invoked := invoked w |}.

Definition with_cerr (o : list string) (w : World) : World :=
  {| cin := cin w; cout := cout w; cerr := o; instance := instance w;
     constructed := constructed w; invoked := invoked w |}.

Definition with_instance (c : option ConfigurationManager) (w : World) : World :=
  {| cin := cin w; cout := cout w; cerr := cerr w; instance := c;
     constructed := constructed w; invoked := invoked w |}.

Definition with_constructed (n : nat) (w : World) : World :=
  {| cin := cin w; cout := cout w; cerr := cerr w; instance := instance w;
     constructed := n; invoked := invoked w |}.

Definition with_invoked (l : list Pattern) (w : World) : World :=
  {| cin := cin w; cout := cout w; cerr := cerr w; instance := instance w;
     constructed := constructed w; invoked := l |}.

(** The process at start: nothing written, the static not initialised. *)
Definition start (input : string) : World :=
  {| cin := {| buf := input; eofbit := false; failbit := false |};
     cout := []; cerr := []; instance := None; constructed := 0; invoked := [] |}.

(** How a piece of code ends. *)
Inductive outcome (A : Type) :=
| Ok (a : A) (w : World)           (* returns [a] *)
| Throw (e : exception) (w : World) (* an exception leaves it *)
| Undefined.                        (* undefined behaviour *)
Arguments Ok {A} a w.
Arguments Throw {A} e w.
Arguments Undefined {A}.

Definition M (A : Type) : Type := World -> outcome A.

Definition ret {A} (a : A) : M A := fun w => Ok a w.

Definition bind {A B} (m : M A) (k : A -> M B) : M B :=
  fun w =>
    match m w with
    | Ok a w' => k a w'
    | Throw e w' => Throw e w'
    | Undefined => Undefined
    end.

Notation "x <- m ;; k" := (bind m (fun x => k))
  (at level 61, m at next level, right associativity).
Notation "m ;; k" := (bind m (fun _ => k))
  (at level 61, right associativity).

Definition throw {A} (e : exception) : M A := fun w => Throw e w.
Definition undefined {A} : M A := fun _ => Undefined.

(** [std::cout << s] *)
Definition put (s : string) : M unit :=
  fun w => Ok tt (with_cout (s :: cout w) w).

Fixpoint put_all (chunks : list string) : M unit :=
  match chunks with
  | [] => ret tt
  | s :: rest => put s ;; put_all rest
  end.

(** Run a stream operation on [std::cin]. *)
Definition on_cin {A} (f : istream -> A * istream) : M A :=
  fun w => let (a, s) := f (cin w) in Ok a (with_cin s w).

Definition on_cin_ (f : istream -> istream) : M unit :=
  fun w => Ok tt (with_cin (f (cin w)) w).

(** The world an outcome leaves, if any. *)
Definition world_of {A} (o : outcome A) : option World :=
  match o with
  | Ok _ w => Some w
  | Throw _ w => Some w
  | Undefined => None
  end.

(** Dereference a [std::unique_ptr]; a null pointer is undefined behaviour. *)
Definition deref_ptr {A} (p : option A) : M A :=
  fun w =>
    match p with
    | Some a => Ok a w
    | None => Undefined
    end.

(** Return the value or throw the exception. *)
Definition raise_or_return {A} (r : exception + A) : M A :=
  match r with
  | inl e => throw e
  | inr a => ret a
  end.

(** A range-based [for]. *)
Fixpoint for_each {A} (l : list A) (body : A -> M unit) : M unit :=
  match l with
  | [] => ret tt
  | x :: rest => body x ;; for_each rest body
  end.

(** [for (size_t i = from; i < from + l.size(); ++i)] over [l[i - from]]. *)
Fixpoint for_index {A} (from : nat) (l : list A) (body : nat -> A -> M unit) : M unit :=
  match l with
  | [] => ret tt
  | x :: rest => body from x ;; for_index (S from) rest body
  end.

Section Program.

(** Where the function static of [getInstance] lives, and the text
    [operator<<] prints for a pointer (both fixed by the platform). *)
Variable instance_address : address.
Variable show_address : address -> string.

(** The demos of [patterns/observer.hpp] to [patterns/state.hpp], which
    [main.cpp] includes and calls: the chunks each writes and the exception
    that leaves it, if any. *)
Variable absentDemo : Pattern -> list string * option exception.

(* ------------------------------------------------------------------ *)
(** ** patterns/builder.hpp: the demo *)

Definition demoBuilder : M unit :=
  put ("=== BUILDER PATTERN DEMO ===" ++ nl ++ nl) ;;
  put ("📝 Building a complex HTTP request with fluent interface:" ++ nl ++ nl) ;;
  request1 <- deref_ptr (built_from
    [ Method "POST";
      Url "https://api.example.com/users";
      Header "Content-Type" "application/json";
      Header "Authorization" "Bearer token123";
      Body ("{" ++ dquote ++ "name" ++ dquote ++ ":" ++ dquote ++ "John" ++ dquote ++ ","
            ++ dquote ++ "email" ++ dquote ++ ":" ++ dquote ++ "john@example.com" ++ dquote ++ "}");
      Timeout 60 ]) ;;
  put (toString request1 ++ nl) ;;
  put ("✅ Built complex object with fluent interface!" ++ nl ++ nl) ;;
  put ("📝 Building a simple GET request:" ++ nl ++ nl) ;;
  request2 <- deref_ptr (built_from
    [ Method "GET";
      Url "https://api.example.com/users/123";
      Header "Accept" "application/json" ]) ;;
  put (toString request2 ++ nl) ;;
  put ("💡 INTERVIEW INSIGHTS:" ++ nl) ;;
  put ("   • Builder pattern provides fluent, readable API" ++ nl) ;;
  put ("   • Separates construction logic from representation" ++ nl) ;;
  put ("   • Allows step-by-step validation during build" ++ nl) ;;
  put ("   • Better than telescoping constructors" ++ nl) ;;
  put ("   • Can create different representations from same builder" ++ nl ++ nl) ;;
  put ("🎯 WHEN TO USE:" ++ nl) ;;
  put ("   • Object has many optional parameters" ++ nl) ;;
  put ("   • Need to construct objects step-by-step" ++ nl) ;;
  put ("   • Want to enforce immutability after construction" ++ nl) ;;
  put ("   • Complex validation required during construction" ++ nl).

(* ------------------------------------------------------------------ *)
(** ** patterns/factory.hpp: the demo *)

Definition processPayment (p : PaymentProcessor) (amount : string) : M unit :=
  put_all (processPayment_text p amount).

Definition demoFactory : M unit :=
  put ("=== FACTORY PATTERN DEMO ===" ++ nl ++ nl) ;;
  put ("💼 Payment Processing System" ++ nl ++ nl) ;;
  let paymentMethods := ["credit_card"; "paypal"; "bitcoin"] in
  let amount := "99.99" in
  for_each paymentMethods (fun method =>
    put ("Creating processor for: " ++ method ++ nl) ;;
    processor <- raise_or_return (createProcessor method) ;;
    put ("Processor created: " ++ getProcessorName processor ++ nl ++ nl) ;;
    processPayment processor amount ;;
    put (nl ++ fill 50 "-" ++ nl ++ nl)) ;;
  put ("💡 INTERVIEW INSIGHTS:" ++ nl) ;;
  put ("   • Factory encapsulates object creation logic" ++ nl) ;;
  put ("   • Client doesn't need to know concrete classes" ++ nl) ;;
  put ("   • Easy to add new product types without modifying client" ++ nl) ;;
  put ("   • Promotes loose coupling and testability" ++ nl) ;;
  put ("   • Can use abstract factory for families of related objects" ++ nl ++ nl) ;;
  put ("🎯 WHEN TO USE:" ++ nl) ;;
  put ("   • Don't know exact types ahead of time" ++ nl) ;;
  put ("   • Want to provide library/framework extension points" ++ nl) ;;
  put ("   • Need to delegate instantiation to subclasses" ++ nl) ;;
  put ("   • Want to manage/control object creation process" ++ nl).

(* ------------------------------------------------------------------ *)
(** ** patterns/singleton.hpp *)

(** The private constructor, run on the storage of the static. *)
Definition ConfigurationManager_new : M unit :=
  fun w =>
    put ("🔧 ConfigurationManager initialized" ++ nl)
      (with_constructed (S (constructed w))
        (with_instance
          (Some {| appName_ := "MyApp"; version_ := "1.0.0"; debugMode_ := false |}) w)).

(** [static ConfigurationManager instance; return instance;]: the static
    is initialised by the first call that reaches its declaration. *)
Definition getInstance : M address :=
  fun w =>
    match instance w with
    | Some _ => Ok instance_address w
    | None => (ConfigurationManager_new ;; ret instance_address) w
    end.

(** The object a [ConfigurationManager&] refers to. The class can neither
    be constructed nor copied from outside, so the only object there can
    be is the static of [getInstance], once initialised. *)
Definition load (this : address) : M ConfigurationManager :=
  fun w =>
    if N.eqb this instance_address then
      match instance w with
      | Some c => Ok c w
      | None => Undefined
      end
    else Undefined.

Definition store (this : address) (c : ConfigurationManager) : M unit :=
  fun w =>
    if N.eqb this instance_address then
      match instance w with
      | Some _ => Ok tt (with_instance (Some c) w)
      | None => Undefined
      end
    else Undefined.

Definition setAppName (this : address) (name : string) : M unit :=
  c <- load this ;;
  store this {| appName_ := name; version_ := version_ c; debugMode_ := debugMode_ c |}.

Definition getAppName (this : address) : M string :=
  c <- load this ;; ret (appName_ c).

Definition setVersion (this : address) (version : string) : M unit :=
  c <- load this ;;
  store this {| appName_ := appName_ c; version_ := version; debugMode_ := debugMode_ c |}.

Definition getVersion (this : address) : M string :=
  c <- load this ;; ret (version_ c).

Definition setDebugMode (this : address) (debug : bool) : M unit :=
  c <- load this ;;
  store this {| appName_ := appName_ c; version_ := version_ c; debugMode_ := debug |}.

Definition isDebugMode (this : address) : M bool :=
  c <- load this ;; ret (debugMode_ c).

Definition displayConfig (this : address) : M unit :=
  c <- load this ;;
  put ("⚙️  Configuration:" ++ nl) ;;
  put ("   App Name: " ++ appName_ c ++ nl) ;;
  put ("   Version: " ++ version_ c ++ nl) ;;
  put ("   Debug Mode: " ++ (if debugMode_ c then "ON" else "OFF") ++ nl).

Definition demoSingleton : M unit :=
  put ("=== SINGLETON PATTERN DEMO ===" ++ nl ++ nl) ;;
  put ("📝 Accessing singleton instance (first time):" ++ nl) ;;
  config1 <- getInstance ;;
  displayConfig config1 ;;
  put (nl ++ "📝 Modifying configuration:" ++ nl) ;;
  setAppName config1 "Design Patterns Demo" ;;
  setVersion config1 "2.0.0" ;;
  setDebugMode config1 true ;;
  put (nl ++ "📝 Accessing singleton instance (second time):" ++ nl) ;;
  config2 <- getInstance ;;
  displayConfig config2 ;;
  put (nl ++ "✅ Both references point to the same instance!" ++ nl) ;;
  put ("   Address of config1: " ++ show_address config1 ++ nl) ;;
  put ("   Address of config2: " ++ show_address config2 ++ nl) ;;
  put (nl ++ "💡 INTERVIEW INSIGHTS:" ++ nl) ;;
  put ("   • Meyer's Singleton (C++11) is thread-safe by default" ++ nl) ;;
  put ("   • Static local variable ensures single instance" ++ nl) ;;
  put ("   • Lazy initialization - created on first use" ++ nl) ;;
  put ("   • Use mutex for thread-safe member access" ++ nl) ;;
  put ("   • Consider dependency injection as alternative" ++ nl ++ nl) ;;
  put ("⚠️  CAUTIONS:" ++ nl) ;;
  put ("   • Can become anti-pattern if overused" ++ nl) ;;
  put ("   • Makes unit testing harder (global state)" ++ nl) ;;
  put ("   • Hidden dependencies between classes" ++ nl) ;;
  put ("   • Consider alternatives: DI, static methods" ++ nl).

(* ------------------------------------------------------------------ *)
(** ** The demos whose headers are not part of the sources *)

Definition demoAbsent (p : Pattern) : M unit :=
  put_all (fst (absentDemo p)) ;;
  match snd (absentDemo p) with
  | Some e => throw e
  | None => ret tt
  end.

Definition demoObserver := demoAbsent Observer.
Definition demoStrategy := demoAbsent Strategy.
Definition demoCommand := demoAbsent Command.
Definition demoDecorator := demoAbsent Decorator.
Definition demoAdapter := demoAbsent Adapter.
Definition demoFacade := demoAbsent Facade.
Definition demoTemplateMethod := demoAbsent TemplateMethod.
Definition demoProxy := demoAbsent Proxy.
Definition demoVisitor := demoAbsent Visitor.
Definition demoMemento := demoAbsent Memento.
Definition demoChainOfResponsibility := demoAbsent ChainOfResponsibility.
Definition demoState := demoAbsent State.

(* ------------------------------------------------------------------ *)
(** ** main.cpp: [DesignPatternsMenu] *)

Definition displayHeader : M unit :=
  put (nl ++ fill 80 "=" ++ nl) ;;
  put ("🚀 DESIGN PATTERNS INTERVIEW PREP - C++ EDITION 🚀" ++ nl) ;;
  put (fill 80 "=" ++ nl) ;;
  put ("Master the most common design patterns in C++!" ++ nl) ;;
  put ("Each pattern includes real-world examples and modern C++ features." ++ nl) ;;
  put (fill 80 "=" ++ nl).

(** The lines [displayMenu] writes between its two rules. *)
Definition menu_lines : list string :=
  [ "1.  Builder Pattern - Complex Object Construction" ++ nl;
    "2.  Factory Pattern - Object Creation" ++ nl;
    "3.  Singleton Pattern - Single Instance Management" ++ nl;
    "4.  Observer Pattern - Event System & Notifications" ++ nl;
    "5.  Strategy Pattern - Algorithm Selection" ++ nl;
    "6.  Command Pattern - Undo/Redo & Transactions" ++ nl;
    "7.  Decorator Pattern - Dynamic Behavior" ++ nl;
    "8.  Adapter Pattern - Legacy Integration" ++ nl;
    "9.  Facade Pattern - Simplified Interface" ++ nl;
    "10. Template Method Pattern - Algorithm Skeleton" ++ nl;
    "11. Proxy Pattern - Lazy Loading" ++ nl;
    "12. Visitor Pattern - Operations on Structures" ++ nl;
    "13. Memento Pattern - State Restoration" ++ nl;
    "14. Chain of Responsibility - Request Handling" ++ nl;
    "15. State Pattern - Behavior Based on State" ++ nl;
    "16. 📖 Interview Tips & Common Questions" ++ nl;
    "17. 🚪 Exit" ++ nl ].

Definition displayMenu : M unit :=
  put (nl ++ "📚 AVAILABLE PATTERNS:" ++ nl) ;;
  put (fill 50 "-" ++ nl) ;;
  put_all menu_lines ;;
  put (fill 50 "-" ++ nl).

Definition tips : list string :=
  [ "🎯 Always explain the problem the pattern solves";
    "💡 Provide real-world examples from your experience";
    "🔧 Show how to implement the pattern step by step";
    "⚠️ Discuss trade-offs and when NOT to use the pattern";
    "🚀 Mention performance implications and alternatives";
    "🧪 Be ready to handle edge cases and error scenarios" ].

Definition questions : list string :=
  [ "How would you test this pattern?";
    "What are the performance implications?";
    "How does this compare to [other pattern]?";
    "What if you need to handle [specific edge case]?";
    "How would you implement this in a distributed system?";
    "What are the memory implications?" ].

Definition displayInterviewTips : M unit :=
  put (nl ++ fill 60 "=" ++ nl) ;;
  put ("📖 INTERVIEW TIPS & STRATEGIES" ++ nl) ;;
  put (fill 60 "=" ++ nl) ;;
  put (nl ++ "💡 Key Interview Tips:" ++ nl) ;;
  for_each tips (fun tip => put ("   " ++ tip ++ nl)) ;;
  put (nl ++ "🔄 Common Follow-up Questions:" ++ nl) ;;
  for_index 0 questions (fun i question =>
    put ("   " ++ show_size (i + 1) ++ ". " ++ question ++ nl)) ;;
  put (nl ++ fill 60 "=" ++ nl).

(** A call of a demo procedure, recorded in [invoked]. *)
Definition call (p : Pattern) (demo : M unit) : M unit :=
  (fun w => Ok tt (with_invoked (invoked w ++ [p]) w)) ;; demo.

(** The two lines after the [switch] of [runPatternDemo]. *)
Definition demo_completed : M unit :=
  put (nl ++ fill 60 "=" ++ nl) ;;
  put ("✅ Demo completed successfully!" ++ nl).

Definition runPatternDemo (choice : Z) : M unit :=
  put (nl ++ "🚀 Running demo..." ++ nl ++ nl) ;;
  match choice with
  | 1%Z => call Builder demoBuilder ;; demo_completed
  | 2%Z => call Factory demoFactory ;; demo_completed
  | 3%Z => call Singleton demoSingleton ;; demo_completed
  | 4%Z => call Observer demoObserver ;; demo_completed
  | 5%Z => call Strategy demoStrategy ;; demo_completed
  | 6%Z => call Command demoCommand ;; demo_completed
  | 7%Z => call Decorator demoDecorator ;; demo_completed
  | 8%Z => call Adapter demoAdapter ;; demo_completed
  | 9%Z => call Facade demoFacade ;; demo_completed
  | 10%Z => call TemplateMethod demoTemplateMethod ;; demo_completed
  | 11%Z => call Proxy demoProxy ;; demo_completed
  | 12%Z => call Visitor demoVisitor ;; demo_completed
  | 13%Z => call Memento demoMemento ;; demo_completed
  | 14%Z => call ChainOfResponsibility demoChainOfResponsibility ;; demo_completed
  | 15%Z => call State demoState ;; demo_completed
  | _ => put ("❌ Invalid pattern selection!" ++ nl)
  end.

Definition clearInputBuffer : M unit :=
  on_cin_ clear ;;
  on_cin_ ignore_line.

Definition waitForEnter : M unit :=
  put (nl ++ "Press Enter to continue...") ;;
  clearInputBuffer ;;
  on_cin_ get.

(** The test on [continueChoice] that ends the loop. *)
Definition declines (continueChoice : string) : bool :=
  negb (String.eqb continueChoice "y") && negb (String.eqb continueChoice "Y") &&
  negb (String.eqb continueChoice "yes") && negb (String.eqb continueChoice "Yes").

Definition farewell : M unit :=
  put (nl ++ "🎉 Thanks for using Design Patterns Interview Prep (C++ Edition)!" ++ nl) ;;
  put ("Good luck with your interviews! 🚀" ++ nl).

Inductive flow := Continue | Break.

(** What one turn of the loop does once [cin >> choice] is over;
    [extracted] is the value of [choice], [None] when the extraction
    failed. [continueChoice] is declared outside the loop: the turn gets its
    value and returns the new one ([cin >> continueChoice] leaves it as it
    was when its sentry fails). *)
Definition respond (continueChoice : string) (extracted : option Z)
  : M (flow * string) :=
  match extracted with
  | None =>
      put ("❌ Invalid input! Please enter a number between 1-17." ++ nl) ;;
      clearInputBuffer ;;
      waitForEnter ;;
      ret (Continue, continueChoice)
  | Some choice =>
      if Z.eqb choice 16 then
        displayInterviewTips ;;
        waitForEnter ;;
        ret (Continue, continueChoice)
      else if Z.eqb choice 17 then
        farewell ;;
        ret (Break, continueChoice)
      else if Z.leb 1 choice && Z.leb choice 15 then
        runPatternDemo choice ;;
        put (nl ++ "🔄 Would you like to explore another pattern? (y/n): ") ;;
        answer <- on_cin extract_string ;;
        let continueChoice :=
          match answer with
          | Some s => s
          | None => continueChoice
          end in
        if declines continueChoice then
          farewell ;;
          ret (Break, continueChoice)
        else ret (Continue, continueChoice)
      else
        put ("❌ Invalid choice! Please select 1-17." ++ nl) ;;
        waitForEnter ;;
        ret (Continue, continueChoice)
  end.

(** What a turn writes before it reads the selection. *)
Definition prompt : M unit :=
  displayHeader ;;
  displayMenu ;;
  put (nl ++ "🎯 Choose a pattern to explore (1-17): ").

(** One turn of the [while (true)] loop of [run]. *)
Definition turn (continueChoice : string) : M (flow * string) :=
  prompt ;;
  extracted <- on_cin extract_int ;;
  respond continueChoice extracted.

(** The loop, for at most [fuel] turns; [None] when they do not suffice. *)
Fixpoint run_from (fuel : nat) (continueChoice : string) (w : World)
  : option (outcome unit) :=
  match fuel with
  | O => None
  | S fuel' =>
      match turn continueChoice w with
      | Ok (Continue, continueChoice') w' => run_from fuel' continueChoice' w'
      | Ok (Break, _) w' => Some (Ok tt w')
      | Throw e w' => Some (Throw e w')
      | Undefined => Some Undefined
      end
  end.

(** [DesignPatternsMenu::run] *)
Definition run (fuel : nat) (w : World) : option (outcome unit) :=
  run_from fuel "" w.

(** [std::cerr << s] *)
Definition put_err (s : string) : M unit :=
  fun w => Ok tt (with_cerr (s :: cerr w) w).

(** [main]: the value returned is the exit status of the process. *)
Definition main (fuel : nat) (w : World) : option (outcome Z) :=
  match run fuel w with
  | None => None
  | Some (Ok _ w') => Some (Ok 0%Z w')
  | Some (Throw e w') =>
      Some ((put_err ("❌ Fatal error: " ++ what e ++ nl) ;; ret 1%Z) w')
  | Some Undefined => Some Undefined
  end.

(** The procedure behind each pattern. *)
Definition demo_of (p : Pattern) : M unit :=
  match p with
  | Builder => demoBuilder
  | Factory => demoFactory
  | Singleton => demoSingleton
  | Observer => demoObserver
  | Strategy => demoStrategy
  | Command => demoCommand
  | Decorator => demoDecorator
  | Adapter => demoAdapter
  | Facade => demoFacade
  | TemplateMethod => demoTemplateMethod
  | Proxy => demoProxy
  | Visitor => demoVisitor
  | Memento => demoMemento
  | ChainOfResponsibility => demoChainOfResponsibility
  | State => demoState
  end.

(* ------------------------------------------------------------------ *)
(** ** The menu as a table *)

(** The patterns in the order of [displayMenu] and of the [case] labels of
    [runPatternDemo]. *)
Definition patterns : list Pattern :=
  [ Builder; Factory; Singleton; Observer; Strategy; Command; Decorator;
    Adapter; Facade; TemplateMethod; Proxy; Visitor; Memento;
    ChainOfResponsibility; State ].

(** The name [displayMenu] shows for each pattern. *)
Definition patternName (p : Pattern) : string :=
  match p with
  | Builder => "Builder"
  | Factory => "Factory"
  | Singleton => "Singleton"
  | Observer => "Observer"
  | Strategy => "Strategy"
  | Command => "Command"
  | Decorator => "Decorator"
  | Adapter => "Adapter"
  | Facade => "Facade"
  | TemplateMethod => "Template Method"
  | Proxy => "Proxy"
  | Visitor => "Visitor"
  | Memento => "Memento"
  | ChainOfResponsibility => "Chain of Responsibility"
  | State => "State"
  end.

(** One way to fill in what the sources leave open, to run the program
    on: an address for the static, a text for it, absent demos that print
    a banner with their name, and absent demos that throw. *)
Definition example_address : address := 4210752%N.

Definition example_show_address (a : address) : string := "0x404040".

Definition example_absentDemo (p : Pattern) : list string * option exception :=
  (["=== " ++ patternName p ++ " ===" ++ nl], None).

Definition example_throwingDemo (p : Pattern) : list string * option exception :=
  ([], Some (invalid_argument ("Unknown payment processor type: " ++ "cash"))).

(** The pattern at a position of the menu, counted from one. *)
Definition pattern_at (choice : Z) : option Pattern :=
  if Z.leb 1 choice then nth_error patterns (Z.to_nat (choice - 1)) else None.

(** Line [choice] of the menu starts with that number and names [p]. *)
Definition menu_shows (choice : Z) (p : Pattern) : Prop :=
  exists line,
    nth_error menu_lines (Z.to_nat (choice - 1)) = Some line /\
    prefix (show_int choice ++ ". ") line = true /\
    occurs_in (patternName p) line.

(** The demos whose header is part of the sources. *)
Definition in_sources (p : Pattern) : bool :=
  match p with
  | Builder | Factory | Singleton => true
  | _ => false
  end.

(** Modelled from the spec: the demo procedures of patterns 4 to 15
    ([demoObserver] to [demoState]), whose headers [main.cpp] includes but
    which are not part of the sources. The specification says of each demo
    only that it produces output containing the name of its pattern. *)
Definition absent_demos_print_their_name : Prop :=
  forall p, in_sources p = false ->
    occurs_in (patternName p) (join (fst (absentDemo p))).

(** The demo the selection leads to returns: it is one of the sources,
    which throw nothing, or an absent one that throws nothing. *)
Definition demo_returns (choice : Z) : Prop :=
  forall p, pattern_at choice = Some p ->
    in_sources p = true \/ snd (absentDemo p) = None.

(** What a procedure that only writes adds to [std::cout]. *)
Definition written_by (m : M unit) : list string :=
  match m (start "") with
  | Ok _ w => cout w
  | _ => []
  end.

Definition prompt_screen : list string := written_by prompt.
Definition tips_screen : list string := written_by displayInterviewTips.
Definition farewell_screen : list string := written_by farewell.

(** The input at the selection prompt is not a number: the stream is good
    and its first character after the whitespace can start no integer. *)
Definition starts_number (b : string) : bool :=
  match b with
  | EmptyString => false
  | String c rest =>
      if is_sign c then
        match rest with
        | EmptyString => false
        | String d _ => isdigit d
        end
      else isdigit c
  end.

Definition non_numeric_input (s : istream) : Prop :=
  good s = true /\
  skipws (buf s) <> "" /\
  starts_number (skipws (buf s)) = false.

(** [part] is what is left of [whole] after some of it was discarded. *)
Definition is_suffix (part whole : string) : Prop :=
  exists discarded, whole = discarded ++ part.

(** The text a run of a demo adds to [std::cout]: what [w'] holds beyond
    [w]. *)
Definition printed_between (w w' : World) (text : string) : Prop :=
  exists chunks, cout w' = (chunks ++ cout w)%list /\ text = text_of chunks.

(** The affirmative answers as the specification words them: y or yes,
    whatever the case of the letters. *)
Definition affirmative_ignoring_case (answer : string) : bool :=
  String.eqb (lower answer) "y" || String.eqb (lower answer) "yes".

(* ------------------------------------------------------------------ *)
(** ** Concurrent callers of [getInstance]

    Threads that call [getInstance], interleaved by a schedule. The
    initialisation of a function static is guarded by the language: the
    first thread to reach the declaration runs the constructor, a thread
    that reaches it meanwhile waits, and every later one skips it. *)

Inductive guard :=
| NotStarted
| InProgress (owner : nat)
| Complete.

Record thread := mkThread {
  pending : nat;             (* calls of [getInstance] still to make *)
  constructing : bool;       (* inside the initialisation of the static *)
  returned : list address    (* what its calls returned, oldest first *)
}.

Record system := mkSystem {
  world : World;
  static_guard : guard;
  threads : list thread
}.

Fixpoint set_thread (t : nat) (th : thread) (l : list thread) : list thread :=
  match l, t with
  | [], _ => []
  | _ :: rest, O => th :: rest
  | x :: rest, S t' => x :: set_thread t' th rest
  end.

(** One step of thread [t]. *)
Definition step (t : nat) (s : system) : system :=
  match nth_error (threads s) t with
  | None => s
  | Some th =>
      if constructing th then
        (* the constructor runs to its end, the guard is released *)
        match ConfigurationManager_new (world s) with
        | Ok _ w' =>
            {| world := w'; static_guard := Complete;
               threads := set_thread t
                 {| pending := pred (pending th); constructing := false;
                    returned := returned th ++ [instance_address] |} (threads s) |}
        | _ => s
        end
      else
        match pending th with
        | O => s
        | S k =>
            match static_guard s with
            | Complete =>
                {| world := world s; static_guard := Complete;
                   threads := set_thread t
                     {| pending := k; constructing := false;
                        returned := returned th ++ [instance_address] |} (threads s) |}
            | NotStarted =>
                {| world := world s; static_guard := InProgress t;
                   threads := set_thread t
                     {| pending := pending th; constructing := true;
                        returned := returned th |} (threads s) |}
            | InProgress _ => s
            end
        end
  end.

Fixpoint exec (schedule : list nat) (s : system) : system :=
  match schedule with
  | [] => s
  | t :: rest => exec rest (step t s)
  end.

(** A process in which thread [i] is about to call [getInstance]
    [nth i calls] times and nobody has called it yet. *)
Definition boot (input : string) (calls : list nat) : system :=
  {| world := start input; static_guard := NotStarted;
     threads := map (fun n => {| pending := n; constructing := false; returned := [] |}) calls |}.

(** What holds of every state the threads can reach. Before the
    initialisation is complete nothing was returned and the static is raw;
    while it is in progress exactly its owner is inside the constructor;
    once it is complete the constructor has run once and nobody is inside
    it. *)
Definition guard_invariant (s : system) : Prop :=
  (forall t th, nth_error (threads s) t = Some th ->
     (forall r, In r (returned th) -> r = instance_address) /\
     (constructing th = true -> 0 < pending th)) /\
  match static_guard s with
  | NotStarted =>
      instance (world s) = None /\ constructed (world s) = 0 /\
      forall t th, nth_error (threads s) t = Some th ->
        constructing th = false /\ returned th = []
  | InProgress o =>
      instance (world s) = None /\ constructed (world s) = 0 /\
      (exists th, nth_error (threads s) o = Some th /\ constructing th = true) /\
      forall t th, nth_error (threads s) t = Some th ->
        returned th = [] /\ (constructing th = true -> t = o)
  | Complete =>
      instance (world s) <> None /\ constructed (world s) = 1 /\
      forall t th, nth_error (threads s) t = Some th -> constructing th = false
  end.

(** Every call is either still to make or has returned. *)
Definition accounted (calls : list nat) (s : system) : Prop :=
  length (threads s) = length calls /\
  forall t th n,
    nth_error (threads s) t = Some th -> nth_error calls t = Some n ->
    pending th + length (returned th) = n.

(** [n] calls of [getInstance] in a row, with what they return. *)
Fixpoint getInstance_times (n : nat) : M (list address) :=
  match n with
  | O => ret []
  | S k =>
      r <- getInstance ;;
      rs <- getInstance_times k ;;
      ret (r :: rs)
  end.

(* ------------------------------------------------------------------ *)
(** ** Shapes of input, for statements about what is typed *)

(** Every character of the text is whitespace. *)
Fixpoint blank (s : string) : bool :=
  match s with
  | EmptyString => true
  | String c rest => isspace c && blank rest
  end.

(** The text does not go on with a digit: a number before it ends there. *)
Definition ends_number (rest : string) : bool :=
  match rest with
  | EmptyString => true
  | String c _ => negb (isdigit c)
  end.

(** The text holds no newline: it is (part of) one line. *)
Fixpoint one_line (s : string) : bool :=
  match s with
  | EmptyString => true
  | String c rest => negb (is_newline c) && one_line rest
  end.

(** The text is one word: it is not empty and holds no whitespace. *)
Fixpoint no_space (s : string) : bool :=
  match s with
  | EmptyString => true
  | String c rest => negb (isspace c) && no_space rest
  end.

Definition word (s : string) : bool := negb (is_empty s) && no_space s.

(** The text does not go on with a character of a word. *)
Definition ends_word (rest : string) : bool :=
  match rest with
  | EmptyString => true
  | String c _ => isspace c
  end.

(** The headers a chain of setters adds, in the order of the calls. *)
Fixpoint header_calls (cs : list setter) : list (string * string) :=
  match cs with
  | [] => []
  | Header k v :: rest => (k, v) :: header_calls rest
  | _ :: rest => header_calls rest
  end.

(** What is left to do in a state of the threads: two steps for a call
    that has not started, one for a call inside the constructor. *)
Definition work (th : thread) : nat :=
  2 * pending th - (if constructing th then 1 else 0).

Definition remaining (s : system) : nat := list_sum (map work (threads s)).

(* ================================================================== *)
(** * Properties *)

(** [tauto] without the parameters of the program, which it would take
    for hypotheses. *)
Ltac tauto' :=
  try clear show_address; try clear instance_address; tauto.

(* ------------------------------------------------------------------ *)
(** ** Text *)

Lemma append_assoc (a b c : string) : (a ++ b) ++ c = a ++ b ++ c.
Proof.
  induction a as [|x a IH]; simpl; [reflexivity | now rewrite IH].
Qed.

Lemma append_empty_r (a : string) : a ++ "" = a.
Proof.
  induction a as [|x a IH]; simpl; [reflexivity | now rewrite IH].
Qed.

Lemma occurs_in_refl (s : string) : occurs_in s s.
Proof.
  exists "", "". simpl. now rewrite append_empty_r.
Qed.

Lemma occurs_in_app_l (n a b : string) : occurs_in n a -> occurs_in n (a ++ b).
Proof.
  intros (pre & post & ->). exists pre, (post ++ b).
  now rewrite !append_assoc.
Qed.

Lemma occurs_in_app_r (n a b : string) : occurs_in n b -> occurs_in n (a ++ b).
Proof.
  intros (pre & post & ->). exists (a ++ pre), post.
  now rewrite !append_assoc.
Qed.

Lemma occurs_in_trans (a b c : string) :
  occurs_in a b -> occurs_in b c -> occurs_in a c.
Proof.
  intros (p1 & q1 & ->) (p2 & q2 & ->).
  exists (p2 ++ p1), (q1 ++ q2). now rewrite !append_assoc.
Qed.

Lemma prefix_split (a b : string) :
  prefix a b = true -> exists post, b = a ++ post.
Proof.
  revert b. induction a as [|x a IH]; intros b H.
  - exists b. reflexivity.
  - destruct b as [|y b]; simpl in H; [discriminate|].
    destruct (ascii_dec x y) as [->|]; [|discriminate].
    destruct (IH b H) as (post & ->). now exists post.
Qed.

Lemma contains_occurs_in (n h : string) :
  contains n h = true -> occurs_in n h.
Proof.
  induction h as [|c h IH]; cbn [contains]; intros H.
  - destruct n; [|discriminate]. now exists "", "".
  - apply orb_true_iff in H as [H|H].
    + destruct (prefix_split _ _ H) as (post & E). exists "", post. exact E.
    + destruct (IH H) as (pre & post & ->). now exists (String c pre), post.
Qed.

Lemma join_app (a b : list string) : join (a ++ b) = join a ++ join b.
Proof.
  induction a as [|x a IH]; simpl; [reflexivity|].
  now rewrite IH, append_assoc.
Qed.

Lemma text_of_app (newer older : list string) :
  text_of (newer ++ older) = text_of older ++ text_of newer.
Proof.
  unfold text_of. now rewrite rev_app_distr, join_app.
Qed.

Lemma occurs_in_join (n s : string) (l : list string) :
  In s l -> occurs_in n s -> occurs_in n (join l).
Proof.
  induction l as [|x l IH]; simpl; [easy|].
  intros [->|Hin] Hn.
  - now apply occurs_in_app_l.
  - apply occurs_in_app_r. now apply IH.
Qed.

Lemma occurs_in_text_of (n s : string) (chunks : list string) :
  In s chunks -> occurs_in n s -> occurs_in n (text_of chunks).
Proof.
  intros Hin. apply occurs_in_join. now apply in_rev in Hin.
Qed.

(** A chunk that holds the needle, found by computation. *)
Lemma occurs_in_chunk (n s : string) (chunks : list string) :
  In s chunks -> contains n s = true -> occurs_in n (text_of chunks).
Proof.
  intros Hin Hc. eapply occurs_in_text_of; eauto using contains_occurs_in.
Qed.

(* ------------------------------------------------------------------ *)
(** ** Factory *)

(** C3. [createProcessor] maps credit_card, paypal and bitcoin to the
    processors named Credit Card Processor, PayPal Processor and Bitcoin
    Processor; for every other string it throws [std::invalid_argument]
    (the unknown-product-type error) and returns no processor. *)
Theorem createProcessor_by_type :
  (exists p, createProcessor "credit_card" = inr p /\
             getProcessorName p = "Credit Card Processor") /\
  (exists p, createProcessor "paypal" = inr p /\
             getProcessorName p = "PayPal Processor") /\
  (exists p, createProcessor "bitcoin" = inr p /\
             getProcessorName p = "Bitcoin Processor") /\
  (forall type,
     type <> "credit_card" -> type <> "paypal" -> type <> "bitcoin" ->
     createProcessor type =
       inl (invalid_argument ("Unknown payment processor type: " ++ type))) /\
  (forall type p,
     createProcessor type = inr p ->
     type = "credit_card" \/ type = "paypal" \/ type = "bitcoin").
Proof.
  repeat split.
  - now exists CreditCardProcessor.
  - now exists PayPalProcessor.
  - now exists BitcoinProcessor.
  - intros type H1 H2 H3. unfold createProcessor.
    apply String.eqb_neq in H1, H2, H3. now rewrite H1, H2, H3.
  - intros type p. unfold createProcessor.
    destruct (String.eqb_spec type "credit_card"); [now left|].
    destruct (String.eqb_spec type "paypal"); [now right; left|].
    destruct (String.eqb_spec type "bitcoin"); [now right; right|].
    discriminate.
Qed.

(* ------------------------------------------------------------------ *)
(** ** Builder *)

(** C10. [build] hands the request out and leaves the builder with a null
    [request_]: a second [build] returns the null pointer, and each of the
    five setters called after [build] dereferences it. *)
Theorem build_empties_the_builder (b : HttpRequestBuilder) :
  fst (build b) = request_ b /\
  request_ (snd (build b)) = None /\
  fst (build (snd (build b))) = None /\
  (forall c : setter, apply_setter c (snd (build b)) = None) /\
  (forall m u s k v t,
     method m (snd (build b)) = None /\ url u (snd (build b)) = None /\
     body s (snd (build b)) = None /\ header k v (snd (build b)) = None /\
     timeout t (snd (build b)) = None).
Proof.
  repeat split; try reflexivity.
  intros c. now destruct c.
Qed.

Lemma apply_setter_effect (c : setter) (b : HttpRequestBuilder) :
  apply_setter c b = through_request (setter_effect c) b.
Proof. now destruct c. Qed.

Lemma chain_on_request (cs : list setter) (r : HttpRequest) :
  chain cs {| request_ := Some r |} = Some {| request_ := Some (after_setters cs r) |}.
Proof.
  revert r. induction cs as [|c cs IH]; intros r; [reflexivity|].
  cbn [chain]. rewrite apply_setter_effect. cbn. apply IH.
Qed.

Lemma built_from_setters (cs : list setter) :
  built_from cs = Some (after_setters cs HttpRequest_new).
Proof.
  unfold built_from, HttpRequestBuilder_new. now rewrite chain_on_request.
Qed.

Lemma method_after (v : string) (cs : list setter) (r : HttpRequest) :
  (forall m, In (Method m) cs -> m = v) ->
  method_ r = v \/ In (Method v) cs ->
  method_ (after_setters cs r) = v.
Proof.
  revert r. induction cs as [|c cs IH]; intros r Hall Hsome.
  - now destruct Hsome.
  - cbn. apply IH.
    + intros m Hm. apply Hall. now right.
    + destruct c; cbn; try (destruct Hsome as [?|[?|?]]; (discriminate || tauto')).
      left. apply Hall. now left.
Qed.

Lemma url_after (v : string) (cs : list setter) (r : HttpRequest) :
  (forall u, In (Url u) cs -> u = v) ->
  url_ r = v \/ In (Url v) cs ->
  url_ (after_setters cs r) = v.
Proof.
  revert r. induction cs as [|c cs IH]; intros r Hall Hsome.
  - now destruct Hsome.
  - cbn. apply IH.
    + intros m Hm. apply Hall. now right.
    + destruct c; cbn; try (destruct Hsome as [?|[?|?]]; (discriminate || tauto')).
      left. apply Hall. now left.
Qed.

Lemma body_after (v : string) (cs : list setter) (r : HttpRequest) :
  (forall s, In (Body s) cs -> s = v) ->
  body_ r = v \/ In (Body v) cs ->
  body_ (after_setters cs r) = v.
Proof.
  revert r. induction cs as [|c cs IH]; intros r Hall Hsome.
  - now destruct Hsome.
  - cbn. apply IH.
    + intros m Hm. apply Hall. now right.
    + destruct c; cbn; try (destruct Hsome as [?|[?|?]]; (discriminate || tauto')).
      left. apply Hall. now left.
Qed.

Lemma timeout_after (v : Z) (cs : list setter) (r : HttpRequest) :
  (forall t, In (Timeout t) cs -> t = v) ->
  timeout_ r = v \/ In (Timeout v) cs ->
  timeout_ (after_setters cs r) = v.
Proof.
  revert r. induction cs as [|c cs IH]; intros r Hall Hsome.
  - now destruct Hsome.
  - cbn. apply IH.
    + intros m Hm. apply Hall. now right.
    + destruct c; cbn; try (destruct Hsome as [?|[?|?]]; (discriminate || tauto')).
      left. apply Hall. now left.
Qed.

Lemma headers_after (k v : string) (cs : list setter) (r : HttpRequest) :
  In (k, v) (headers_ r) \/ In (Header k v) cs ->
  In (k, v) (headers_ (after_setters cs r)).
Proof.
  revert r. induction cs as [|c cs IH]; intros r H.
  - now destruct H.
  - cbn. apply IH. destruct H as [H|[->|H]]; [| |now right].
    + left. destruct c; cbn; auto. apply in_or_app. now left.
    + left. cbn. apply in_or_app. right. now left.
Qed.

(** Find a part of a concatenation. *)
Ltac find_part :=
  repeat match goal with
  | |- occurs_in ?n ?n => apply occurs_in_refl
  | |- occurs_in ?n (?n ++ _) => apply occurs_in_app_l, occurs_in_refl
  | |- occurs_in _ (_ ++ _) => apply occurs_in_app_r
  end.

Lemma toString_method (r : HttpRequest) : occurs_in (method_ r) (toString r).
Proof. unfold toString. find_part. Qed.

Lemma toString_url (r : HttpRequest) : occurs_in (url_ r) (toString r).
Proof. unfold toString. find_part. Qed.

Lemma toString_timeout (r : HttpRequest) :
  occurs_in (show_int (timeout_ r)) (toString r).
Proof. unfold toString. find_part. Qed.

Lemma header_lines_header (k v : string) (hs : list (string * string)) :
  In (k, v) hs -> occurs_in (k ++ ": " ++ v) (header_lines hs).
Proof.
  induction hs as [|h hs IH]; [easy|].
  intros [->|H]; cbn [header_lines].
  - apply occurs_in_app_l. unfold header_line. cbn [fst snd].
    apply occurs_in_app_r.
    exists "", nl. cbn [append]. now rewrite !append_assoc.
  - apply occurs_in_app_r. now apply IH.
Qed.

Lemma toString_header (k v : string) (r : HttpRequest) :
  In (k, v) (headers_ r) -> occurs_in (k ++ ": " ++ v) (toString r).
Proof.
  intros H. unfold toString.
  do 14 apply occurs_in_app_r. apply occurs_in_app_l.
  now apply header_lines_header.
Qed.

Lemma toString_body (r : HttpRequest) :
  body_ r <> "" -> occurs_in (body_ r) (toString r).
Proof.
  intros H. unfold toString.
  destruct (body_ r) as [|c s] eqn:E; [easy|]. cbn [is_empty].
  find_part.
Qed.

(** C5. A request built through [HttpRequestBuilder] from the method POST,
    the url https://api.example.com/users, one header, a body that is not
    empty and the timeout 60, the five calls in any order, renders through
    [toString] to a text that holds the method, the url, the key and the
    value of the header, the body and 60 verbatim. *)
Theorem built_request_shows_its_values
  (key value text : string) (cs : list setter) :
  text <> "" ->
  Permutation cs
    [ Method "POST"; Url "https://api.example.com/users";
      Header key value; Body text; Timeout 60 ] ->
  exists r,
    built_from cs = Some r /\
    occurs_in "POST" (toString r) /\
    occurs_in "https://api.example.com/users" (toString r) /\
    occurs_in key (toString r) /\
    occurs_in value (toString r) /\
    occurs_in (key ++ ": " ++ value) (toString r) /\
    occurs_in text (toString r) /\
    occurs_in "60" (toString r).
Proof.
  intros Htext Hperm.
  exists (after_setters cs HttpRequest_new).
  split; [apply built_from_setters|].
  assert (Hin : forall c, In c cs <->
            In c [ Method "POST"; Url "https://api.example.com/users";
                   Header key value; Body text; Timeout 60 ]).
  { intros c. split; apply Permutation_in; [assumption | now apply Permutation_sym]. }
  set (r := after_setters cs HttpRequest_new).
  assert (Hm : method_ r = "POST").
  { apply method_after.
    - intros m H. apply Hin in H. cbn in H.
      repeat (destruct H as [H|H]; try discriminate); [congruence | easy].
    - right. apply Hin. cbn. tauto'. }
  assert (Hu : url_ r = "https://api.example.com/users").
  { apply url_after.
    - intros m H. apply Hin in H. cbn in H.
      repeat (destruct H as [H|H]; try discriminate); [congruence | easy].
    - right. apply Hin. cbn. tauto'. }
  assert (Hb : body_ r = text).
  { apply body_after.
    - intros m H. apply Hin in H. cbn in H.
      repeat (destruct H as [H|H]; try discriminate); [congruence | easy].
    - right. apply Hin. cbn. tauto'. }
  assert (Ht : timeout_ r = 60%Z).
  { apply timeout_after.
    - intros m H. apply Hin in H. cbn in H.
      repeat (destruct H as [H|H]; try discriminate); [congruence | easy].
    - right. apply Hin. cbn. tauto'. }
  assert (Hh : occurs_in (key ++ ": " ++ value) (toString r)).
  { apply toString_header, headers_after. right. apply Hin. cbn. tauto'. }
  repeat split.
  - rewrite <- Hm. apply toString_method.
  - rewrite <- Hu. apply toString_url.
  - eapply occurs_in_trans; [|exact Hh]. find_part.
  - eapply occurs_in_trans; [|exact Hh]. find_part.
  - exact Hh.
  - rewrite <- Hb. apply toString_body. now rewrite Hb.
  - change "60" with (show_int 60). rewrite <- Ht. apply toString_timeout.
Qed.

(* ------------------------------------------------------------------ *)
(** ** Running code on a world *)

Lemma grows_nil {A} (base : list A) : base = ([] ++ base)%list.
Proof. reflexivity. Qed.

Lemma grows_cons {A} (x : A) (l newer base : list A) :
  l = (newer ++ base)%list -> (x :: l = (x :: newer) ++ base)%list.
Proof. now intros ->. Qed.

(** Split a stream into the chunks added and the chunks it had. *)
Ltac grows :=
  repeat match goal with |- (_ :: _) = _ => eapply grows_cons end;
  apply grows_nil.

(** Find a chunk in an explicit list. *)
Ltac find_chunk :=
  cbn [In]; repeat first [left; reflexivity | right].

(** Unfold the monad and the record updates, leaving the text alone. *)
Ltac step_m :=
  cbv beta iota zeta delta
    [ bind ret put put_all put_err throw undefined deref_ptr raise_or_return
      for_each for_index on_cin on_cin_ call world_of
      with_cin with_cout with_cerr with_instance with_constructed with_invoked
      cin cout cerr instance constructed invoked ].

Ltac run_m :=
  repeat first [progress step_m | rewrite N.eqb_refl | rewrite built_from_setters].

Lemma put_all_run (chunks : list string) (w : World) :
  put_all chunks w = Ok tt (with_cout (rev chunks ++ cout w) w).
Proof.
  revert w. induction chunks as [|s chunks IH]; intros w.
  - now destruct w.
  - cbn [put_all]. unfold bind, put. rewrite IH. destruct w. cbn.
    now rewrite <- app_assoc.
Qed.

Lemma text_of_rev (chunks : list string) : text_of (rev chunks) = join chunks.
Proof. unfold text_of. now rewrite rev_involutive. Qed.

(** *** The demos: each one returns or throws, writes to [std::cout] and
    touches neither the input nor the record of the demos called. *)

Lemma demoBuilder_run (w : World) :
  exists chunks,
    demoBuilder w = Ok tt (with_cout (chunks ++ cout w) w) /\
    occurs_in "Builder" (text_of chunks).
Proof.
  destruct w as [ci co ce inst k inv].
  unfold demoBuilder. run_m.
  eexists. split.
  - f_equal. f_equal. grows.
  - eapply occurs_in_chunk with
      (s := "   • Builder pattern provides fluent, readable API" ++ nl);
      [find_chunk | reflexivity].
Qed.

Lemma demoFactory_run (w : World) :
  exists chunks,
    demoFactory w = Ok tt (with_cout (chunks ++ cout w) w) /\
    occurs_in "Factory" (text_of chunks).
Proof.
  destruct w as [ci co ce inst k inv].
  unfold demoFactory, processPayment.
  repeat first
    [ progress step_m
    | progress cbv beta iota delta [processPayment_text getProcessorName]
    | progress change (createProcessor "credit_card") with
        (@inr exception _ CreditCardProcessor)
    | progress change (createProcessor "paypal") with
        (@inr exception _ PayPalProcessor)
    | progress change (createProcessor "bitcoin") with
        (@inr exception _ BitcoinProcessor) ].
  eexists. split.
  - f_equal. f_equal. grows.
  - eapply occurs_in_chunk with
      (s := "   • Factory encapsulates object creation logic" ++ nl);
      [find_chunk | reflexivity].
Qed.

Lemma demoSingleton_run (w : World) :
  exists chunks w',
    demoSingleton w = Ok tt w' /\
    cout w' = (chunks ++ cout w)%list /\
    cin w' = cin w /\ cerr w' = cerr w /\ invoked w' = invoked w /\
    instance w' = Some {| appName_ := "Design Patterns Demo";
                          version_ := "2.0.0"; debugMode_ := true |} /\
    occurs_in "Singleton" (text_of chunks).
Proof.
  destruct w as [ci co ce inst k inv].
  unfold demoSingleton, getInstance, displayConfig, setAppName, setVersion,
    setDebugMode, load, store, ConfigurationManager_new.
  destruct inst as [c|]; run_m;
    (eexists; eexists; split; [reflexivity|]; cbn [cout cin cerr invoked instance];
     split; [grows|]; repeat (split; [reflexivity|]);
     eapply occurs_in_chunk with
       (s := "   • Meyer's Singleton (C++11) is thread-safe by default" ++ nl);
     [find_chunk | reflexivity]).
Qed.

Lemma demoAbsent_run (p : Pattern) (w : World) :
  exists w',
    world_of (demoAbsent p w) = Some w' /\
    w' = with_cout (rev (fst (absentDemo p)) ++ cout w) w /\
    (snd (absentDemo p) = None -> demoAbsent p w = Ok tt w') /\
    (forall e, snd (absentDemo p) = Some e -> demoAbsent p w = Throw e w').
Proof.
  unfold demoAbsent, bind. rewrite put_all_run.
  destruct (snd (absentDemo p)) as [e|]; unfold throw, ret; cbn [world_of];
    eexists; (split; [reflexivity|]); (split; [reflexivity|]); split;
    intros; congruence.
Qed.

Lemma demo_of_run (p : Pattern) (w : World) :
  exists chunks w',
    world_of (demo_of p w) = Some w' /\
    cout w' = (chunks ++ cout w)%list /\
    cin w' = cin w /\ cerr w' = cerr w /\ invoked w' = invoked w /\
    (demo_of p w = Ok tt w' /\ (in_sources p = true \/ snd (absentDemo p) = None) \/
     exists e, demo_of p w = Throw e w' /\
               in_sources p = false /\ snd (absentDemo p) = Some e) /\
    (in_sources p = true -> occurs_in (patternName p) (text_of chunks)) /\
    (in_sources p = false -> text_of chunks = join (fst (absentDemo p))).
Proof.
  assert (Habsent : in_sources p = false -> demo_of p = demoAbsent p)
    by (destruct p; (discriminate || reflexivity)).
  destruct (in_sources p) eqn:Hsrc.
  - destruct p; try discriminate; cbn [demo_of patternName].
    + destruct (demoBuilder_run w) as (chunks & E & Hname).
      exists chunks, (with_cout (chunks ++ cout w) w). rewrite E.
      destruct w; cbn. repeat split; auto; discriminate.
    + destruct (demoFactory_run w) as (chunks & E & Hname).
      exists chunks, (with_cout (chunks ++ cout w) w). rewrite E.
      destruct w; cbn. repeat split; auto; discriminate.
    + destruct (demoSingleton_run w)
        as (chunks & w' & E & Hout & Hin & Herr & Hinv & _ & Hname).
      exists chunks, w'. rewrite E. cbn. repeat split; auto; discriminate.
  - rewrite (Habsent eq_refl).
    destruct (demoAbsent_run p w) as (w' & Hw & -> & Hok & Hthrow).
    exists (rev (fst (absentDemo p))), (with_cout (rev (fst (absentDemo p)) ++ cout w) w).
    split; [exact Hw|]. destruct w; cbn.
    repeat split; auto; try discriminate; [|intros _; apply text_of_rev].
    destruct (snd (absentDemo p)) as [e|] eqn:He.
    + right. exists e. auto.
    + left. auto.
Qed.

Lemma pattern_at_range (choice : Z) (p : Pattern) :
  pattern_at choice = Some p -> (1 <= choice <= 15)%Z.
Proof.
  unfold pattern_at. destruct (Z.leb_spec 1 choice) as [H|H]; [|discriminate].
  intros E. assert (Hlt : Z.to_nat (choice - 1) < length patterns)
    by (apply nth_error_Some; congruence).
  cbn in Hlt. lia.
Qed.

Lemma choice_cases (choice : Z) :
  (1 <= choice <= 15)%Z ->
  (choice = 1 \/ choice = 2 \/ choice = 3 \/ choice = 4 \/ choice = 5 \/
   choice = 6 \/ choice = 7 \/ choice = 8 \/ choice = 9 \/ choice = 10 \/
   choice = 11 \/ choice = 12 \/ choice = 13 \/ choice = 14 \/ choice = 15)%Z.
Proof. lia. Qed.

Lemma pattern_at_total (choice : Z) :
  (1 <= choice <= 15)%Z -> exists p, pattern_at choice = Some p.
Proof.
  intros H.
  pose proof (choice_cases _ H) as Hc.
  repeat (destruct Hc as [->|Hc]; [eexists; reflexivity|]).
  subst. eexists. reflexivity.
Qed.

(** The [switch] of [runPatternDemo], case by case. *)
Lemma runPatternDemo_switch (choice : Z) (p : Pattern) :
  pattern_at choice = Some p ->
  runPatternDemo choice =
    (put (nl ++ "🚀 Running demo..." ++ nl ++ nl) ;;
     call p (demo_of p) ;;
     demo_completed).
Proof.
  intros E. pose proof (pattern_at_range _ _ E) as H.
  pose proof (choice_cases _ H) as Hc.
  repeat (destruct Hc as [->|Hc];
    [ injection E as E0; subst p; unfold runPatternDemo;
      cbv beta iota delta [demo_of]; reflexivity |]).
  subst. injection E as E0; subst p. unfold runPatternDemo.
  cbv beta iota delta [demo_of]. reflexivity.
Qed.

(** The [default] label of [runPatternDemo]. *)
Lemma runPatternDemo_default (choice : Z) (w : World) :
  (choice < 1 \/ 15 < choice)%Z ->
  runPatternDemo choice w =
    Ok tt (with_cout (("❌ Invalid pattern selection!" ++ nl)
                      :: (nl ++ "🚀 Running demo..." ++ nl ++ nl) :: cout w) w).
Proof.
  intros H. destruct w as [ci co ce inst k inv].
  destruct choice as [|q|q]; [reflexivity| |reflexivity].
  do 5 (try destruct q as [q|q|]); try reflexivity; lia.
Qed.

(** Reduce the projections of the world, and nothing else. *)
Tactic Notation "fields" :=
  cbn [ cin cout cerr instance constructed invoked
        with_cin with_cout with_cerr with_instance with_constructed with_invoked ].
Tactic Notation "fields" "in" hyp(H) :=
  cbn [ cin cout cerr instance constructed invoked
        with_cin with_cout with_cerr with_instance with_constructed with_invoked ] in H.

Lemma runPatternDemo_run (choice : Z) (p : Pattern) (w : World) :
  pattern_at choice = Some p ->
  exists chunks w',
    world_of (runPatternDemo choice w) = Some w' /\
    cout w' = (chunks ++ cout w)%list /\
    cin w' = cin w /\ cerr w' = cerr w /\
    invoked w' = (invoked w ++ [p])%list /\
    (runPatternDemo choice w = Ok tt w' /\
       (in_sources p = true \/ snd (absentDemo p) = None) \/
     exists e, runPatternDemo choice w = Throw e w' /\
               in_sources p = false /\ snd (absentDemo p) = Some e).
Proof.
  intros E. rewrite (runPatternDemo_switch _ _ E).
  change ((put (nl ++ "🚀 Running demo..." ++ nl ++ nl) ;;
           call p (demo_of p) ;; demo_completed) w)
    with (match demo_of p
                  (with_invoked (invoked w ++ [p])
                     (with_cout ((nl ++ "🚀 Running demo..." ++ nl ++ nl) :: cout w) w))
          with
          | Ok _ w2 => demo_completed w2
          | Throw e w2 => Throw e w2
          | Undefined => Undefined
          end).
  destruct (demo_of_run p
              (with_invoked (invoked w ++ [p])
                 (with_cout ((nl ++ "🚀 Running demo..." ++ nl ++ nl) :: cout w) w)))
    as (chunks & w2 & _ & Hout & Hin & Herr & Hinv & [[Hok Hc]|(e & Hthrow & Hc)] & _);
    fields in Hout; fields in Hin; fields in Herr; fields in Hinv.
  - rewrite Hok. unfold demo_completed, bind, put. cbn [world_of].
    eexists (_ :: _ :: chunks ++ [_])%list. eexists. split; [reflexivity|].
    fields.
    split; [rewrite Hout; cbn [app]; rewrite <- app_assoc; cbn [app]; reflexivity|].
    split; [exact Hin|]. split; [exact Herr|]. split; [exact Hinv|].
    left. split; [reflexivity | exact Hc].
  - rewrite Hthrow. cbn [world_of].
    eexists (chunks ++ [_])%list. exists w2. split; [reflexivity|].
    split; [rewrite Hout, <- app_assoc; cbn [app]; reflexivity|].
    split; [exact Hin|]. split; [exact Herr|]. split; [exact Hinv|].
    right. exists e. tauto'.
Qed.

(* ------------------------------------------------------------------ *)
(** ** The dispatcher *)

(** What a demo prints is part of what the dispatcher printed around
    it. *)
Lemma occurs_in_text_of_between (newer chunks older : list string) :
  occurs_in (text_of chunks) (text_of (newer ++ chunks ++ older)).
Proof.
  rewrite !text_of_app.
  apply occurs_in_app_l, occurs_in_app_r, occurs_in_refl.
Qed.

(** C1. For every selection from 1 to 15 there is one pattern, the one
    the menu shows under that number (1 is Builder, 2 is Factory, 3 is
    Singleton, and so on), and a run of [runPatternDemo] with that
    selection is: its first line, then the run of the demo procedure of
    that pattern, then its two closing lines if the demo returns. That call
    is the only one. What the demo prints is part of what the run prints,
    and it contains the name of the pattern: outright for the three demos of
    the sources, and under [absent_demos_print_their_name] for the demos of
    patterns 4 to 15, which are not part of the sources. *)
Theorem selection_runs_its_demo (choice : Z) :
  (1 <= choice <= 15)%Z ->
  exists p,
    pattern_at choice = Some p /\
    (choice = 1%Z -> p = Builder) /\
    (choice = 2%Z -> p = Factory) /\
    (choice = 3%Z -> p = Singleton) /\
    menu_shows choice p /\
    forall w, exists w1 w2 w' text printed,
      (* where the demo is called: the first line is written *)
      w1 = with_invoked (invoked w ++ [p])
             (with_cout ((nl ++ "🚀 Running demo..." ++ nl ++ nl) :: cout w) w) /\
      (* the demo of [p], run there, prints [text] *)
      world_of (demo_of p w1) = Some w2 /\
      printed_between w1 w2 text /\
      (* the run of the dispatcher is that run and the closing lines *)
      runPatternDemo choice w = (demo_of p ;; demo_completed) w1 /\
      world_of (runPatternDemo choice w) = Some w' /\
      invoked w' = (invoked w ++ [p])%list /\
      printed_between w w' printed /\
      occurs_in text printed /\
      (in_sources p = true ->
         occurs_in (patternName p) text /\ occurs_in (patternName p) printed) /\
      (in_sources p = false -> text = join (fst (absentDemo p))) /\
      (absent_demos_print_their_name ->
         occurs_in (patternName p) text /\ occurs_in (patternName p) printed).
Proof.
  intros Hrange.
  destruct (pattern_at_total _ Hrange) as (p & E).
  exists p. split; [exact E|].
  split; [intros ->; change (Some Builder = Some p) in E; now injection E|].
  split; [intros ->; change (Some Factory = Some p) in E; now injection E|].
  split; [intros ->; change (Some Singleton = Some p) in E; now injection E|].
  split.
  - pose proof (choice_cases _ Hrange) as Hc.
    unfold menu_shows.
    repeat (destruct Hc as [->|Hc];
      [injection E as E0; subst p; eexists; split; [reflexivity|];
       split; [reflexivity | apply contains_occurs_in; reflexivity]|]).
    subst. injection E as E0; subst p. eexists. split; [reflexivity|].
    split; [reflexivity | apply contains_occurs_in; reflexivity].
  - intros w.
    set (w1 := with_invoked (invoked w ++ [p])
                 (with_cout ((nl ++ "🚀 Running demo..." ++ nl ++ nl) :: cout w) w)).
    assert (Hrun : runPatternDemo choice w = (demo_of p ;; demo_completed) w1)
      by (rewrite (runPatternDemo_switch _ _ E); reflexivity).
    assert (Hinv1 : invoked w1 = (invoked w ++ [p])%list) by reflexivity.
    assert (Hout1 : cout w1 = (nl ++ "🚀 Running demo..." ++ nl ++ nl) :: cout w)
      by reflexivity.
    clearbody w1.
    destruct (demo_of_run p w1)
      as (chunks & w2 & Hw & Hout & _ & _ & Hinv & Hcases & Hsrc & Habs).
    assert (Hname : occurs_in (patternName p) (text_of chunks) ->
              forall newer older,
                occurs_in (patternName p) (text_of (newer ++ chunks ++ older)))
      by (intros H newer older;
          exact (occurs_in_trans _ _ _ H (occurs_in_text_of_between _ _ _))).
    assert (Hcontract : absent_demos_print_their_name ->
              occurs_in (patternName p) (text_of chunks)).
    { intros Habsent. destruct (in_sources p) eqn:Hs; [now apply Hsrc|].
      rewrite (Habs eq_refl). now apply Habsent. }
    destruct Hcases as [(Hok & _)|(e & Hthrow & _)].
    + exists w1, w2,
        (with_cout (("✅ Demo completed successfully!" ++ nl)%string
                    :: (nl ++ fill 60 "=" ++ nl)%string :: cout w2) w2),
        (text_of chunks),
        (text_of ([("✅ Demo completed successfully!" ++ nl)%string;
                   (nl ++ fill 60 "=" ++ nl)%string]
                  ++ chunks ++ [(nl ++ "🚀 Running demo..." ++ nl ++ nl)%string])).
      split; [reflexivity|]. split; [exact Hw|].
      split; [exists chunks; split; [exact Hout | reflexivity]|].
      split; [exact Hrun|].
      split; [rewrite Hrun; unfold bind at 1; rewrite Hok; destruct w2; reflexivity|].
      split; [fields; rewrite Hinv; exact Hinv1|].
      split.
      { eexists. split; [|reflexivity]. fields.
        rewrite Hout, Hout1. cbn [app]. rewrite <- List.app_assoc. reflexivity. }
      split; [apply occurs_in_text_of_between|].
      split; [intros Hs; split; [now apply Hsrc | now apply Hname, Hsrc]|].
      split; [exact Habs|].
      intros Habsent. split; [now apply Hcontract | now apply Hname, Hcontract].
    + exists w1, w2, w2, (text_of chunks),
        (text_of ([] ++ chunks ++ [(nl ++ "🚀 Running demo..." ++ nl ++ nl)%string])).
      split; [reflexivity|]. split; [exact Hw|].
      split; [exists chunks; split; [exact Hout | reflexivity]|].
      split; [exact Hrun|].
      split; [rewrite Hrun; unfold bind at 1; rewrite Hthrow; reflexivity|].
      split; [rewrite Hinv; exact Hinv1|].
      split.
      { eexists. split; [|reflexivity].
        rewrite Hout, Hout1. cbn [app]. rewrite <- List.app_assoc. reflexivity. }
      split; [apply occurs_in_text_of_between|].
      split; [intros Hs; split; [now apply Hsrc | now apply Hname, Hsrc]|].
      split; [exact Habs|].
      intros Habsent. split; [now apply Hcontract | now apply Hname, Hcontract].
Qed.

(* ------------------------------------------------------------------ *)
(** ** The input stream *)

Lemma is_suffix_refl (s : string) : is_suffix s s.
Proof. now exists "". Qed.

Lemma is_suffix_trans (a b c : string) :
  is_suffix a b -> is_suffix b c -> is_suffix a c.
Proof.
  intros (d1 & ->) (d2 & ->). exists (d2 ++ d1). now rewrite append_assoc.
Qed.

Lemma is_suffix_tail (c : ascii) (a b : string) :
  is_suffix a b -> is_suffix a (String c b).
Proof. intros (d & ->). now exists (String c d). Qed.

Lemma append_length (a b : string) :
  String.length (a ++ b) = String.length a + String.length b.
Proof. induction a; simpl; auto. Qed.

Lemma is_suffix_length (a b : string) :
  is_suffix a b -> String.length a <= String.length b.
Proof. intros (d & ->). rewrite append_length. lia. Qed.

Lemma skipws_suffix (b : string) : is_suffix (skipws b) b.
Proof.
  induction b as [|c b IH]; cbn [skipws]; [apply is_suffix_refl|].
  destruct (isspace c); [now apply is_suffix_tail | apply is_suffix_refl].
Qed.

Lemma drop_line_suffix (b : string) : is_suffix (fst (drop_line b)) b.
Proof.
  induction b as [|c b IH]; cbn [drop_line]; [apply is_suffix_refl|].
  destruct (is_newline c); cbn [fst].
  - apply is_suffix_tail, is_suffix_refl.
  - now apply is_suffix_tail.
Qed.

Lemma drop_line_shorter (b : string) :
  b <> "" -> String.length (fst (drop_line b)) < String.length b.
Proof.
  destruct b as [|c b]; [easy|]. intros _. cbn [drop_line].
  destruct (is_newline c); cbn [fst String.length]; [lia|].
  pose proof (is_suffix_length _ _ (drop_line_suffix b)). lia.
Qed.

(** On a stream whose flags are clear, [ignore] drops the input up to the
    end of the line. *)
Lemma ignore_line_clear (s : istream) :
  buf (ignore_line (clear s)) = fst (drop_line (buf s)).
Proof.
  unfold ignore_line, sentry, clear, good. cbn.
  now destruct (drop_line (buf s)).
Qed.

Lemma get_suffix (s : istream) : is_suffix (buf (get s)) (buf s).
Proof.
  unfold get, sentry. destruct (good s); cbn.
  - destruct (buf s) as [|c b]; cbn; [apply is_suffix_refl|].
    apply is_suffix_tail, is_suffix_refl.
  - apply is_suffix_refl.
Qed.

Lemma digits_none (b : string) :
  match b with String c _ => isdigit c = false | EmptyString => True end ->
  digits b 0 0 = (0%Z, 0, b).
Proof. destruct b as [|c b]; cbn; [easy|]. now intros ->. Qed.

Lemma is_sign_not_newline (c : ascii) : is_sign c = true -> is_newline c = false.
Proof.
  unfold is_sign, is_newline. intros H.
  apply orb_true_iff in H as [H|H]; apply Nat.eqb_eq in H; now rewrite H.
Qed.

(** The extraction of an [int] from an input that is not a number fails;
    the stream is left at the offending character, or past a lone sign. *)
Lemma extract_int_non_numeric (s : istream) :
  non_numeric_input s ->
  exists s1,
    extract_int s = (None, s1) /\
    is_suffix (buf s1) (skipws (buf s)) /\
    fst (drop_line (buf s1)) = fst (drop_line (skipws (buf s))).
Proof.
  intros (Hgood & Hne & Hnum).
  unfold extract_int, sentry. rewrite Hgood.
  destruct (skipws (buf s)) as [|c b] eqn:Hb; [easy|]. cbn [buf].
  cbn [starts_number] in Hnum.
  destruct (is_sign c) eqn:Hs.
  - rewrite digits_none by (destruct b; auto).
    destruct (is_minus c); cbn; eexists; (split; [reflexivity|]); cbn [buf];
      (split; [apply is_suffix_tail, is_suffix_refl|]);
      cbn [drop_line]; now rewrite (is_sign_not_newline _ Hs).
  - rewrite digits_none by exact Hnum.
    cbn. eexists. split; [reflexivity|]. cbn [buf].
    split; [apply is_suffix_refl | reflexivity].
Qed.

(* ------------------------------------------------------------------ *)
(** ** One turn of the menu loop *)

(** The screens do not depend on the world they are written in. *)
Lemma prompt_run (w : World) :
  prompt w = Ok tt (with_cout (prompt_screen ++ cout w) w).
Proof.
  destruct w as [ci co ce inst k inv].
  unfold prompt_screen, written_by, start, prompt, displayHeader, displayMenu,
    menu_lines.
  run_m. cbn [app]. reflexivity.
Qed.

Lemma displayInterviewTips_run (w : World) :
  displayInterviewTips w = Ok tt (with_cout (tips_screen ++ cout w) w).
Proof.
  destruct w as [ci co ce inst k inv].
  unfold tips_screen, written_by, start, displayInterviewTips, tips, questions.
  run_m. cbn [app]. reflexivity.
Qed.

Lemma farewell_run (w : World) :
  farewell w = Ok tt (with_cout (farewell_screen ++ cout w) w).
Proof.
  destruct w as [ci co ce inst k inv].
  unfold farewell_screen, written_by, start, farewell.
  run_m. cbn [app]. reflexivity.
Qed.

Lemma clearInputBuffer_run (w : World) :
  clearInputBuffer w = Ok tt (with_cin (ignore_line (clear (cin w))) w).
Proof. destruct w. reflexivity. Qed.

Lemma waitForEnter_run (w : World) :
  waitForEnter w =
    Ok tt (with_cin (get (ignore_line (clear (cin w))))
             (with_cout ((nl ++ "Press Enter to continue...") :: cout w) w)).
Proof. destruct w. reflexivity. Qed.

Lemma turn_run (continueChoice : string) (w : World) :
  turn continueChoice w =
    respond continueChoice (fst (extract_int (cin w)))
      (with_cin (snd (extract_int (cin w)))
         (with_cout (prompt_screen ++ cout w) w)).
Proof.
  unfold turn, bind at 1. rewrite prompt_run.
  unfold bind, on_cin. fields.
  now destruct (extract_int (cin w)).
Qed.

Lemma run_from_continue (fuel : nat) (cc cc' : string) (w w' : World) :
  turn cc w = Ok (Continue, cc') w' ->
  run_from (S fuel) cc w = run_from fuel cc' w'.
Proof. intros H. cbn [run_from]. now rewrite H. Qed.

Lemma run_from_break (fuel : nat) (cc cc' : string) (w w' : World) :
  turn cc w = Ok (Break, cc') w' ->
  run_from (S fuel) cc w = Some (Ok tt w').
Proof. intros H. cbn [run_from]. now rewrite H. Qed.

Lemma run_from_throw (fuel : nat) (cc : string) (e : exception) (w w' : World) :
  turn cc w = Throw e w' ->
  run_from (S fuel) cc w = Some (Throw e w').
Proof. intros H. cbn [run_from]. now rewrite H. Qed.

(** The failed extraction: [respond] with no value. *)
Lemma respond_none (cc : string) (w : World) :
  respond cc None w =
    Ok (Continue, cc)
      (with_cin (get (ignore_line (clear (ignore_line (clear (cin w))))))
         (with_cout ((nl ++ "Press Enter to continue...")
                     :: ("❌ Invalid input! Please enter a number between 1-17." ++ nl)
                     :: cout w) w)).
Proof. destruct w. reflexivity. Qed.

Lemma respond_tips (cc : string) (w : World) :
  respond cc (Some 16%Z) w =
    Ok (Continue, cc)
      (with_cin (get (ignore_line (clear (cin w))))
         (with_cout ((nl ++ "Press Enter to continue...") :: tips_screen ++ cout w) w)).
Proof.
  cbn [respond Z.eqb Pos.eqb]. unfold bind at 1.
  rewrite displayInterviewTips_run. unfold bind. rewrite waitForEnter_run.
  destruct w. reflexivity.
Qed.

Lemma respond_exit (cc : string) (w : World) :
  respond cc (Some 17%Z) w =
    Ok (Break, cc) (with_cout (farewell_screen ++ cout w) w).
Proof.
  cbn [respond Z.eqb Pos.eqb]. unfold bind at 1.
  now rewrite farewell_run.
Qed.

Lemma respond_out_of_range (cc : string) (choice : Z) (w : World) :
  (choice < 1 \/ 17 < choice)%Z ->
  respond cc (Some choice) w =
    Ok (Continue, cc)
      (with_cin (get (ignore_line (clear (cin w))))
         (with_cout ((nl ++ "Press Enter to continue...")
                     :: ("❌ Invalid choice! Please select 1-17." ++ nl)
                     :: cout w) w)).
Proof.
  intros H. cbn [respond].
  destruct (Z.eqb_spec choice 16); [lia|].
  destruct (Z.eqb_spec choice 17); [lia|].
  replace (Z.leb 1 choice && Z.leb choice 15) with false
    by (symmetry; apply andb_false_iff; rewrite !Z.leb_gt; lia).
  destruct w. reflexivity.
Qed.

Lemma respond_demo (cc : string) (choice : Z) (w : World) :
  (1 <= choice <= 15)%Z ->
  respond cc (Some choice) w =
    (runPatternDemo choice ;;
     put (nl ++ "🔄 Would you like to explore another pattern? (y/n): ") ;;
     answer <- on_cin extract_string ;;
     let continueChoice := match answer with Some s => s | None => cc end in
     if declines continueChoice
     then farewell ;; ret (Break, continueChoice)
     else ret (Continue, continueChoice)) w.
Proof.
  intros H. cbn [respond].
  destruct (Z.eqb_spec choice 16); [lia|].
  destruct (Z.eqb_spec choice 17); [lia|].
  replace (Z.leb 1 choice && Z.leb choice 15) with true; [reflexivity|].
  symmetry. apply andb_true_iff. rewrite !Z.leb_le. lia.
Qed.

(** C6. Selecting 16 writes the interview tips, which are the same text
    whatever the state, waits for Enter and goes on with the next turn of
    the menu; selecting 17 ends the loop, and no demo is called. *)
Theorem tips_and_exit_selections (cc : string) (w : World) (s1 : istream) :
  (extract_int (cin w) = (Some 16%Z, s1) ->
     exists w',
       turn cc w = Ok (Continue, cc) w' /\
       cout w' = ((nl ++ "Press Enter to continue...")%string
                  :: tips_screen ++ prompt_screen ++ cout w)%list /\
       invoked w' = invoked w /\
       (forall fuel, run_from (S fuel) cc w = run_from fuel cc w')) /\
  (extract_int (cin w) = (Some 17%Z, s1) ->
     exists w',
       turn cc w = Ok (Break, cc) w' /\
       cout w' = (farewell_screen ++ prompt_screen ++ cout w)%list /\
       invoked w' = invoked w /\
       (forall fuel, run_from (S fuel) cc w = Some (Ok tt w'))) /\
  (forall w0,
     displayInterviewTips w0 = Ok tt (with_cout (tips_screen ++ cout w0) w0)) /\
  (forall t, In t tips \/ In t questions -> occurs_in t (text_of tips_screen)).
Proof.
  split; [|split; [|split]].
  - intros H. rewrite turn_run, H. cbn [fst snd]. rewrite respond_tips.
    eexists. split; [reflexivity|]. fields.
    repeat split; auto.
    intros fuel. apply run_from_continue.
    rewrite turn_run, H. cbn [fst snd]. now rewrite respond_tips.
  - intros H. rewrite turn_run, H. cbn [fst snd]. rewrite respond_exit.
    eexists. split; [reflexivity|]. fields.
    repeat split; auto.
    intros fuel. apply run_from_break with (cc' := cc).
    rewrite turn_run, H. cbn [fst snd]. now rewrite respond_exit.
  - exact displayInterviewTips_run.
  - intros t [H|H]; cbn in H;
      repeat (destruct H as [<-|H];
              [apply contains_occurs_in; vm_compute; reflexivity|]);
      contradiction.
Qed.

(** C8. A selection that is an integer outside 1 to 17 makes the turn
    write the invalid-choice message and wait for Enter: no demo is
    called, the singleton and the error stream are as they were, nothing is
    thrown, and the loop goes on with the next turn. The [default] label of
    [runPatternDemo] writes its own message and calls no demo either. *)
Theorem out_of_range_selection (cc : string) (w : World) (choice : Z) (s1 : istream) :
  extract_int (cin w) = (Some choice, s1) ->
  (choice < 1 \/ 17 < choice)%Z ->
  exists w',
    turn cc w = Ok (Continue, cc) w' /\
    cout w' = ((nl ++ "Press Enter to continue...")%string
               :: ("❌ Invalid choice! Please select 1-17." ++ nl)%string
               :: prompt_screen ++ cout w)%list /\
    invoked w' = invoked w /\
    instance w' = instance w /\
    constructed w' = constructed w /\
    cerr w' = cerr w /\
    (forall fuel, run_from (S fuel) cc w = run_from fuel cc w') /\
    runPatternDemo choice w =
      Ok tt (with_cout (("❌ Invalid pattern selection!" ++ nl)
                        :: (nl ++ "🚀 Running demo..." ++ nl ++ nl) :: cout w) w).
Proof.
  intros He Hout.
  assert (Hturn : turn cc w =
            Ok (Continue, cc)
               (with_cin (get (ignore_line (clear s1)))
                  (with_cout ((nl ++ "Press Enter to continue...")%string
                     :: ("❌ Invalid choice! Please select 1-17." ++ nl)%string
                     :: prompt_screen ++ cout w) w))).
  { rewrite turn_run, He. cbn [fst snd]. rewrite respond_out_of_range by exact Hout.
    destruct w. reflexivity. }
  eexists. split; [exact Hturn|]. fields.
  repeat split; auto.
  - intros fuel. now apply run_from_continue.
  - apply runPatternDemo_default. lia.
Qed.

Lemma declines_iff (answer : string) :
  declines answer = false <->
  answer = "y" \/ answer = "Y" \/ answer = "yes" \/ answer = "Yes".
Proof.
  unfold declines.
  destruct (String.eqb_spec answer "y"); [cbn; tauto'|].
  destruct (String.eqb_spec answer "Y"); [cbn; tauto'|].
  destruct (String.eqb_spec answer "yes"); [cbn; tauto'|].
  destruct (String.eqb_spec answer "Yes"); [cbn; tauto'|].
  cbn. split; [discriminate | tauto'].
Qed.

(** A turn on a selection from 1 to 15 whose demo returns. *)
Lemma turn_demo_returns (cc : string) (w : World) (choice : Z) (p : Pattern)
  (s1 s2 : istream) (answer : option string) :
  extract_int (cin w) = (Some choice, s1) ->
  pattern_at choice = Some p ->
  in_sources p = true \/ snd (absentDemo p) = None ->
  extract_string s1 = (answer, s2) ->
  exists w2,
    cin w2 = s1 /\ cerr w2 = cerr w /\ invoked w2 = (invoked w ++ [p])%list /\
    let cc' := match answer with Some s => s | None => cc end in
    turn cc w =
      if declines cc'
      then Ok (Break, cc')
             (with_cout (farewell_screen ++
                (nl ++ "🔄 Would you like to explore another pattern? (y/n): ")%string
                :: cout w2) (with_cin s2 w2))
      else Ok (Continue, cc')
             (with_cout
                ((nl ++ "🔄 Would you like to explore another pattern? (y/n): ")%string
                 :: cout w2) (with_cin s2 w2)).
Proof.
  intros He Hp Hret Hs.
  rewrite turn_run, He. cbn [fst snd].
  rewrite respond_demo by (eapply pattern_at_range; eauto).
  unfold bind at 1.
  destruct (runPatternDemo_run choice p
              (with_cin s1 (with_cout (prompt_screen ++ cout w) w)) Hp)
    as (chunks & w2 & _ & _ & Hin & Herr & Hinv & [[Hok _]|(e & _ & Hsrc & Hthrow)]).
  - rewrite Hok. exists w2. fields in Hin. fields in Herr. fields in Hinv.
    repeat (split; [assumption|]).
    unfold bind at 1, put at 1. unfold bind at 1, on_cin. fields.
    rewrite Hin, Hs. cbv zeta.
    destruct (declines match answer with Some s => s | None => cc end).
    + unfold bind. rewrite farewell_run. destruct w2. reflexivity.
    + destruct w2. reflexivity.
  - destruct Hret as [Hret|Hret]; congruence.
Qed.

(** A turn on a selection whose demo throws. *)
Lemma turn_demo_throws (cc : string) (w : World) (choice : Z) (p : Pattern)
  (s1 : istream) (e : exception) :
  extract_int (cin w) = (Some choice, s1) ->
  pattern_at choice = Some p ->
  in_sources p = false ->
  snd (absentDemo p) = Some e ->
  exists w2,
    turn cc w = Throw e w2 /\
    cerr w2 = cerr w /\ invoked w2 = (invoked w ++ [p])%list.
Proof.
  intros He Hp Hsrc Hthrow.
  rewrite turn_run, He. cbn [fst snd].
  rewrite respond_demo by (eapply pattern_at_range; eauto).
  unfold bind at 1.
  destruct (runPatternDemo_run choice p
              (with_cin s1 (with_cout (prompt_screen ++ cout w) w)) Hp)
    as (chunks & w2 & _ & _ & Hin & Herr & Hinv & [[_ Hc]|(e' & Hrun & _ & He')]).
  - destruct Hc as [Hc|Hc]; congruence.
  - rewrite Hrun. exists w2. fields in Herr. fields in Hinv.
    replace e' with e by congruence. auto.
Qed.

(** C4, as the code has it. After a demo that returns, the turn asks
    whether to go on and reads an answer: the loop goes on with the next
    turn when the answer is one of y, Y, yes and Yes, and ends on every
    other answer. *)
Theorem continue_prompt (cc answer : string) (w : World) (choice : Z)
  (s1 s2 : istream) :
  extract_int (cin w) = (Some choice, s1) ->
  (1 <= choice <= 15)%Z ->
  demo_returns choice ->
  extract_string s1 = (Some answer, s2) ->
  exists p w2,
    pattern_at choice = Some p /\
    invoked w2 = (invoked w ++ [p])%list /\
    (answer = "y" \/ answer = "Y" \/ answer = "yes" \/ answer = "Yes" ->
     exists w',
       turn cc w = Ok (Continue, answer) w' /\
       cout w' =
         (nl ++ "🔄 Would you like to explore another pattern? (y/n): ")
         :: cout w2 /\
       invoked w' = invoked w2 /\
       forall fuel, run_from (S fuel) cc w = run_from fuel answer w') /\
    (~ (answer = "y" \/ answer = "Y" \/ answer = "yes" \/ answer = "Yes") ->
     exists w',
       turn cc w = Ok (Break, answer) w' /\
       cout w' =
         (farewell_screen ++
          (nl ++ "🔄 Would you like to explore another pattern? (y/n): ")%string
          :: cout w2)%list /\
       invoked w' = invoked w2 /\
       forall fuel, run_from (S fuel) cc w = Some (Ok tt w')).
Proof.
  intros He Hrange Hret Hs.
  destruct (pattern_at_total _ Hrange) as (p & Hp).
  destruct (turn_demo_returns cc w choice p s1 s2 (Some answer) He Hp (Hret p Hp) Hs)
    as (w2 & _ & _ & Hinv & Hturn).
  cbv zeta in Hturn.
  exists p, w2. split; [exact Hp|]. split; [exact Hinv|].
  pose proof (declines_iff answer) as Hiff.
  split; intros Hans.
  - apply Hiff in Hans. rewrite Hans in Hturn.
    eexists. split; [exact Hturn|]. fields.
    repeat split; auto. intros fuel. now apply run_from_continue.
  - destruct (declines answer) eqn:Hd; [|tauto'].
    eexists. split; [exact Hturn|]. fields.
    repeat split; auto. intros fuel. now apply run_from_break with (cc' := answer).
Qed.

(* ------------------------------------------------------------------ *)
(** ** The exit status *)

(** C9. [main] returns 0 when the menu loop ends by itself. An exception
    that leaves [run] is caught in [main], which reports it on [std::cerr]
    and returns 1; the exception of [createProcessor] is reported with its
    message, and an exception thrown by a demo does reach [main]: nothing
    between the demo and [main] catches it. *)
Theorem main_exit_status (fuel : nat) (w : World) :
  (forall w', run fuel w = Some (Ok tt w') -> main fuel w = Some (Ok 0%Z w')) /\
  (forall s1,
     extract_int (cin w) = (Some 17%Z, s1) ->
     exists w', main (S fuel) w = Some (Ok 0%Z w') /\ cerr w' = cerr w) /\
  (forall e w',
     run fuel w = Some (Throw e w') ->
     main fuel w =
       Some (Ok 1%Z (with_cerr (("❌ Fatal error: " ++ what e ++ nl) :: cerr w') w'))) /\
  (forall type e,
     createProcessor type = inl e ->
     what e = "Unknown payment processor type: " ++ type) /\
  (forall choice p s1 e,
     extract_int (cin w) = (Some choice, s1) ->
     pattern_at choice = Some p ->
     in_sources p = false ->
     snd (absentDemo p) = Some e ->
     exists w',
       run (S fuel) w = Some (Throw e w') /\
       main (S fuel) w =
         Some (Ok 1%Z (with_cerr (("❌ Fatal error: " ++ what e ++ nl) :: cerr w) w'))).
Proof.
  split; [|split; [|split; [|split]]].
  - intros w' H. unfold main. now rewrite H.
  - intros s1 H.
    assert (Hturn : turn "" w =
              Ok (Break, "")
                 (with_cout (farewell_screen ++ cout (with_cin s1
                      (with_cout (prompt_screen ++ cout w) w)))
                    (with_cin s1 (with_cout (prompt_screen ++ cout w) w))))
      by (rewrite turn_run, H; cbn [fst snd]; apply respond_exit).
    eexists. unfold main, run.
    rewrite (run_from_break fuel _ _ _ _ Hturn). split; reflexivity.
  - intros e w' H. unfold main. now rewrite H.
  - intros type e. unfold createProcessor.
    destruct (String.eqb type "credit_card"); [discriminate|].
    destruct (String.eqb type "paypal"); [discriminate|].
    destruct (String.eqb type "bitcoin"); [discriminate|].
    now intros [= <-].
  - intros choice p s1 e He Hp Hsrc Hthrow.
    destruct (turn_demo_throws "" w choice p s1 e He Hp Hsrc Hthrow)
      as (w' & Hturn & Herr & _).
    exists w'.
    assert (Hrun : run (S fuel) w = Some (Throw e w'))
      by (now apply run_from_throw).
    split; [exact Hrun|].
    unfold main. rewrite Hrun. unfold bind, put_err, ret. now rewrite Herr.
Qed.

(* ------------------------------------------------------------------ *)
(** ** Singleton *)

Lemma ConfigurationManager_new_run (w : World) :
  exists w',
    ConfigurationManager_new w = Ok tt w' /\
    instance w' =
      Some {| appName_ := "MyApp"; version_ := "1.0.0"; debugMode_ := false |} /\
    constructed w' = S (constructed w) /\
    cin w' = cin w /\ cerr w' = cerr w /\ invoked w' = invoked w.
Proof. eexists. split; [reflexivity|]. now destruct w. Qed.

Lemma getInstance_run (w : World) :
  exists w',
    getInstance w = Ok instance_address w' /\
    instance w' <> None /\
    (instance w = None -> constructed w' = S (constructed w)) /\
    (instance w <> None -> w' = w).
Proof.
  unfold getInstance. destruct (instance w) as [c|] eqn:E.
  - exists w. rewrite E. repeat split; auto; easy.
  - destruct (ConfigurationManager_new_run w) as (w' & Hnew & Hinst & Hk & _).
    exists w'. unfold bind, ret. rewrite Hnew.
    repeat split; auto; congruence.
Qed.

Lemma getInstance_times_run (n : nat) (w : World) :
  exists w',
    getInstance_times n w = Ok (repeat instance_address n) w' /\
    (instance w <> None -> w' = w) /\
    (instance w = None -> n = 0 -> w' = w) /\
    (instance w = None -> 0 < n ->
       constructed w' = S (constructed w) /\ instance w' <> None).
Proof.
  revert w. induction n as [|n IH]; intros w.
  - exists w. repeat split; auto; lia.
  - destruct (getInstance_run w) as (w1 & Hget & Hinst & Hfirst & Hlater).
    destruct (IH w1) as (w2 & Hrest & Hsame & _).
    specialize (Hsame Hinst). subst w2.
    exists w1. cbn [getInstance_times repeat]. unfold bind, ret.
    rewrite Hget, Hrest. repeat split; auto; lia.
Qed.

Lemma load_run (w : World) (c : ConfigurationManager) :
  instance w = Some c -> load instance_address w = Ok c w.
Proof. intros H. unfold load. now rewrite N.eqb_refl, H. Qed.

Lemma store_run (w : World) (c c' : ConfigurationManager) :
  instance w = Some c ->
  store instance_address c' w = Ok tt (with_instance (Some c') w).
Proof. intros H. unfold store. now rewrite N.eqb_refl, H. Qed.

(** A write through one reference is read through any other. *)
Lemma setters_visible (w : World) (r1 r2 : address) :
  r1 = instance_address -> r2 = instance_address -> instance w <> None ->
  (forall name, exists w',
     (setAppName r1 name ;; getAppName r2) w = Ok name w') /\
  (forall version, exists w',
     (setVersion r1 version ;; getVersion r2) w = Ok version w') /\
  (forall debug, exists w',
     (setDebugMode r1 debug ;; isDebugMode r2) w = Ok debug w').
Proof.
  intros -> -> H. destruct (instance w) as [c|] eqn:E; [clear H|easy].
  repeat split; intros x; eexists;
    unfold setAppName, getAppName, setVersion, getVersion, setDebugMode,
      isDebugMode, bind, ret;
    rewrite (load_run w c E), (store_run w c _ E);
    (erewrite load_run by (destruct w; reflexivity)); reflexivity.
Qed.

(** *** Concurrent callers *)

Lemma nth_error_set_thread (t t' : nat) (x : thread) (l : list thread) :
  nth_error (set_thread t x l) t' =
    if Nat.eqb t' t
    then match nth_error l t with Some _ => Some x | None => None end
    else nth_error l t'.
Proof.
  revert t t'. induction l as [|y l IH]; intros t t'.
  - destruct t, t'; cbn; try reflexivity. now destruct (Nat.eqb t' t).
  - destruct t as [|t], t' as [|t']; cbn; try reflexivity. apply IH.
Qed.

Lemma length_set_thread (t : nat) (x : thread) (l : list thread) :
  length (set_thread t x l) = length l.
Proof.
  revert t. induction l as [|y l IH]; intros [|t]; cbn; auto.
Qed.

(** Where a thread of the state after an update comes from. *)
Lemma set_thread_cases (t t' : nat) (x th' : thread) (l : list thread) :
  nth_error (set_thread t x l) t' = Some th' ->
  (t' = t /\ th' = x) \/ (t' <> t /\ nth_error l t' = Some th').
Proof.
  rewrite nth_error_set_thread. destruct (Nat.eqb_spec t' t) as [->|Hne].
  - destruct (nth_error l t); [|discriminate]. intros [= <-]. now left.
  - intros H. now right.
Qed.

Lemma guard_invariant_boot (input : string) (calls : list nat) :
  guard_invariant (boot input calls).
Proof.
  assert (H : forall t th, nth_error (threads (boot input calls)) t = Some th ->
                constructing th = false /\ returned th = []).
  { intros t th Hth. cbn in Hth. rewrite nth_error_map in Hth.
    destruct (nth_error calls t); [|discriminate].
    injection Hth as <-. auto. }
  split.
  - intros t th Hth. destruct (H t th Hth) as (Hc & Hr). rewrite Hc, Hr.
    split; [easy | discriminate].
  - cbn [static_guard boot]. repeat split; try reflexivity; now apply (H t th).
Qed.

Lemma guard_invariant_step (t : nat) (s : system) :
  guard_invariant s -> guard_invariant (step t s).
Proof.
  intros (Hall & Hguard). unfold step.
  destruct (nth_error (threads s) t) as [th|] eqn:Hth; [|now split].
  destruct (Hall t th Hth) as (Hrefs & Hpos).
  destruct (constructing th) eqn:Hc.
  - (* the constructor ends *)
    destruct (ConfigurationManager_new_run (world s))
      as (w' & Hnew & Hinst & Hk & _). rewrite Hnew.
    destruct (static_guard s) as [|o|].
    + destruct Hguard as (_ & _ & Hidle). destruct (Hidle t th Hth). congruence.
    + destruct Hguard as (_ & Hzero & _ & Hothers).
      split; cbn [threads static_guard world].
      * intros t' th' H'. apply set_thread_cases in H' as [(-> & ->)|(Hne & H')].
        -- cbn [returned constructing]. split; [|discriminate].
           intros r Hr. apply in_app_or in Hr as [Hr|[<-|[]]]; auto.
        -- now apply (Hall t').
      * split; [congruence|]. split; [lia|].
        intros t' th' H'. apply set_thread_cases in H' as [(-> & ->)|(Hne & H')];
          [reflexivity|].
        destruct (constructing th') eqn:Hc'; [|reflexivity].
        destruct (Hothers t' th' H') as (_ & Ho). specialize (Ho Hc').
        destruct (Hothers t th Hth) as (_ & Ho'). specialize (Ho' Hc). congruence.
    + destruct Hguard as (_ & _ & Hidle). specialize (Hidle t th Hth). congruence.
  - destruct (pending th) as [|k] eqn:Hp; [now split|].
    destruct (static_guard s) as [|o|] eqn:Hg.
    + (* the static is raw: this thread takes the guard *)
      destruct Hguard as (Hnone & Hzero & Hidle).
      split; cbn [threads static_guard world].
      * intros t' th' H'. apply set_thread_cases in H' as [(-> & ->)|(Hne & H')].
        -- cbn [returned constructing pending]. split; [exact Hrefs | lia].
        -- now apply (Hall t').
      * repeat split; auto.
        -- eexists. rewrite nth_error_set_thread, Nat.eqb_refl, Hth.
           split; reflexivity.
        -- apply set_thread_cases in H as [(-> & ->)|(Hne & H')]; cbn [returned].
           ++ now destruct (Hidle t th Hth).
           ++ now destruct (Hidle t0 th0 H').
        -- intros Hc'. apply set_thread_cases in H as [(-> & ->)|(Hne & H')];
             [reflexivity|].
           destruct (Hidle t0 th0 H'). congruence.
    + (* another thread is initialising the static: wait *)
      split; [exact Hall|]. now rewrite Hg.
    + (* the static is initialised *)
      destruct Hguard as (Hsome & Hone & Hidle).
      split; cbn [threads static_guard world].
      * intros t' th' H'. apply set_thread_cases in H' as [(-> & ->)|(Hne & H')].
        -- cbn [returned constructing]. split; [|discriminate].
           intros r Hr. apply in_app_or in Hr as [Hr|[<-|[]]]; auto.
        -- now apply (Hall t').
      * repeat split; auto.
        intros t' th' H'. apply set_thread_cases in H' as [(-> & ->)|(Hne & H')];
          [reflexivity | now apply (Hidle t')].
Qed.

Lemma guard_invariant_exec (schedule : list nat) (s : system) :
  guard_invariant s -> guard_invariant (exec schedule s).
Proof.
  revert s. induction schedule as [|t schedule IH]; intros s H; [exact H|].
  cbn [exec]. now apply IH, guard_invariant_step.
Qed.

Lemma accounted_boot (input : string) (calls : list nat) :
  accounted calls (boot input calls).
Proof.
  split; cbn [threads boot]; [apply length_map|].
  intros t th n Hth Hn. rewrite nth_error_map, Hn in Hth.
  injection Hth as <-. cbn. lia.
Qed.

Lemma accounted_step (calls : list nat) (t : nat) (s : system) :
  guard_invariant s -> accounted calls s -> accounted calls (step t s).
Proof.
  intros (Hall & _) (Hlen & Hacc). unfold step.
  destruct (nth_error (threads s) t) as [th|] eqn:Hth; [|now split].
  destruct (Hall t th Hth) as (_ & Hpos).
  destruct (constructing th) eqn:Hc.
  - destruct (ConfigurationManager_new_run (world s)) as (w' & Hnew & _).
    rewrite Hnew. split; cbn [threads]; [now rewrite length_set_thread|].
    intros t' th' n H' Hn.
    apply set_thread_cases in H' as [(-> & ->)|(Hne & H')]; [|eauto].
    cbn [pending returned]. rewrite length_app. cbn [length].
    specialize (Hacc t th n Hth Hn). specialize (Hpos eq_refl). lia.
  - destruct (pending th) as [|k] eqn:Hp; [now split|].
    destruct (static_guard s); [| now split |];
      (split; cbn [threads]; [now rewrite length_set_thread|]);
      intros t' th' n H' Hn;
      (apply set_thread_cases in H' as [(-> & ->)|(Hne & H')]; [|eauto]);
      cbn [pending returned]; specialize (Hacc t th n Hth Hn);
      rewrite ?length_app; cbn [length]; lia.
Qed.

Lemma reachable_exec (input : string) (calls schedule : list nat) :
  guard_invariant (exec schedule (boot input calls)) /\
  accounted calls (exec schedule (boot input calls)).
Proof.
  assert (H : forall s, guard_invariant s -> accounted calls s ->
                guard_invariant (exec schedule s) /\ accounted calls (exec schedule s)).
  { induction schedule as [|t schedule IH]; intros s Hg Ha; [now split|].
    cbn [exec]. apply IH; [now apply guard_invariant_step | now apply accounted_step]. }
  apply H; [apply guard_invariant_boot | apply accounted_boot].
Qed.

(** While a call is still to make, some thread can take a step. *)
Lemma no_deadlock (s : system) (t : nat) (th : thread) :
  guard_invariant s ->
  nth_error (threads s) t = Some th -> 0 < pending th ->
  exists t', step t' s <> s.
Proof.
  intros (Hall & Hguard) Hth Hp.
  destruct (static_guard s) as [|o|] eqn:Hg.
  - exists t. unfold step. rewrite Hth.
    destruct Hguard as (_ & _ & Hidle). destruct (Hidle t th Hth) as (-> & _).
    destruct (pending th); [lia|]. rewrite Hg.
    intros E. apply (f_equal static_guard) in E. cbn in E. congruence.
  - destruct Hguard as (_ & Hzero & (tho & Ho & Hc) & _).
    exists o. unfold step. rewrite Ho, Hc.
    destruct (ConfigurationManager_new_run (world s)) as (w' & -> & _).
    intros E. apply (f_equal static_guard) in E. cbn in E. congruence.
  - exists t. unfold step. rewrite Hth.
    destruct Hguard as (_ & _ & Hidle). rewrite (Hidle t th Hth).
    destruct (pending th) as [|k] eqn:Hk; [lia|]. rewrite Hg.
    intros E. apply (f_equal threads) in E. cbn [threads] in E.
    apply (f_equal (fun l => nth_error l t)) in E.
    rewrite nth_error_set_thread, Nat.eqb_refl, Hth in E.
    injection E as E. apply (f_equal pending) in E. cbn in E. lia.
Qed.

(** C2. [getInstance] called any number of times runs the constructor at
    most once and returns the same reference every time, and what is
    written through one of the references is read through every other.
    The same holds for threads that call it concurrently, under every
    schedule: the constructor runs at most once, a reference is returned
    only once the object is constructed, all the references returned are
    the same, every call is either pending or has returned, and while a call
    is pending some thread can step. *)
Theorem singleton_is_unique :
  (forall n w, exists refs w',
     getInstance_times n w = Ok refs w' /\
     length refs = n /\
     (forall r1 r2, In r1 refs -> In r2 refs -> r1 = r2) /\
     constructed w <= constructed w' <= S (constructed w) /\
     (instance w <> None -> constructed w' = constructed w) /\
     (forall r1 r2, In r1 refs -> In r2 refs ->
        (forall name, exists w'',
           (setAppName r1 name ;; getAppName r2) w' = Ok name w'') /\
        (forall version, exists w'',
           (setVersion r1 version ;; getVersion r2) w' = Ok version w'') /\
        (forall debug, exists w'',
           (setDebugMode r1 debug ;; isDebugMode r2) w' = Ok debug w''))) /\
  (forall n input, exists refs w',
     getInstance_times n (start input) = Ok refs w' /\ constructed w' <= 1) /\
  (forall input calls schedule,
     let s := exec schedule (boot input calls) in
     constructed (world s) <= 1 /\
     (forall t1 t2 th1 th2 r1 r2,
        nth_error (threads s) t1 = Some th1 ->
        nth_error (threads s) t2 = Some th2 ->
        In r1 (returned th1) -> In r2 (returned th2) ->
        r1 = r2 /\
        instance (world s) <> None /\
        forall name, exists w',
          (setAppName r1 name ;; getAppName r2) (world s) = Ok name w') /\
     (forall t th n,
        nth_error (threads s) t = Some th -> nth_error calls t = Some n ->
        pending th + length (returned th) = n) /\
     (forall t th,
        nth_error (threads s) t = Some th -> 0 < pending th ->
        exists t', step t' s <> s)).
Proof.
  split; [|split].
  - intros n w.
    destruct (getInstance_times_run n w) as (w' & Hrun & Hsame & Hzero & Hfirst).
    exists (repeat instance_address n), w'.
    split; [exact Hrun|]. split; [apply repeat_length|].
    assert (Href : forall r, In r (repeat instance_address n) ->
                     r = instance_address /\ instance w' <> None).
    { intros r Hr. split; [eapply repeat_spec; eauto|].
      destruct (instance w) eqn:E.
      - rewrite Hsame by easy. rewrite E. discriminate.
      - apply Hfirst; [reflexivity|]. destruct n; [contradiction | lia]. }
    split; [|split; [|split]].
    + intros r1 r2 H1 H2. destruct (Href r1 H1), (Href r2 H2). congruence.
    + destruct (instance w) eqn:E.
      * rewrite Hsame by easy. lia.
      * destruct n; [rewrite Hzero by reflexivity; lia|].
        destruct Hfirst as (-> & _); [reflexivity | lia | lia].
    + intros H. now rewrite Hsame.
    + intros r1 r2 H1 H2. destruct (Href r1 H1) as (E1 & Hinst), (Href r2 H2) as (E2 & _).
      now apply setters_visible.
  - intros n input.
    destruct (getInstance_times_run n (start input)) as (w' & Hrun & _ & Hzero & Hfirst).
    exists (repeat instance_address n), w'. split; [exact Hrun|].
    destruct n; [rewrite Hzero by reflexivity; cbn; lia|].
    destruct Hfirst as (-> & _); [reflexivity | lia | cbn; lia].
  - intros input calls schedule s.
    destruct (reachable_exec input calls schedule) as (Hinv & Hacc).
    fold s in Hinv, Hacc. pose proof Hinv as (Hall & Hguard).
    split; [|split; [|split]].
    + destruct (static_guard s); destruct Hguard as (_ & -> & _); lia.
    + intros t1 t2 th1 th2 r1 r2 H1 H2 Hr1 Hr2.
      destruct (Hall t1 th1 H1) as (E1 & _), (Hall t2 th2 H2) as (E2 & _).
      specialize (E1 r1 Hr1). specialize (E2 r2 Hr2).
      assert (Hinst : instance (world s) <> None).
      { destruct (static_guard s) as [|o|].
        - destruct Hguard as (_ & _ & Hidle). destruct (Hidle t1 th1 H1) as (_ & Hnil).
          rewrite Hnil in Hr1. contradiction.
        - destruct Hguard as (_ & _ & _ & Hothers).
          destruct (Hothers t1 th1 H1) as (Hnil & _).
          rewrite Hnil in Hr1. contradiction.
        - now destruct Hguard. }
      split; [congruence|]. split; [exact Hinst|].
      now apply setters_visible.
    + apply Hacc.
    + intros t th Hth Hp. now apply (no_deadlock s t th).
Qed.

(* ------------------------------------------------------------------ *)
(** ** Reading back a number that was printed *)

Lemma digits_stop (rest : string) (acc : Z) (n : nat) :
  ends_number rest = true -> digits rest acc n = (acc, n, rest).
Proof.
  destruct rest as [|c rest]; cbn; [reflexivity|].
  now destruct (isdigit c).
Qed.

Lemma digits_after (d : Decimal.uint) (rest : string) (acc : positive) (n : nat) :
  ends_number rest = true ->
  digits (NilEmpty.string_of_uint d ++ rest) (Z.pos acc) n =
    (Z.pos (Pos.of_uint_acc d acc), n + Decimal.nb_digits d, rest).
Proof.
  intros Hrest. revert acc n.
  induction d as [|d IH|d IH|d IH|d IH|d IH|d IH|d IH|d IH|d IH|d IH];
    intros acc n;
    [ cbn [NilEmpty.string_of_uint append Decimal.nb_digits Pos.of_uint_acc];
      rewrite Nat.add_0_r; now apply digits_stop | .. ];
    cbn [NilEmpty.string_of_uint append Decimal.nb_digits Pos.of_uint_acc digits];
    change (isdigit _) with true; cbv iota;
    match goal with
    | |- context [Z.of_nat ?t] =>
        let k := eval vm_compute in (Z.of_nat t) in change (Z.of_nat t) with k
    end;
    match goal with
    | |- digits _ ?a _ = (Z.pos (Pos.of_uint_acc _ ?b), _, _) =>
        replace a with (Z.pos b) by lia
    end;
    rewrite IH; f_equal; f_equal; lia.
Qed.

Lemma digits_from_zero (d : Decimal.uint) (rest : string) (n : nat) :
  ends_number rest = true ->
  digits (NilEmpty.string_of_uint d ++ rest) 0 n =
    (Z.of_N (Pos.of_uint d), n + Decimal.nb_digits d, rest).
Proof.
  intros Hrest. revert n.
  induction d as [|d IH|d IH|d IH|d IH|d IH|d IH|d IH|d IH|d IH|d IH]; intros n;
    [ cbn [NilEmpty.string_of_uint append Decimal.nb_digits Pos.of_uint];
      rewrite Nat.add_0_r; now apply digits_stop
    | cbn [NilEmpty.string_of_uint append Decimal.nb_digits Pos.of_uint digits];
      change (isdigit _) with true; cbv iota;
      change (10 * 0 + Z.of_nat (nat_of_ascii "0" - 48))%Z with 0%Z;
      rewrite IH; f_equal; f_equal; lia
    | .. ];
    cbn [NilEmpty.string_of_uint append Decimal.nb_digits Pos.of_uint digits];
    change (isdigit _) with true; cbv iota;
    match goal with
    | |- digits _ ?a _ = _ =>
        let a' := eval vm_compute in a in change a with a'
    end;
    rewrite digits_after by exact Hrest; cbn [Z.of_N]; f_equal; f_equal; lia.
Qed.

(** The decimal text of a positive number starts with a digit. *)
Lemma string_of_uint_head (d : Decimal.uint) :
  d <> Decimal.Nil ->
  exists c tail,
    NilEmpty.string_of_uint d = String c tail /\
    isdigit c = true /\ isspace c = false /\ is_sign c = false.
Proof.
  destruct d; [easy|..]; intros _; eexists; eexists;
    (split; [reflexivity|]); repeat split; reflexivity.
Qed.

Lemma skipws_blank (b x : string) :
  blank b = true -> skipws (b ++ x) = skipws x.
Proof.
  induction b as [|c b IH]; cbn [blank append skipws]; [reflexivity|].
  intros H. apply andb_true_iff in H as (-> & H). now apply IH.
Qed.

(** [cin >> choice] on a run of digits, with or without a minus sign,
    after blanks and before something that is no digit. *)
Lemma extract_int_digits (s : istream) (b rest : string) (d : Decimal.uint)
  (negative : bool) :
  good s = true -> blank b = true -> ends_number rest = true ->
  d <> Decimal.Nil ->
  buf s = b ++ (if negative then "-" else "") ++ NilEmpty.string_of_uint d ++ rest ->
  extract_int s =
    (let v := Z.of_N (Pos.of_uint d) in
     let value := if negative then (- v)%Z else v in
     let ok := Z.leb INT_MIN value && Z.leb value INT_MAX in
     (if ok then Some value else None,
      {| buf := rest; eofbit := is_empty rest; failbit := negb ok |})).
Proof.
  intros Hgood Hb Hrest Hnil Hbuf.
  destruct (string_of_uint_head _ Hnil) as (c & tail & Hs & Hd & Hsp & Hsg).
  assert (Hcount : forall n, (n + Decimal.nb_digits d =? 0)%nat = false).
  { intros n. apply Nat.eqb_neq. intros E.
    apply Hnil, DecimalFacts.nb_digits_0. lia. }
  unfold extract_int, sentry. rewrite Hgood, Hbuf, skipws_blank by exact Hb.
  destruct negative.
  - change ("-" ++ NilEmpty.string_of_uint d ++ rest)
      with (String "-" (NilEmpty.string_of_uint d ++ rest)).
    cbn [skipws]. change (isspace "-") with false. cbv iota. cbn [buf].
    change (is_sign "-") with true. change (is_minus "-") with true. cbv iota.
    rewrite digits_from_zero by exact Hrest. rewrite Hcount. reflexivity.
  - change ("" ++ NilEmpty.string_of_uint d ++ rest)
      with (NilEmpty.string_of_uint d ++ rest).
    assert (Hskip : skipws (NilEmpty.string_of_uint d ++ rest) =
                    String c (tail ++ rest))
      by (rewrite Hs; cbn [append skipws]; now rewrite Hsp).
    rewrite Hskip. cbv iota. cbn [buf]. rewrite Hsg.
    change (String c (tail ++ rest)) with (String c tail ++ rest).
    rewrite <- Hs, digits_from_zero by exact Hrest. rewrite Hcount. reflexivity.
Qed.

(** [cin >> choice] on the decimal text of [v]. *)
Lemma extract_int_show_int (s : istream) (b rest : string) (v : Z) :
  good s = true -> blank b = true -> ends_number rest = true ->
  buf s = b ++ show_int v ++ rest ->
  extract_int s =
    (let ok := Z.leb INT_MIN v && Z.leb v INT_MAX in
     (if ok then Some v else None,
      {| buf := rest; eofbit := is_empty rest; failbit := negb ok |})).
Proof.
  intros Hgood Hb Hrest Hbuf.
  assert (Hz : forall p, NilZero.string_of_uint (Pos.to_uint p) =
                         NilEmpty.string_of_uint (Pos.to_uint p)).
  { intros p. pose proof (Unsigned.to_uint_nonnil p).
    now destruct (Pos.to_uint p). }
  unfold show_int in Hbuf. destruct v as [|p|p];
    cbn [Z.to_int NilZero.string_of_int] in Hbuf.
  - rewrite (extract_int_digits s b rest (Decimal.D0 Decimal.Nil) false);
      try assumption; [reflexivity | discriminate].
  - rewrite Hz in Hbuf.
    rewrite (extract_int_digits s b rest (Pos.to_uint p) false);
      try assumption; [|apply Unsigned.to_uint_nonnil].
    now rewrite Unsigned.of_to.
  - rewrite Hz in Hbuf.
    rewrite (extract_int_digits s b rest (Pos.to_uint p) true);
      try assumption; [|apply Unsigned.to_uint_nonnil].
    now rewrite Unsigned.of_to.
Qed.

(* ------------------------------------------------------------------ *)
(** ** What a demo and a turn leave behind *)

Lemma demoSingleton_state (w : World) :
  exists w',
    demoSingleton w = Ok tt w' /\
    constructed w' =
      match instance w with
      | Some _ => constructed w
      | None => S (constructed w)
      end.
Proof.
  destruct w as [ci co ce inst k inv].
  unfold demoSingleton, getInstance, displayConfig, setAppName, setVersion,
    setDebugMode, load, store, ConfigurationManager_new.
  destruct inst as [c|]; run_m; eexists; split; reflexivity.
Qed.

Lemma demo_of_Builder : demo_of Builder = demoBuilder.
Proof. reflexivity. Qed.

Lemma demo_of_Factory : demo_of Factory = demoFactory.
Proof. reflexivity. Qed.

Lemma demo_of_Singleton : demo_of Singleton = demoSingleton.
Proof. reflexivity. Qed.

Lemma demo_of_absent (p : Pattern) :
  in_sources p = false -> demo_of p = demoAbsent p.
Proof. destruct p; intros H; (discriminate H || reflexivity). Qed.

(** A demo returns or throws; it leaves the input, the error stream and
    the record of the calls alone and only adds to the output. Only the
    Singleton demo touches the static of [getInstance]; only a demo that
    is not part of the sources can throw. *)
Lemma demo_of_state (p : Pattern) (w : World) :
  exists w',
    (demo_of p w = Ok tt w' \/
     exists e, demo_of p w = Throw e w' /\
               in_sources p = false /\ snd (absentDemo p) = Some e) /\
    cin w' = cin w /\ cerr w' = cerr w /\ invoked w' = invoked w /\
    (exists chunks, cout w' = (chunks ++ cout w)%list) /\
    (p = Singleton ->
       instance w' <> None /\
       constructed w' =
         match instance w with
         | Some _ => constructed w
         | None => S (constructed w)
         end) /\
    (p <> Singleton ->
       instance w' = instance w /\ constructed w' = constructed w).
Proof.
  assert (Hframe : forall c1,
            cin (with_cout (c1 ++ cout w) w) = cin w /\
            cerr (with_cout (c1 ++ cout w) w) = cerr w /\
            invoked (with_cout (c1 ++ cout w) w) = invoked w /\
            (exists chunks, cout (with_cout (c1 ++ cout w) w) = (chunks ++ cout w)%list) /\
            instance (with_cout (c1 ++ cout w) w) = instance w /\
            constructed (with_cout (c1 ++ cout w) w) = constructed w).
  { intros c1. repeat (split; [reflexivity|]).
    split; [exists c1; reflexivity|]. split; reflexivity. }
  destruct (in_sources p) eqn:Hsrc.
  - destruct p; try discriminate Hsrc.
    + rewrite demo_of_Builder. destruct (demoBuilder_run w) as (c1 & E1 & _).
      rewrite E1. eexists. split; [left; reflexivity|].
      destruct (Hframe c1) as (H1 & H2 & H3 & H4 & H5 & H6).
      repeat (split; [assumption|]).
      split; [intros E; discriminate E | intros _; split; assumption].
    + rewrite demo_of_Factory. destruct (demoFactory_run w) as (c1 & E1 & _).
      rewrite E1. eexists. split; [left; reflexivity|].
      destruct (Hframe c1) as (H1 & H2 & H3 & H4 & H5 & H6).
      repeat (split; [assumption|]).
      split; [intros E; discriminate E | intros _; split; assumption].
    + rewrite demo_of_Singleton.
      destruct (demoSingleton_run w)
        as (c1 & w1 & E1 & Hout & Hin & Herr & Hinv & Hi & _).
      destruct (demoSingleton_state w) as (w2 & E2 & Hk).
      rewrite E1 in E2. injection E2 as E2. subst w2.
      rewrite E1. exists w1. split; [left; reflexivity|].
      repeat (split; [assumption|]).
      split; [exists c1; exact Hout|].
      split; [intros _; split; [rewrite Hi; intros E; discriminate E | exact Hk]
             | intros E; contradiction E; reflexivity].
  - rewrite (demo_of_absent p Hsrc).
    destruct (demoAbsent_run p w) as (w1 & _ & E1 & Hok & Hthrow).
    exists w1. split.
    + destruct (snd (absentDemo p)) as [e|] eqn:He.
      * right. exists e. split; [now apply Hthrow|]. split; reflexivity.
      * left. now apply Hok.
    + rewrite E1.
      destruct (Hframe (rev (fst (absentDemo p)))) as (H1 & H2 & H3 & H4 & H5 & H6).
      repeat (split; [assumption|]).
      split; [intros E; rewrite E in Hsrc; discriminate Hsrc
             | intros _; split; assumption].
Qed.

(** [runPatternDemo] on a selection that has a demo, through that demo. *)
Lemma runPatternDemo_through (choice : Z) (p : Pattern) (w : World) :
  pattern_at choice = Some p ->
  runPatternDemo choice w =
    match demo_of p
            (with_invoked (invoked w ++ [p])
               (with_cout ((nl ++ "🚀 Running demo..." ++ nl ++ nl) :: cout w) w))
    with
    | Ok _ w2 =>
        Ok tt (with_cout (("✅ Demo completed successfully!" ++ nl)
                          :: (nl ++ fill 60 "=" ++ nl) :: cout w2) w2)
    | Throw e w2 => Throw e w2
    | Undefined => Undefined
    end.
Proof.
  intros E. rewrite (runPatternDemo_switch _ _ E).
  unfold bind at 1. unfold put at 1. unfold bind at 1. unfold call.
  unfold bind at 1. fields.
  destruct (demo_of p _) as [[] w2|e w2|]; [|reflexivity|reflexivity].
  destruct w2. reflexivity.
Qed.

(* ------------------------------------------------------------------ *)
(** ** The input stream only ever shrinks *)

Lemma digits_consumed (b : string) (acc : Z) (n : nat) :
  let '(_, count, rest) := digits b acc n in
  String.length b = String.length rest + (count - n) /\
  n <= count /\ is_suffix rest b.
Proof.
  revert acc n. induction b as [|c b IH]; intros acc n; cbn [digits].
  - split; [cbn; lia|]. split; [lia | apply is_suffix_refl].
  - destruct (isdigit c).
    + specialize (IH (10 * acc + Z.of_nat (nat_of_ascii c - 48))%Z (S n)).
      destruct (digits b _ (S n)) as [[v count] rest].
      destruct IH as (Hlen & Hle & Hsuf).
      split; [cbn [String.length]; lia|].
      split; [lia | now apply is_suffix_tail].
    + split; [cbn; lia|]. split; [lia | apply is_suffix_refl].
Qed.

Lemma sentry_suffix (skip : bool) (s : istream) :
  is_suffix (buf (snd (sentry skip s))) (buf s).
Proof.
  unfold sentry. destruct (good s); [|apply is_suffix_refl].
  destruct skip; [|apply is_suffix_refl].
  pose proof (skipws_suffix (buf s)) as H.
  destruct (skipws (buf s)); exact H.
Qed.

Lemma extract_int_suffix (s : istream) :
  is_suffix (buf (snd (extract_int s))) (buf s).
Proof.
  unfold extract_int. pose proof (sentry_suffix true s) as Hs.
  destruct (sentry true s) as [[|] s1]; cbn [snd] in Hs; [|exact Hs].
  destruct (buf s1) as [|c b] eqn:Hb.
  - cbn [digits snd buf]. exact Hs.
  - destruct (is_sign c).
    + pose proof (digits_consumed b 0 0) as Hd.
      destruct (digits b 0 0) as [[v count] rest]. destruct Hd as (_ & _ & Hd).
      cbn [snd buf]. eapply is_suffix_trans; [|exact Hs].
      now apply is_suffix_tail.
    + pose proof (digits_consumed (String c b) 0 0) as Hd.
      destruct (digits (String c b) 0 0) as [[v count] rest].
      destruct Hd as (_ & _ & Hd).
      cbn [snd buf]. eapply is_suffix_trans; [exact Hd | exact Hs].
Qed.

(** A successful extraction consumes at least one character and yields
    a value of the type. *)
Lemma extract_int_progress (s : istream) (v : Z) :
  fst (extract_int s) = Some v ->
  String.length (buf (snd (extract_int s))) < String.length (buf s) /\
  (INT_MIN <= v <= INT_MAX)%Z /\
  failbit (snd (extract_int s)) = false.
Proof.
  unfold extract_int. pose proof (sentry_suffix true s) as Hs.
  destruct (sentry true s) as [[|] s1]; cbn [snd] in Hs; [|discriminate].
  apply is_suffix_length in Hs.
  assert (Hfinish : forall (negative : bool) b0,
            String.length b0 <= String.length (buf s1) ->
            forall v0 count rest, digits b0 0 0 = (v0, count, rest) ->
            fst (let value := if negative then (- v0)%Z else v0 in
                 let ok := negb (count =? 0)%nat && (INT_MIN <=? value)%Z &&
                           (value <=? INT_MAX)%Z in
                 (if ok then Some value else None,
                  {| buf := rest; eofbit := is_empty rest; failbit := negb ok |}))
              = Some v ->
            String.length rest < String.length (buf s) /\
            (INT_MIN <= v <= INT_MAX)%Z /\
            negb (negb (count =? 0)%nat &&
                  (INT_MIN <=? (if negative then - v0 else v0))%Z &&
                  ((if negative then - v0 else v0) <=? INT_MAX)%Z) = false).
  { intros negative b0 Hb0 v0 count rest Hd. cbv zeta. cbn [fst].
    pose proof (digits_consumed b0 0 0) as Hc. rewrite Hd in Hc.
    destruct Hc as (Hlen & _ & _).
    destruct (negb (count =? 0)%nat) eqn:Hcount; [|discriminate].
    destruct (Z.leb_spec INT_MIN (if negative then (- v0)%Z else v0));
      [|discriminate].
    destruct (Z.leb_spec (if negative then (- v0)%Z else v0) INT_MAX);
      [|discriminate].
    cbn [andb negb]. intros [= <-].
    apply negb_true_iff, Nat.eqb_neq in Hcount.
    split; [lia|]. split; [lia | reflexivity]. }
  destruct (buf s1) as [|c b] eqn:Hb.
  - cbn [digits]. cbn. discriminate.
  - destruct (is_sign c).
    + destruct (digits b 0 0) as [[v0 count] rest] eqn:Hd.
      intros H. cbn [snd buf failbit].
      refine (Hfinish (is_minus c) b _ v0 count rest Hd H).
      cbn [String.length]. lia.
    + destruct (digits (String c b) 0 0) as [[v0 count] rest] eqn:Hd.
      intros H. cbn [snd buf failbit].
      refine (Hfinish false (String c b) _ v0 count rest Hd H). lia.
Qed.

Lemma token_suffix (b : string) : is_suffix (snd (token b)) b.
Proof.
  induction b as [|c b IH]; cbn [token]; [apply is_suffix_refl|].
  destruct (isspace c); [apply is_suffix_refl|].
  destruct (token b) as [t r]. cbn [snd] in *. now apply is_suffix_tail.
Qed.

Lemma extract_string_suffix (s : istream) :
  is_suffix (buf (snd (extract_string s))) (buf s).
Proof.
  unfold extract_string. pose proof (sentry_suffix true s) as Hs.
  destruct (sentry true s) as [[|] s1]; cbn [snd] in Hs; [|exact Hs].
  pose proof (token_suffix (buf s1)) as Ht.
  destruct (token (buf s1)) as [t r]. cbn [snd buf] in *.
  eapply is_suffix_trans; eauto.
Qed.

Lemma ignore_line_suffix (s : istream) :
  is_suffix (buf (ignore_line s)) (buf s).
Proof.
  unfold ignore_line, sentry. destruct (good s); [|apply is_suffix_refl].
  pose proof (drop_line_suffix (buf s)) as H.
  destruct (drop_line (buf s)) as [rest found]. exact H.
Qed.

(** What [waitForEnter] leaves of the input. *)
Lemma waitForEnter_suffix (s : istream) :
  is_suffix (buf (get (ignore_line (clear s)))) (buf s).
Proof.
  eapply is_suffix_trans; [apply get_suffix|].
  rewrite ignore_line_clear. apply drop_line_suffix.
Qed.

(** After a failed extraction on an input that is not empty, the two
    calls of [clearInputBuffer] and the [get] leave strictly less. *)
Lemma rejected_input_shrinks (s s1 : istream) :
  is_suffix (buf s1) (buf s) -> buf s <> "" ->
  String.length (buf (get (ignore_line (clear (ignore_line (clear s1))))))
    < String.length (buf s).
Proof.
  intros Hsuf Hne.
  pose proof (is_suffix_length _ _ (waitForEnter_suffix (ignore_line (clear s1)))) as H1.
  rewrite ignore_line_clear in H1.
  apply is_suffix_length in Hsuf.
  destruct (buf s1) as [|c b] eqn:Hb.
  - cbn [drop_line fst String.length] in H1.
    destruct (buf s); [contradiction|]. cbn [String.length]. lia.
  - assert (H2 : String.length (fst (drop_line (String c b))) < String.length (String c b))
      by (apply drop_line_shorter; discriminate).
    lia.
Qed.

(** The fields of an updated world, as rewriting rules. *)
Lemma cin_with_cin (x : istream) (w : World) :
  cin (with_cin x w) = x.
Proof. reflexivity. Qed.

Lemma cout_with_cin (x : istream) (w : World) :
  cout (with_cin x w) = cout w.
Proof. reflexivity. Qed.

Lemma cerr_with_cin (x : istream) (w : World) :
  cerr (with_cin x w) = cerr w.
Proof. reflexivity. Qed.

Lemma instance_with_cin (x : istream) (w : World) :
  instance (with_cin x w) = instance w.
Proof. reflexivity. Qed.

Lemma constructed_with_cin (x : istream) (w : World) :
  constructed (with_cin x w) = constructed w.
Proof. reflexivity. Qed.

Lemma invoked_with_cin (x : istream) (w : World) :
  invoked (with_cin x w) = invoked w.
Proof. reflexivity. Qed.

Lemma cin_with_cout (x : list string) (w : World) :
  cin (with_cout x w) = cin w.
Proof. reflexivity. Qed.

Lemma cout_with_cout (x : list string) (w : World) :
  cout (with_cout x w) = x.
Proof. reflexivity. Qed.

Lemma cerr_with_cout (x : list string) (w : World) :
  cerr (with_cout x w) = cerr w.
Proof. reflexivity. Qed.

Lemma instance_with_cout (x : list string) (w : World) :
  instance (with_cout x w) = instance w.
Proof. reflexivity. Qed.

Lemma constructed_with_cout (x : list string) (w : World) :
  constructed (with_cout x w) = constructed w.
Proof. reflexivity. Qed.

Lemma invoked_with_cout (x : list string) (w : World) :
  invoked (with_cout x w) = invoked w.
Proof. reflexivity. Qed.

Lemma cin_with_cerr (x : list string) (w : World) :
  cin (with_cerr x w) = cin w.
Proof. reflexivity. Qed.

Lemma cout_with_cerr (x : list string) (w : World) :
  cout (with_cerr x w) = cout w.
Proof. reflexivity. Qed.

Lemma cerr_with_cerr (x : list string) (w : World) :
  cerr (with_cerr x w) = x.
Proof. reflexivity. Qed.

Lemma instance_with_cerr (x : list string) (w : World) :
  instance (with_cerr x w) = instance w.
Proof. reflexivity. Qed.

Lemma constructed_with_cerr (x : list string) (w : World) :
  constructed (with_cerr x w) = constructed w.
Proof. reflexivity. Qed.

Lemma invoked_with_cerr (x : list string) (w : World) :
  invoked (with_cerr x w) = invoked w.
Proof. reflexivity. Qed.

Lemma cin_with_instance (x : option ConfigurationManager) (w : World) :
  cin (with_instance x w) = cin w.
Proof. reflexivity. Qed.

Lemma cout_with_instance (x : option ConfigurationManager) (w : World) :
  cout (with_instance x w) = cout w.
Proof. reflexivity. Qed.

Lemma cerr_with_instance (x : option ConfigurationManager) (w : World) :
  cerr (with_instance x w) = cerr w.
Proof. reflexivity. Qed.

Lemma instance_with_instance (x : option ConfigurationManager) (w : World) :
  instance (with_instance x w) = x.
Proof. reflexivity. Qed.

Lemma constructed_with_instance (x : option ConfigurationManager) (w : World) :
  constructed (with_instance x w) = constructed w.
Proof. reflexivity. Qed.

Lemma invoked_with_instance (x : option ConfigurationManager) (w : World) :
  invoked (with_instance x w) = invoked w.
Proof. reflexivity. Qed.

Lemma cin_with_constructed (x : nat) (w : World) :
  cin (with_constructed x w) = cin w.
Proof. reflexivity. Qed.

Lemma cout_with_constructed (x : nat) (w : World) :
  cout (with_constructed x w) = cout w.
Proof. reflexivity. Qed.

Lemma cerr_with_constructed (x : nat) (w : World) :
  cerr (with_constructed x w) = cerr w.
Proof. reflexivity. Qed.

Lemma instance_with_constructed (x : nat) (w : World) :
  instance (with_constructed x w) = instance w.
Proof. reflexivity. Qed.

Lemma constructed_with_constructed (x : nat) (w : World) :
  constructed (with_constructed x w) = x.
Proof. reflexivity. Qed.

Lemma invoked_with_constructed (x : nat) (w : World) :
  invoked (with_constructed x w) = invoked w.
Proof. reflexivity. Qed.

Lemma cin_with_invoked (x : list Pattern) (w : World) :
  cin (with_invoked x w) = cin w.
Proof. reflexivity. Qed.

Lemma cout_with_invoked (x : list Pattern) (w : World) :
  cout (with_invoked x w) = cout w.
Proof. reflexivity. Qed.

Lemma cerr_with_invoked (x : list Pattern) (w : World) :
  cerr (with_invoked x w) = cerr w.
Proof. reflexivity. Qed.

Lemma instance_with_invoked (x : list Pattern) (w : World) :
  instance (with_invoked x w) = instance w.
Proof. reflexivity. Qed.

Lemma constructed_with_invoked (x : list Pattern) (w : World) :
  constructed (with_invoked x w) = constructed w.
Proof. reflexivity. Qed.

Lemma invoked_with_invoked (x : list Pattern) (w : World) :
  invoked (with_invoked x w) = x.
Proof. reflexivity. Qed.

Create Rewrite HintDb world_fields.
#[local] Hint Rewrite
  cin_with_cin cout_with_cin cerr_with_cin instance_with_cin
  constructed_with_cin invoked_with_cin cin_with_cout cout_with_cout
  cerr_with_cout instance_with_cout constructed_with_cout invoked_with_cout
  cin_with_cerr cout_with_cerr cerr_with_cerr instance_with_cerr
  constructed_with_cerr invoked_with_cerr cin_with_instance cout_with_instance
  cerr_with_instance instance_with_instance constructed_with_instance invoked_with_instance
  cin_with_constructed cout_with_constructed cerr_with_constructed instance_with_constructed
  constructed_with_constructed invoked_with_constructed cin_with_invoked cout_with_invoked
  cerr_with_invoked instance_with_invoked constructed_with_invoked invoked_with_invoked
  : world_fields.

(** The later update of a field wins. *)
Lemma with_cin_cout_twice (a c : istream) (b d : list string) (w : World) :
  with_cin a (with_cout b (with_cin c (with_cout d w))) = with_cin a (with_cout b w).
Proof. reflexivity. Qed.

Lemma with_cout_over_cin (c : istream) (b d : list string) (w : World) :
  with_cout b (with_cin c (with_cout d w)) = with_cin c (with_cout b w).
Proof. reflexivity. Qed.

(** A stream that holds [older] and what was written after it. *)
Lemma extends_refl {A} (older : list A) :
  exists newer, older = (newer ++ older)%list.
Proof. now exists []. Qed.

Lemma extends_cons {A} (x : A) (l older : list A) :
  (exists newer, l = (newer ++ older)%list) ->
  exists newer, (x :: l = newer ++ older)%list.
Proof. intros (n & ->). now exists (x :: n). Qed.

Lemma extends_app {A} (front l older : list A) :
  (exists newer, l = (newer ++ older)%list) ->
  exists newer, (front ++ l = newer ++ older)%list.
Proof. intros (n & ->). exists (front ++ n)%list. apply app_assoc. Qed.

(** [respond] on a selection that has a demo, through that demo. *)
Lemma respond_demo_through (cc : string) (choice : Z) (p : Pattern) (w : World) :
  pattern_at choice = Some p ->
  respond cc (Some choice) w =
    match demo_of p
            (with_invoked (invoked w ++ [p])
               (with_cout ((nl ++ "🚀 Running demo..." ++ nl ++ nl) :: cout w) w))
    with
    | Ok _ w2 =>
        let w3 :=
          with_cin (snd (extract_string (cin w2)))
            (with_cout
               ((nl ++ "🔄 Would you like to explore another pattern? (y/n): ")
                :: ("✅ Demo completed successfully!" ++ nl)
                :: (nl ++ fill 60 "=" ++ nl) :: cout w2) w2) in
        let cc' :=
          match fst (extract_string (cin w2)) with
          | Some s => s
          | None => cc
          end in
        if declines cc'
        then Ok (Break, cc') (with_cout (farewell_screen ++ cout w3) w3)
        else Ok (Continue, cc') w3
    | Throw e w2 => Throw e w2
    | Undefined => Undefined
    end.
Proof.
  intros E. rewrite respond_demo by (eapply pattern_at_range; exact E).
  unfold bind at 1. rewrite (runPatternDemo_through _ _ _ E).
  destruct (demo_of p _) as [[] w2|e w2|]; [|reflexivity|reflexivity].
  unfold bind at 1, put at 1. unfold bind at 1, on_cin. fields.
  destruct (extract_string (cin w2)) as [answer s2]. cbn [fst snd]. cbv zeta.
  destruct (declines match answer with Some s => s | None => cc end).
  - unfold bind. rewrite farewell_run. destruct w2. reflexivity.
  - destruct w2. reflexivity.
Qed.

(** A turn that calls no demo. *)
Lemma turn_effect_plain (cc : string) (w : World) (extracted : option Z)
  (s1 s' : istream) (next : flow) (newer : list string) :
  is_suffix (buf s') (buf (cin w)) ->
  (next = Continue -> buf (cin w) <> "" ->
   String.length (buf s') < String.length (buf (cin w))) ->
  (next = Break ->
   exists rest, (newer ++ prompt_screen ++ cout w)%list = (farewell_screen ++ rest)%list) ->
  respond cc extracted (with_cin s1 (with_cout (prompt_screen ++ cout w) w)) =
    Ok (next, cc) (with_cin s' (with_cout (newer ++ prompt_screen ++ cout w) w)) ->
  exists w',
    world_of (respond cc extracted (with_cin s1 (with_cout (prompt_screen ++ cout w) w))) = Some w' /\
    cerr w' = cerr w /\
    (exists newer, cout w' = (newer ++ prompt_screen ++ cout w)%list) /\
    is_suffix (buf (cin w')) (buf (cin w)) /\
    (forall cc', (respond cc extracted (with_cin s1 (with_cout (prompt_screen ++ cout w) w))) = Ok (Continue, cc') w' ->
       buf (cin w) <> "" ->
       String.length (buf (cin w')) < String.length (buf (cin w))) /\
    (forall cc', (respond cc extracted (with_cin s1 (with_cout (prompt_screen ++ cout w) w))) = Ok (Break, cc') w' ->
       exists rest, cout w' = (farewell_screen ++ rest)%list) /\
    (forall e, (respond cc extracted (with_cin s1 (with_cout (prompt_screen ++ cout w) w))) = Throw e w' ->
       exists p, in_sources p = false /\ snd (absentDemo p) = Some e) /\
    ((invoked w' = invoked w /\
      instance w' = instance w /\ constructed w' = constructed w) \/
     (exists choice p,
        extracted = Some choice /\
        pattern_at choice = Some p /\
        invoked w' = (invoked w ++ [p])%list /\
        (p = Singleton ->
           instance w' <> None /\
           constructed w' =
             match instance w with
             | Some _ => constructed w
             | None => S (constructed w)
             end) /\
        (p <> Singleton ->
           instance w' = instance w /\ constructed w' = constructed w))).
Proof.
  intros Hs Hc Hb E. rewrite E. eexists.
  split; [reflexivity|]. fields.
  split; [reflexivity|]. split; [exists newer; reflexivity|].
  split; [exact Hs|].
  split; [intros cc' [= -> _]; now apply Hc|].
  split; [intros cc' [= -> _]; now apply Hb|].
  split; [intros e [=]|]. left. repeat split.
Qed.

(** A turn that calls a demo. *)
Lemma turn_effect_demo (cc : string) (w : World) (choice : Z) (p : Pattern)
  (s1 : istream) :
  let extracted := Some choice in
  pattern_at choice = Some p ->
  is_suffix (buf s1) (buf (cin w)) ->
  String.length (buf s1) < String.length (buf (cin w)) ->
  exists w',
    world_of (respond cc extracted (with_cin s1 (with_cout (prompt_screen ++ cout w) w))) = Some w' /\
    cerr w' = cerr w /\
    (exists newer, cout w' = (newer ++ prompt_screen ++ cout w)%list) /\
    is_suffix (buf (cin w')) (buf (cin w)) /\
    (forall cc', (respond cc extracted (with_cin s1 (with_cout (prompt_screen ++ cout w) w))) = Ok (Continue, cc') w' ->
       buf (cin w) <> "" ->
       String.length (buf (cin w')) < String.length (buf (cin w))) /\
    (forall cc', (respond cc extracted (with_cin s1 (with_cout (prompt_screen ++ cout w) w))) = Ok (Break, cc') w' ->
       exists rest, cout w' = (farewell_screen ++ rest)%list) /\
    (forall e, (respond cc extracted (with_cin s1 (with_cout (prompt_screen ++ cout w) w))) = Throw e w' ->
       exists p, in_sources p = false /\ snd (absentDemo p) = Some e) /\
    ((invoked w' = invoked w /\
      instance w' = instance w /\ constructed w' = constructed w) \/
     (exists choice p,
        extracted = Some choice /\
        pattern_at choice = Some p /\
        invoked w' = (invoked w ++ [p])%list /\
        (p = Singleton ->
           instance w' <> None /\
           constructed w' =
             match instance w with
             | Some _ => constructed w
             | None => S (constructed w)
             end) /\
        (p <> Singleton ->
           instance w' = instance w /\ constructed w' = constructed w))).
Proof.
  intros extracted Hp Hsuf Hlt. subst extracted.
  rewrite (respond_demo_through _ _ _ _ Hp).
  match goal with
  | |- context [demo_of p ?x] =>
      destruct (demo_of_state p x)
        as (w2 & Hres & Hin & Herr & Hinv & (chunks & Hout) & Hsing & Hother)
  end.
  autorewrite with world_fields in Hin, Herr, Hinv, Hout, Hsing, Hother.
  assert (Hcalled : forall w',
            cerr w' = cerr w2 -> invoked w' = invoked w2 ->
            instance w' = instance w2 -> constructed w' = constructed w2 ->
            cerr w' = cerr w /\
            exists choice0 p0,
              Some choice = Some choice0 /\ pattern_at choice0 = Some p0 /\
              invoked w' = (invoked w ++ [p0])%list /\
              (p0 = Singleton ->
                 instance w' <> None /\
                 constructed w' =
                   match instance w with
                   | Some _ => constructed w
                   | None => S (constructed w)
                   end) /\
              (p0 <> Singleton ->
                 instance w' = instance w /\ constructed w' = constructed w)).
  { intros w' H1 H2 H3 H4. split; [congruence|].
    exists choice, p. rewrite H2, H3, H4.
    repeat (split; [assumption || reflexivity|]). assumption. }
  destruct Hres as [Hok|(e & Hthrow & Hsrc & He)].
  - rewrite Hok. cbv zeta. rewrite Hin.
    pose proof (extract_string_suffix s1) as Hs2.
    destruct (extract_string s1) as [answer s2]. cbn [fst snd] in *.
    assert (Hshort : String.length (buf s2) < String.length (buf (cin w)))
      by (apply is_suffix_length in Hs2; lia).
    assert (Hsuf2 : is_suffix (buf s2) (buf (cin w)))
      by (eapply is_suffix_trans; eauto).
    destruct (declines match answer with Some s => s | None => cc end);
      eexists; (split; [reflexivity|]); fields;
      (edestruct Hcalled as (Hc1 & Hc2);
       [| | | | split; [exact Hc1|]]; try reflexivity).
    + split.
      { rewrite Hout. apply extends_app. do 3 apply extends_cons.
        apply extends_app, extends_cons, extends_refl. }
      split; [exact Hsuf2|].
      split; [intros cc' E; discriminate E|].
      split; [intros cc' _; eexists; reflexivity|].
      split; [intros e E; discriminate E|]. right. exact Hc2.
    + split.
      { rewrite Hout. do 3 apply extends_cons.
        apply extends_app, extends_cons, extends_refl. }
      split; [exact Hsuf2|].
      split; [intros cc' _ _; exact Hshort|].
      split; [intros cc' E; discriminate E|].
      split; [intros e E; discriminate E|]. right. exact Hc2.
  - rewrite Hthrow. exists w2. split; [reflexivity|].
    destruct (Hcalled w2 eq_refl eq_refl eq_refl eq_refl) as (Hc1 & Hc2).
    split; [exact Hc1|].
    split; [rewrite Hout; apply extends_app, extends_cons, extends_refl|].
    split; [rewrite Hin; exact Hsuf|].
    split; [intros cc' E; discriminate E|].
    split; [intros cc' E; discriminate E|].
    split; [intros e' [= <-]; exists p; split; assumption|].
    right. exact Hc2.
Qed.

(** Everything a turn can do, in one statement: it returns or throws;
    the error stream is untouched; the output grows, by the menu first;
    the input shrinks; a turn that goes on has consumed input unless there
    was none; a turn that ends the loop has written the farewell last; an
    exception comes from a demo outside the sources; at most one demo is
    called, for a selection of the menu, and only the Singleton demo
    touches the static. *)
Lemma turn_effect (cc : string) (w : World) :
  exists w',
    world_of (turn cc w) = Some w' /\
    cerr w' = cerr w /\
    (exists newer, cout w' = (newer ++ prompt_screen ++ cout w)%list) /\
    is_suffix (buf (cin w')) (buf (cin w)) /\
    (forall cc', turn cc w = Ok (Continue, cc') w' ->
       buf (cin w) <> "" ->
       String.length (buf (cin w')) < String.length (buf (cin w))) /\
    (forall cc', turn cc w = Ok (Break, cc') w' ->
       exists rest, cout w' = (farewell_screen ++ rest)%list) /\
    (forall e, turn cc w = Throw e w' ->
       exists p, in_sources p = false /\ snd (absentDemo p) = Some e) /\
    ((invoked w' = invoked w /\
      instance w' = instance w /\ constructed w' = constructed w) \/
     (exists choice p,
        fst (extract_int (cin w)) = Some choice /\
        pattern_at choice = Some p /\
        invoked w' = (invoked w ++ [p])%list /\
        (p = Singleton ->
           instance w' <> None /\
           constructed w' =
             match instance w with
             | Some _ => constructed w
             | None => S (constructed w)
             end) /\
        (p <> Singleton ->
           instance w' = instance w /\ constructed w' = constructed w))).
Proof.
  rewrite turn_run.
  pose proof (extract_int_suffix (cin w)) as Hsuf.
  pose proof (extract_int_progress (cin w)) as Hprog.
  destruct (extract_int (cin w)) as [extracted s1]. cbn [fst snd] in *.
  destruct extracted as [choice|].
  2: { (* the extraction failed *)
       apply (turn_effect_plain cc w None s1
                (get (ignore_line (clear (ignore_line (clear s1))))) Continue
                [(nl ++ "Press Enter to continue...")%string;
                 ("❌ Invalid input! Please enter a number between 1-17." ++ nl)%string]).
       - eapply is_suffix_trans; [apply waitForEnter_suffix|].
         rewrite ignore_line_clear.
         eapply is_suffix_trans; [apply drop_line_suffix | exact Hsuf].
       - intros _ Hne. now apply rejected_input_shrinks.
       - intros [=].
       - rewrite respond_none. autorewrite with world_fields.
         rewrite with_cin_cout_twice. reflexivity. }
  destruct (Hprog choice eq_refl) as (Hlt & _ & _).
  assert (Hwait : is_suffix (buf (get (ignore_line (clear s1)))) (buf (cin w)))
    by (eapply is_suffix_trans; [apply waitForEnter_suffix | exact Hsuf]).
  assert (Hwaitlt : String.length (buf (get (ignore_line (clear s1))))
                    < String.length (buf (cin w)))
    by (pose proof (is_suffix_length _ _ (waitForEnter_suffix s1)); lia).
  destruct (Z.eq_dec choice 16) as [->|H16].
  { apply (turn_effect_plain cc w (Some 16%Z) s1 (get (ignore_line (clear s1)))
             Continue ((nl ++ "Press Enter to continue...")%string :: tips_screen)).
    - exact Hwait.
    - intros _ _. exact Hwaitlt.
    - intros [=].
    - rewrite respond_tips. autorewrite with world_fields.
      rewrite with_cin_cout_twice, <- app_comm_cons. reflexivity. }
  destruct (Z.eq_dec choice 17) as [->|H17].
  { apply (turn_effect_plain cc w (Some 17%Z) s1 s1 Break farewell_screen).
    - exact Hsuf.
    - intros [=].
    - intros _. eexists. reflexivity.
    - rewrite respond_exit. autorewrite with world_fields.
      rewrite with_cout_over_cin. reflexivity. }
  destruct (Z_le_gt_dec 1 choice) as [Hlo|Hlo];
    [destruct (Z_le_gt_dec choice 15) as [Hhi|Hhi]|].
  2,3: apply (turn_effect_plain cc w (Some choice) s1 (get (ignore_line (clear s1)))
                Continue
                [(nl ++ "Press Enter to continue...")%string;
                 ("❌ Invalid choice! Please select 1-17." ++ nl)%string]);
       [ exact Hwait | intros _ _; exact Hwaitlt | intros [=]
       | rewrite respond_out_of_range by lia; autorewrite with world_fields;
         rewrite with_cin_cout_twice; reflexivity ].
  destruct (pattern_at_total choice (conj Hlo Hhi)) as (p & Hp).
  destruct (turn_effect_demo cc w choice p s1 Hp Hsuf Hlt) as (w' & H).
  exists w'. destruct H as (H1 & H2 & H3 & H4 & H5 & H6 & H7 & H8).
  repeat (split; [assumption|]). exact H8.
Qed.

(* ------------------------------------------------------------------ *)
(** ** The whole session *)

Lemma turn_outcomes (cc : string) (w : World) :
  (exists next cc' w', turn cc w = Ok (next, cc') w') \/
  (exists e w', turn cc w = Throw e w').
Proof.
  destruct (turn_effect cc w) as (w' & Hw & _).
  destruct (turn cc w) as [[next cc'] w1|e w1|]; [| |discriminate Hw].
  - left. now exists next, cc', w1.
  - right. now exists e, w1.
Qed.

(** However the loop ends, the error stream is as it was; when it ends by
    itself the farewell is the last thing written; when an exception ends
    it, a demo outside the sources threw it. *)
Lemma run_from_effect (fuel : nat) (cc : string) (w : World) :
  run_from fuel cc w = None \/
  (exists w',
     run_from fuel cc w = Some (Ok tt w') /\
     cerr w' = cerr w /\
     exists rest, cout w' = (farewell_screen ++ rest)%list) \/
  (exists e p w',
     run_from fuel cc w = Some (Throw e w') /\
     cerr w' = cerr w /\
     in_sources p = false /\ snd (absentDemo p) = Some e).
Proof.
  revert cc w. induction fuel as [|fuel IH]; intros cc w; [now left|].
  cbn [run_from].
  destruct (turn_effect cc w)
    as (w' & Hw & Herr & _ & _ & _ & Hbreak & Hthrow & _).
  destruct (turn cc w) as [[[|] cc'] w1|e w1|]; cbn [world_of] in Hw;
    try discriminate Hw; injection Hw as ->.
  - destruct (IH cc' w') as [H|[(w2 & H & He & Hf)|(e & p & w2 & H & He & Hp)]].
    + now left.
    + right. left. exists w2. rewrite <- Herr. auto.
    + right. right. exists e, p, w2. rewrite <- Herr. auto.
  - right. left. exists w'. split; [reflexivity|]. split; [exact Herr|].
    now apply (Hbreak cc').
  - right. right. destruct (Hthrow e eq_refl) as (p & Hsrc & Hp).
    exists e, p, w'. auto.
Qed.

(** X1. Whatever the input, [main] neither runs into undefined behaviour
    nor lets an exception out. Given enough turns it returns 0, with the
    farewell as the last output and nothing written to [std::cerr], or it
    returns 1, with the one line of the report added to [std::cerr], and
    then the exception came from a demo that is not part of the sources. *)
Theorem main_returns_0_or_1 (fuel : nat) (w : World) :
  main fuel w = None \/
  (exists w',
     main fuel w = Some (Ok 0%Z w') /\
     cerr w' = cerr w /\
     exists rest, cout w' = (farewell_screen ++ rest)%list) \/
  (exists e p w',
     main fuel w = Some (Ok 1%Z w') /\
     cerr w' = ("❌ Fatal error: " ++ what e ++ nl) :: cerr w /\
     in_sources p = false /\ snd (absentDemo p) = Some e).
Proof.
  unfold main, run.
  destruct (run_from_effect fuel "" w)
    as [->|[(w' & -> & He & Hf)|(e & p & w' & -> & He & Hp)]].
  - now left.
  - right. left. now exists w'.
  - right. right. eexists e, p, _. split; [reflexivity|].
    cbn [cerr with_cerr]. now rewrite He.
Qed.

Lemma singleton_or_not (p : Pattern) : p = Singleton \/ p <> Singleton.
Proof. destruct p; ((left; reflexivity) || (right; intros E; discriminate E)). Qed.

(** The static of [getInstance] is initialised exactly when the Singleton
    demo was called. *)
Lemma lazy_turn (cc : string) (w w' : World) :
  world_of (turn cc w) = Some w' ->
  (In Singleton (invoked w) /\ instance w <> None /\ constructed w = 1 \/
   ~ In Singleton (invoked w) /\ instance w = None /\ constructed w = 0) ->
  (In Singleton (invoked w') /\ instance w' <> None /\ constructed w' = 1 \/
   ~ In Singleton (invoked w') /\ instance w' = None /\ constructed w' = 0).
Proof.
  intros Hw Hinv.
  destruct (turn_effect cc w) as (w1 & Hw1 & _ & _ & _ & _ & _ & _ & Hcall).
  rewrite Hw in Hw1. injection Hw1 as <-.
  destruct Hcall as [(Hi & Hs & Hk)|(choice & p & _ & _ & Hi & Hsing & Hother)].
  - now rewrite Hi, Hs, Hk.
  - rewrite Hi.
    destruct (singleton_or_not p) as [->|Hne].
    + left. destruct (Hsing eq_refl) as (Hs & Hk).
      split; [apply in_or_app; right; now left|]. split; [exact Hs|].
      rewrite Hk.
      destruct Hinv as [(_ & Hsome & Hone)|(_ & Hnone & Hzero)].
      * destruct (instance w); [exact Hone | now contradiction Hsome].
      * rewrite Hnone, Hzero. reflexivity.
    + destruct (Hother Hne) as (Hs & Hk). rewrite Hs, Hk.
      destruct Hinv as [(Hin & H2)|(Hnin & H2)].
      * left. split; [apply in_or_app; now left | exact H2].
      * right. split; [|exact H2].
        intros Hin. apply in_app_or in Hin as [Hin|[Hin|[]]]; [now apply Hnin|].
        now apply Hne.
Qed.

(** X2. In a session started from scratch the configuration object is
    constructed on demand: at every point where the loop has ended, it
    exists, and was constructed exactly once, if the Singleton demo was
    called, and it was never constructed otherwise. *)
Theorem singleton_constructed_on_demand (fuel : nat) (input : string)
  (o : outcome unit) (w' : World) :
  run fuel (start input) = Some o ->
  world_of o = Some w' ->
  (In Singleton (invoked w') -> instance w' <> None /\ constructed w' = 1) /\
  (~ In Singleton (invoked w') -> instance w' = None /\ constructed w' = 0).
Proof.
  assert (Hgen : forall fuel cc w,
            (In Singleton (invoked w) /\ instance w <> None /\ constructed w = 1 \/
             ~ In Singleton (invoked w) /\ instance w = None /\ constructed w = 0) ->
            run_from fuel cc w = Some o -> world_of o = Some w' ->
            (In Singleton (invoked w') /\ instance w' <> None /\ constructed w' = 1 \/
             ~ In Singleton (invoked w') /\ instance w' = None /\ constructed w' = 0)).
  { clear fuel. induction fuel as [|fuel IH]; intros cc w Hinv Hrun Ho;
      [discriminate Hrun|].
    destruct (turn_outcomes cc w) as [(next & cc' & w1 & E)|(e & w1 & E)].
    - pose proof (lazy_turn cc w w1) as Hturn. rewrite E in Hturn.
      specialize (Hturn eq_refl Hinv).
      destruct next.
      + rewrite (run_from_continue fuel cc cc' w w1 E) in Hrun.
        exact (IH cc' w1 Hturn Hrun Ho).
      + rewrite (run_from_break fuel cc cc' w w1 E) in Hrun.
        injection Hrun as Hrun. rewrite <- Hrun in Ho.
        injection Ho as Ho. rewrite <- Ho. exact Hturn.
    - pose proof (lazy_turn cc w w1) as Hturn. rewrite E in Hturn.
      specialize (Hturn eq_refl Hinv).
      rewrite (run_from_throw fuel cc e w w1 E) in Hrun.
      injection Hrun as Hrun. rewrite <- Hrun in Ho.
      injection Ho as Ho. rewrite <- Ho. exact Hturn. }
  intros Hrun Ho.
  destruct (Hgen fuel "" (start input)) as [(Hin & H)|(Hnin & H)];
    [right; split; [intros []|split; reflexivity] | exact Hrun | exact Ho | |].
  - split; [intros _; exact H | intros Hn; now contradiction Hn].
  - split; [intros Hi; now contradiction Hnin | intros _; exact H].
Qed.

(* ------------------------------------------------------------------ *)
(** ** When the loop ends and when it does not *)

Lemma blank_suffix (part whole : string) :
  is_suffix part whole -> blank whole = true -> blank part = true.
Proof.
  intros (d & ->). induction d as [|c d IH]; cbn [append blank]; [trivial|].
  intros H. apply andb_true_iff in H as (_ & H). now apply IH.
Qed.

Lemma skipws_of_blank (b : string) : blank b = true -> skipws b = "".
Proof.
  induction b as [|c b IH]; cbn [blank skipws]; [reflexivity|].
  intros H. apply andb_true_iff in H as (-> & H). now apply IH.
Qed.

Lemma extract_int_blank (s : istream) :
  blank (buf s) = true -> fst (extract_int s) = None.
Proof.
  intros H. unfold extract_int, sentry.
  destruct (good s); [|reflexivity].
  now rewrite (skipws_of_blank _ H).
Qed.

(** On an input with nothing but whitespace left the turn reports an
    invalid input and goes on, with nothing but whitespace left. *)
Lemma turn_starved (cc : string) (w : World) :
  blank (buf (cin w)) = true ->
  exists w',
    turn cc w = Ok (Continue, cc) w' /\ blank (buf (cin w')) = true.
Proof.
  intros H. rewrite turn_run, (extract_int_blank _ H), respond_none.
  eexists. split; [reflexivity|].
  autorewrite with world_fields.
  eapply blank_suffix; [|exact H].
  eapply is_suffix_trans; [apply waitForEnter_suffix|].
  rewrite ignore_line_clear.
  eapply is_suffix_trans; [apply drop_line_suffix | apply extract_int_suffix].
Qed.




(** X3. Once the input holds nothing but whitespace, in particular at
    end of file, the loop never ends: every turn fails to read a number,
    reports it and starts over. *)
Theorem loop_starves_at_end_of_input (fuel : nat) (cc : string) (w : World) :
  blank (buf (cin w)) = true ->
  run_from fuel cc w = None /\ main fuel w = None.
Proof.
  assert (H : forall fuel cc w, blank (buf (cin w)) = true ->
                run_from fuel cc w = None).
  { clear. induction fuel as [|fuel IH]; intros cc w Hb; [reflexivity|].
    destruct (turn_starved cc w Hb) as (w' & Hturn & Hb').
    rewrite (run_from_continue fuel cc cc w w' Hturn). now apply IH. }
  intros Hb. split; [now apply H|].
  unfold main, run. now rewrite H.
Qed.

(** X4. The loop takes at most one turn per character of input: within
    that many turns (and one more) it has ended, or else it never ends,
    because the input ran out before an exit was chosen. *)
Theorem loop_ends_or_starves (cc : string) (w : World) :
  (exists o, run_from (S (String.length (buf (cin w)))) cc w = Some o) \/
  (forall fuel, run_from fuel cc w = None).
Proof.
  remember (String.length (buf (cin w))) as n eqn:Hn.
  assert (Hle : String.length (buf (cin w)) <= n) by lia. clear Hn.
  revert cc w Hle. induction n as [|n IH]; intros cc w Hle.
  - right. intros fuel.
    assert (Hb : blank (buf (cin w)) = true)
      by (destruct (buf (cin w)); [reflexivity | cbn in Hle; lia]).
    clear - Hb. revert cc w Hb.
    induction fuel as [|fuel IHf]; intros cc w Hb; [reflexivity|].
    destruct (turn_starved cc w Hb) as (w' & Hturn & Hb').
    rewrite (run_from_continue fuel cc cc w w' Hturn). now apply IHf.
  - destruct (turn_effect cc w) as (w' & Hw & _ & _ & Hsuf & Hshrink & _).
    destruct (turn_outcomes cc w) as [(next & cc' & w1 & E)|(e & w1 & E)].
    + rewrite E in Hw. injection Hw as Hw. subst w1.
      destruct next.
      * destruct (string_dec (buf (cin w)) "") as [Hempty|Hne].
        -- apply is_suffix_length in Hsuf. rewrite Hempty in Hsuf.
           destruct (IH cc' w') as [(o & Ho)|Hnever];
             [cbn [String.length] in Hsuf; lia | |].
           ++ left. exists o. now rewrite (run_from_continue _ cc cc' w w' E).
           ++ right. intros [|fuel]; [reflexivity|].
              rewrite (run_from_continue _ cc cc' w w' E). apply Hnever.
        -- specialize (Hshrink cc' E Hne).
           destruct (IH cc' w') as [(o & Ho)|Hnever]; [lia | |].
           ++ left. exists o. now rewrite (run_from_continue _ cc cc' w w' E).
           ++ right. intros [|fuel]; [reflexivity|].
              rewrite (run_from_continue _ cc cc' w w' E). apply Hnever.
      * left. eexists. apply (run_from_break _ cc cc' w w' E).
    + left. eexists. apply (run_from_throw _ cc e w w1 E).
Qed.

(* ------------------------------------------------------------------ *)
(** ** What exactly is consumed *)

Lemma drop_line_one_line (line rest : string) :
  one_line line = true -> drop_line (line ++ nl ++ rest) = (rest, true).
Proof.
  induction line as [|c line IH]; cbn [one_line append drop_line].
  - intros _. reflexivity.
  - intros H. apply andb_true_iff in H as (Hc & H).
    apply negb_true_iff in Hc. rewrite Hc. now apply IH.
Qed.

Lemma drop_line_no_newline (line : string) :
  one_line line = true -> drop_line line = ("", false).
Proof.
  induction line as [|c line IH]; cbn [one_line drop_line]; [reflexivity|].
  intros H. apply andb_true_iff in H as (Hc & H).
  apply negb_true_iff in Hc. rewrite Hc. now apply IH.
Qed.

(** X5. [waitForEnter] writes its prompt, discards what is left of the
    current line, newline included, and consumes one more character,
    whatever the flags of the stream were; the stream is good afterwards.
    When the input ends with that line, or before its newline, the stream
    is left at end of file with [failbit] set. *)
Theorem waitForEnter_consumes (w : World) (line : string) :
  one_line line = true ->
  (forall c rest,
     buf (cin w) = line ++ nl ++ String c rest ->
     waitForEnter w =
       Ok tt (with_cin {| buf := rest; eofbit := false; failbit := false |}
                (with_cout ((nl ++ "Press Enter to continue...") :: cout w) w))) /\
  (buf (cin w) = line ++ nl \/ buf (cin w) = line ->
     waitForEnter w =
       Ok tt (with_cin {| buf := ""; eofbit := true; failbit := true |}
                (with_cout ((nl ++ "Press Enter to continue...") :: cout w) w))).
Proof.
  intros Hline. split.
  - intros c rest Hbuf. rewrite waitForEnter_run. do 2 f_equal.
    unfold ignore_line, sentry, clear, good. cbn [eofbit failbit negb andb buf].
    rewrite Hbuf, (drop_line_one_line line (String c rest) Hline).
    reflexivity.
  - intros Hbuf. rewrite waitForEnter_run. do 2 f_equal.
    unfold ignore_line, sentry, clear, good. cbn [eofbit failbit negb andb buf].
    destruct Hbuf as [Hbuf|Hbuf]; rewrite Hbuf.
    + change (line ++ nl) with (line ++ nl ++ "").
      rewrite (drop_line_one_line line "" Hline). reflexivity.
    + rewrite (drop_line_no_newline line Hline). reflexivity.
Qed.

(** X6. A rejected input costs two lines: the turn discards the line of
    the input that is not a number, then [waitForEnter] discards the whole
    next line, read or not, and one character more. A selection typed on
    the line after the rejected one is never seen. *)
Theorem rejected_input_swallows_next_line (cc : string) (w : World)
  (line1 line2 rest : string) (c : ascii) :
  non_numeric_input (cin w) ->
  one_line line1 = true -> one_line line2 = true ->
  skipws (buf (cin w)) = line1 ++ nl ++ line2 ++ nl ++ String c rest ->
  exists w',
    turn cc w = Ok (Continue, cc) w' /\
    cin w' = {| buf := rest; eofbit := false; failbit := false |} /\
    invoked w' = invoked w.
Proof.
  intros Hnn H1 H2 Hbuf.
  destruct (extract_int_non_numeric _ Hnn) as (s1 & He & _ & Hline).
  rewrite turn_run, He. cbn [fst snd]. rewrite respond_none.
  eexists. split; [reflexivity|]. autorewrite with world_fields.
  split; [|reflexivity].
  assert (Hfirst : ignore_line (clear s1) =
            {| buf := line2 ++ nl ++ String c rest; eofbit := false; failbit := false |}).
  { unfold ignore_line, sentry, clear, good. cbn [eofbit failbit negb andb buf].
    pose proof (drop_line_one_line line1 (line2 ++ nl ++ String c rest) H1) as Hd.
    rewrite <- Hbuf in Hd.
    destruct (drop_line (buf s1)) as [r f] eqn:E1.
    rewrite Hd in Hline. cbn [fst] in Hline. subst r.
    assert (f = true).
    { clear - E1 H2. revert E1. generalize (buf s1). intros b.
      induction b as [|x b IH]; cbn [drop_line].
      - intros [= E _]. destruct line2; discriminate E.
      - destruct (is_newline x); [now intros [= _ <-] | exact IH]. }
    subst f. reflexivity. }
  rewrite Hfirst.
  unfold ignore_line, sentry, clear, good. cbn [eofbit failbit negb andb buf].
  rewrite (drop_line_one_line line2 (String c rest) H2). reflexivity.
Qed.

(* ------------------------------------------------------------------ *)
(** ** Reading the answer, and a whole turn as it is typed *)

Lemma token_word (t rest : string) :
  no_space t = true -> ends_word rest = true -> token (t ++ rest) = (t, rest).
Proof.
  intros Ht Hrest. induction t as [|c t IH]; cbn [append].
  - destruct rest as [|x rest]; cbn [token]; [reflexivity|].
    cbn [ends_word] in Hrest. now rewrite Hrest.
  - cbn [no_space] in Ht. apply andb_true_iff in Ht as (Hc & Ht).
    apply negb_true_iff in Hc. cbn [token]. rewrite Hc, (IH Ht). reflexivity.
Qed.

Lemma skipws_word (t rest : string) :
  word t = true -> skipws (t ++ rest) = t ++ rest.
Proof.
  unfold word. destruct t as [|c t]; [discriminate|].
  cbn [is_empty negb andb no_space append skipws].
  intros H. apply andb_true_iff in H as (Hc & _).
  apply negb_true_iff in Hc. now rewrite Hc.
Qed.

Lemma extract_string_word (s : istream) (b t rest : string) :
  good s = true -> blank b = true -> word t = true -> ends_word rest = true ->
  buf s = b ++ t ++ rest ->
  extract_string s =
    (Some t, {| buf := rest; eofbit := is_empty rest; failbit := false |}).
Proof.
  intros Hgood Hb Ht Hrest Hbuf.
  unfold extract_string, sentry.
  rewrite Hgood, Hbuf, (skipws_blank b (t ++ rest) Hb), (skipws_word t rest Ht).
  pose proof Ht as Hw. unfold word in Hw. apply andb_true_iff in Hw as (Hne & Hns).
  destruct (t ++ rest) as [|x y] eqn:E;
    [destruct t; [discriminate Hne | discriminate E]|].
  cbn [buf]. rewrite <- E, (token_word t rest Hns Hrest).
  apply negb_true_iff in Hne. now rewrite Hne.
Qed.

(** [cin >> continueChoice] on a good stream reads one word: it skips
    the whitespace before it, stores the characters up to the next
    whitespace and leaves the rest, that whitespace included, unread. *)
Theorem extract_string_reads_word (s : istream) (b t rest : string) :
  good s = true -> blank b = true -> word t = true -> ends_word rest = true ->
  buf s = b ++ t ++ rest ->
  extract_string s =
    (Some t, {| buf := rest; eofbit := is_empty rest; failbit := false |}) /\
  is_suffix rest (buf s).
Proof.
  intros Hgood Hb Ht Hrest Hbuf.
  split; [now apply (extract_string_word s b t rest)|].
  exists (b ++ t). now rewrite append_assoc.
Qed.

(** X7. When the input ends before an answer to the continue prompt,
    [continueChoice] keeps the value it had: the answer of the turn before
    decides again, and on the first turn, where it is empty, the loop
    ends. *)
Theorem missing_answer_reuses_previous (cc : string) (w : World) (choice : Z)
  (s1 : istream) :
  extract_int (cin w) = (Some choice, s1) ->
  (1 <= choice <= 15)%Z ->
  demo_returns choice ->
  blank (buf s1) = true ->
  (declines cc = true ->
     exists w', turn cc w = Ok (Break, cc) w' /\
                forall fuel, run_from (S fuel) cc w = Some (Ok tt w')) /\
  (declines cc = false ->
     exists w', turn cc w = Ok (Continue, cc) w' /\
                forall fuel, run_from fuel cc w = None) /\
  declines "" = true.
Proof.
  intros He Hrange Hret Hblank.
  destruct (pattern_at_total _ Hrange) as (p & Hp).
  assert (Hs : exists s2, extract_string s1 = (None, s2) /\ blank (buf s2) = true).
  { unfold extract_string, sentry. destruct (good s1).
    - rewrite (skipws_of_blank _ Hblank). eexists. split; reflexivity.
    - eexists. split; [reflexivity | exact Hblank]. }
  destruct Hs as (s2 & Hs & Hb2).
  destruct (turn_demo_returns cc w choice p s1 s2 None He Hp (Hret p Hp) Hs)
    as (w2 & _ & _ & _ & Hturn).
  cbv zeta in Hturn.
  split; [|split; [|reflexivity]]; intros Hd; rewrite Hd in Hturn;
    eexists; (split; [exact Hturn|]).
  - intros fuel. apply (run_from_break fuel cc cc _ _ Hturn).
  - intros [|fuel]; [reflexivity|].
    rewrite (run_from_continue fuel cc cc _ _ Hturn).
    assert (H : forall fuel cc w, blank (buf (cin w)) = true ->
                  run_from fuel cc w = None).
    { clear. induction fuel as [|fuel IH]; intros cc w Hb; [reflexivity|].
      destruct (turn_starved cc w Hb) as (w' & Hturn & Hb').
      rewrite (run_from_continue fuel cc cc w w' Hturn). now apply IH. }
    apply H. autorewrite with world_fields. exact Hb2.
Qed.

(** X8. A turn as it is typed: the decimal text of a selection from 1 to
    15 on one line and a one-word answer on the next. The turn runs the
    demo of that selection, and only it, reads the answer and leaves the
    input at the newline after it; it goes on or ends as the answer
    says. *)
Theorem typed_selection_runs_demo (cc : string) (w : World) (k : Z)
  (p : Pattern) (answer rest : string) :
  good (cin w) = true ->
  pattern_at k = Some p ->
  in_sources p = true \/ snd (absentDemo p) = None ->
  word answer = true ->
  buf (cin w) = show_int k ++ nl ++ answer ++ nl ++ rest ->
  exists w',
    turn cc w = Ok (if declines answer then Break else Continue, answer) w' /\
    invoked w' = (invoked w ++ [p])%list /\
    cin w' = {| buf := nl ++ rest; eofbit := false; failbit := false |}.
Proof.
  intros Hgood Hp Hret Hword Hbuf.
  pose proof (pattern_at_range _ _ Hp) as Hrange.
  assert (He : extract_int (cin w) =
            (Some k, {| buf := nl ++ answer ++ nl ++ rest;
                        eofbit := false; failbit := false |})).
  { rewrite (extract_int_show_int (cin w) "" (nl ++ answer ++ nl ++ rest) k Hgood);
      [| reflexivity | reflexivity | exact Hbuf].
    cbv zeta.
    replace (Z.leb INT_MIN k && Z.leb k INT_MAX) with true; [reflexivity|].
    symmetry. apply andb_true_iff. rewrite !Z.leb_le. unfold INT_MIN, INT_MAX. lia. }
  assert (Hs : extract_string {| buf := nl ++ answer ++ nl ++ rest;
                                 eofbit := false; failbit := false |} =
            (Some answer, {| buf := nl ++ rest; eofbit := false; failbit := false |})).
  { rewrite (extract_string_word _ nl answer (nl ++ rest));
      reflexivity || assumption. }
  destruct (turn_demo_returns cc w k p _ _ (Some answer) He Hp Hret Hs)
    as (w2 & _ & _ & Hinv & Hturn).
  cbv zeta in Hturn. rewrite Hturn.
  destruct (declines answer); eexists; (split; [reflexivity|]);
    autorewrite with world_fields; split; (exact Hinv || reflexivity).
Qed.

(** [cin >> choice] reads back the decimal text [operator<<] prints
    for an [int]: after any whitespace, and up to the first character that
    is no digit, it yields that very value and leaves the rest unread. *)
Theorem printed_number_is_read_back (s : istream) (b rest : string) (v : Z) :
  good s = true -> blank b = true -> ends_number rest = true ->
  (INT_MIN <= v <= INT_MAX)%Z ->
  buf s = b ++ show_int v ++ rest ->
  extract_int s =
    (Some v, {| buf := rest; eofbit := is_empty rest; failbit := false |}).
Proof.
  intros Hgood Hb Hrest Hv Hbuf.
  rewrite (extract_int_show_int s b rest v Hgood Hb Hrest Hbuf). cbv zeta.
  replace (Z.leb INT_MIN v && Z.leb v INT_MAX) with true; [reflexivity|].
  symmetry. apply andb_true_iff. rewrite !Z.leb_le. lia.
Qed.

(** X9. A number that does not fit an [int] is no selection at all: the
    extraction consumes its digits and fails, and the turn reports an
    invalid input, not an invalid choice, and calls no demo. *)
Theorem number_beyond_int_is_invalid_input (cc : string) (w : World)
  (b rest : string) (v : Z) :
  good (cin w) = true -> blank b = true -> ends_number rest = true ->
  (v < INT_MIN \/ INT_MAX < v)%Z ->
  buf (cin w) = b ++ show_int v ++ rest ->
  extract_int (cin w) =
    (None, {| buf := rest; eofbit := is_empty rest; failbit := true |}) /\
  exists w',
    turn cc w = Ok (Continue, cc) w' /\
    cout w' = ((nl ++ "Press Enter to continue...")%string
               :: ("❌ Invalid input! Please enter a number between 1-17." ++ nl)%string
               :: prompt_screen ++ cout w)%list /\
    invoked w' = invoked w.
Proof.
  intros Hgood Hb Hrest Hv Hbuf.
  assert (He : extract_int (cin w) =
            (None, {| buf := rest; eofbit := is_empty rest; failbit := true |})).
  { rewrite (extract_int_show_int (cin w) b rest v Hgood Hb Hrest Hbuf). cbv zeta.
    replace (Z.leb INT_MIN v && Z.leb v INT_MAX) with false; [reflexivity|].
    symmetry. apply andb_false_iff. rewrite !Z.leb_gt. lia. }
  split; [exact He|].
  rewrite turn_run, He. cbn [fst snd]. rewrite respond_none.
  eexists. split; [reflexivity|]. autorewrite with world_fields.
  split; reflexivity.
Qed.

(* ------------------------------------------------------------------ *)
(** ** More on the builder *)

Lemma after_setters_app (cs1 cs2 : list setter) (r : HttpRequest) :
  after_setters (cs1 ++ cs2) r = after_setters cs2 (after_setters cs1 r).
Proof. apply fold_left_app. Qed.

Lemma headers_after_all (cs : list setter) (r : HttpRequest) :
  headers_ (after_setters cs r) = (headers_ r ++ header_calls cs)%list.
Proof.
  revert r. induction cs as [|c cs IH]; intros r.
  - cbn. now rewrite List.app_nil_r.
  - cbn [after_setters fold_left]. fold (after_setters cs (setter_effect c r)).
    rewrite IH. destruct c; cbn [setter_effect header_calls]; try reflexivity.
    cbn [addHeader headers_]. now rewrite <- List.app_assoc.
Qed.

Lemma header_lines_app (hs1 hs2 : list (string * string)) :
  header_lines (hs1 ++ hs2) = header_lines hs1 ++ header_lines hs2.
Proof.
  induction hs1 as [|h hs1 IH]; cbn [app header_lines]; [reflexivity|].
  now rewrite IH, append_assoc.
Qed.

(** X10. As long as [build] has not been called, no chain of setters
    dereferences a null pointer: whatever the calls, the builder still
    owns a request and [build] returns it. Every field that no call set
    has the value the constructor of [HttpRequest] gave it: GET, an empty
    url, an empty body, no header, 30. *)
Theorem fresh_builder_is_safe (cs : list setter) :
  exists r,
    chain cs HttpRequestBuilder_new = Some {| request_ := Some r |} /\
    built_from cs = Some r /\
    ((forall m, ~ In (Method m) cs) -> method_ r = "GET") /\
    ((forall u, ~ In (Url u) cs) -> url_ r = "") /\
    ((forall s, ~ In (Body s) cs) -> body_ r = "") /\
    ((forall k v, ~ In (Header k v) cs) -> headers_ r = []) /\
    ((forall t, ~ In (Timeout t) cs) -> timeout_ r = 30%Z).
Proof.
  exists (after_setters cs HttpRequest_new).
  split; [apply chain_on_request|]. split; [apply built_from_setters|].
  split; [|split; [|split; [|split]]].
  - intros H. apply method_after; [|now left].
    intros m Hm. now destruct (H m).
  - intros H. apply url_after; [|now left].
    intros u Hu. now destruct (H u).
  - intros H. apply body_after; [|now left].
    intros s Hs. now destruct (H s).
  - intros H. rewrite headers_after_all. cbn [HttpRequest_new headers_ app].
    induction cs as [|c cs IH]; [reflexivity|].
    destruct c; cbn [header_calls];
      try (apply IH; intros k v Hin; apply (H k v); now right).
    destruct (H key value). now left.
  - intros H. apply timeout_after; [|now left].
    intros t Ht. now destruct (H t).
Qed.

(** X11. For the method, the url, the body and the timeout the last call
    wins: after any calls, the field holds the value of the last call that
    set it. *)
Theorem last_setter_wins (before after : list setter) :
  (forall m, (forall m', ~ In (Method m') after) ->
     exists r, built_from (before ++ Method m :: after) = Some r /\ method_ r = m) /\
  (forall u, (forall u', ~ In (Url u') after) ->
     exists r, built_from (before ++ Url u :: after) = Some r /\ url_ r = u) /\
  (forall s, (forall s', ~ In (Body s') after) ->
     exists r, built_from (before ++ Body s :: after) = Some r /\ body_ r = s) /\
  (forall t, (forall t', ~ In (Timeout t') after) ->
     exists r, built_from (before ++ Timeout t :: after) = Some r /\ timeout_ r = t).
Proof.
  split; [|split; [|split]]; intros x H; eexists;
    (split; [apply built_from_setters|]);
    rewrite after_setters_app; cbn [after_setters fold_left];
    fold (after_setters after).
  - apply method_after; [|now left]. intros m Hm. now destruct (H m).
  - apply url_after; [|now left]. intros m Hm. now destruct (H m).
  - apply body_after; [|now left]. intros m Hm. now destruct (H m).
  - apply timeout_after; [|now left]. intros m Hm. now destruct (H m).
Qed.

(** X12. Headers are never replaced: every call of [header] adds one, even
    for a key that is there already, and [toString] renders them one per
    line in the order of the calls. *)
Theorem headers_accumulate_in_order (cs : list setter) :
  exists r,
    built_from cs = Some r /\
    headers_ r = header_calls cs /\
    occurs_in (header_lines (header_calls cs)) (toString r) /\
    (forall k v1 v2,
       header_calls (cs ++ [Header k v1; Header k v2]) =
         (header_calls cs ++ [(k, v1); (k, v2)])%list).
Proof.
  exists (after_setters cs HttpRequest_new).
  split; [apply built_from_setters|].
  assert (Hh : headers_ (after_setters cs HttpRequest_new) = header_calls cs)
    by (now rewrite headers_after_all).
  split; [exact Hh|]. split.
  - unfold toString. rewrite Hh.
    do 14 apply occurs_in_app_r. apply occurs_in_app_l, occurs_in_refl.
  - intros k v1 v2. clear Hh. induction cs as [|c cs IH]; [reflexivity|].
    destruct c; cbn [app header_calls]; rewrite ?IH; reflexivity.
Qed.

(* ------------------------------------------------------------------ *)
(** ** More on the factory *)

(** X13. [getAvailableProcessors] lists exactly the types [createProcessor]
    accepts, each once, and different types give processors with different
    names. *)
Theorem available_processors_are_the_accepted_types :
  (forall type,
     In type getAvailableProcessors <-> exists p, createProcessor type = inr p) /\
  NoDup getAvailableProcessors /\
  (forall t1 t2 p1 p2,
     createProcessor t1 = inr p1 -> createProcessor t2 = inr p2 ->
     getProcessorName p1 = getProcessorName p2 -> t1 = t2).
Proof.
  assert (Hacc : forall type p, createProcessor type = inr p ->
            (type = "credit_card" /\ p = CreditCardProcessor) \/
            (type = "paypal" /\ p = PayPalProcessor) \/
            (type = "bitcoin" /\ p = BitcoinProcessor)).
  { intros type p. unfold createProcessor.
    destruct (String.eqb_spec type "credit_card");
      [intros [= <-]; left; split; [assumption | reflexivity]|].
    destruct (String.eqb_spec type "paypal");
      [intros [= <-]; right; left; split; [assumption | reflexivity]|].
    destruct (String.eqb_spec type "bitcoin");
      [intros [= <-]; right; right; split; [assumption | reflexivity]|].
    intros E. discriminate E. }
  split; [|split].
  - intros type. split.
    + intros [<-|[<-|[<-|[]]]]; eexists; reflexivity.
    + intros (p & Hp). destruct (Hacc type p Hp) as [(-> & _)|[(-> & _)|(-> & _)]];
        cbn; auto.
  - repeat constructor; cbn; intros H;
      repeat (destruct H as [H|H]; try discriminate H); exact H.
  - intros t1 t2 p1 p2 H1 H2 Hn.
    destruct (Hacc t1 p1 H1) as [(-> & ->)|[(-> & ->)|(-> & ->)]];
      destruct (Hacc t2 p2 H2) as [(-> & ->)|[(-> & ->)|(-> & ->)]];
      (reflexivity || discriminate Hn).
Qed.

(** Whatever the processor and the amount, [processPayment] writes
    five lines: the first one holds the amount and the last one reports the
    success. It reads nothing and throws nothing. *)
Theorem processPayment_reports (p : PaymentProcessor) (amount : string) (w : World) :
  exists first second third fourth,
    processPayment p amount w =
      Ok tt (with_cout
               (("   ✅ Payment successful!" ++ nl)
                :: fourth :: third :: second :: first :: cout w) w) /\
    occurs_in amount first.
Proof.
  unfold processPayment. rewrite put_all_run.
  destruct p; cbn [processPayment_text rev app]; do 4 eexists;
    (split; [reflexivity|]); find_part.
Qed.

(* ------------------------------------------------------------------ *)
(** ** More on the singleton *)

(** X14. On the initialised object the getters change nothing, each setter
    changes its own field and no other, and [displayConfig] writes what
    the getters return; the setters write nothing and construct nothing. *)
Theorem configuration_fields_are_independent (w : World) (c : ConfigurationManager) :
  instance w = Some c ->
  (getAppName instance_address w = Ok (appName_ c) w /\
   getVersion instance_address w = Ok (version_ c) w /\
   isDebugMode instance_address w = Ok (debugMode_ c) w) /\
  (forall name, exists w',
     setAppName instance_address name w = Ok tt w' /\
     getAppName instance_address w' = Ok name w' /\
     getVersion instance_address w' = Ok (version_ c) w' /\
     isDebugMode instance_address w' = Ok (debugMode_ c) w' /\
     cout w' = cout w /\ constructed w' = constructed w) /\
  (forall version, exists w',
     setVersion instance_address version w = Ok tt w' /\
     getAppName instance_address w' = Ok (appName_ c) w' /\
     getVersion instance_address w' = Ok version w' /\
     isDebugMode instance_address w' = Ok (debugMode_ c) w' /\
     cout w' = cout w /\ constructed w' = constructed w) /\
  (forall debug, exists w',
     setDebugMode instance_address debug w = Ok tt w' /\
     getAppName instance_address w' = Ok (appName_ c) w' /\
     getVersion instance_address w' = Ok (version_ c) w' /\
     isDebugMode instance_address w' = Ok debug w' /\
     cout w' = cout w /\ constructed w' = constructed w) /\
  displayConfig instance_address w =
    Ok tt (with_cout
             (("   Debug Mode: " ++ (if debugMode_ c then "ON" else "OFF") ++ nl)
              :: ("   Version: " ++ version_ c ++ nl)
              :: ("   App Name: " ++ appName_ c ++ nl)
              :: ("⚙️  Configuration:" ++ nl) :: cout w) w).
Proof.
  intros Hc.
  assert (Hget : forall w0 c0, instance w0 = Some c0 ->
            getAppName instance_address w0 = Ok (appName_ c0) w0 /\
            getVersion instance_address w0 = Ok (version_ c0) w0 /\
            isDebugMode instance_address w0 = Ok (debugMode_ c0) w0).
  { intros w0 c0 H0. unfold getAppName, getVersion, isDebugMode, bind, ret.
    rewrite (load_run w0 c0 H0). repeat split. }
  assert (Hset : forall c', exists w',
            store instance_address c' w = Ok tt w' /\
            instance w' = Some c' /\
            cout w' = cout w /\ constructed w' = constructed w).
  { intros c'. rewrite (store_run w c c' Hc). eexists. split; [reflexivity|].
    repeat split. }
  split; [now apply Hget|].
  split; [|split; [|split]].
  - intros name. unfold setAppName, bind. rewrite (load_run w c Hc).
    destruct (Hset {| appName_ := name; version_ := version_ c;
                      debugMode_ := debugMode_ c |}) as (w' & -> & Hi & Ho & Hk).
    exists w'. split; [reflexivity|].
    destruct (Hget w' _ Hi) as (H1 & H2 & H3). auto.
  - intros version. unfold setVersion, bind. rewrite (load_run w c Hc).
    destruct (Hset {| appName_ := appName_ c; version_ := version;
                      debugMode_ := debugMode_ c |}) as (w' & -> & Hi & Ho & Hk).
    exists w'. split; [reflexivity|].
    destruct (Hget w' _ Hi) as (H1 & H2 & H3). auto.
  - intros debug. unfold setDebugMode, bind. rewrite (load_run w c Hc).
    destruct (Hset {| appName_ := appName_ c; version_ := version_ c;
                      debugMode_ := debug |}) as (w' & -> & Hi & Ho & Hk).
    exists w'. split; [reflexivity|].
    destruct (Hget w' _ Hi) as (H1 & H2 & H3). auto.
  - unfold displayConfig, bind at 1. rewrite (load_run w c Hc).
    destruct w. reflexivity.
Qed.

(** X15. The state of the singleton outlives the demo. The Singleton demo
    constructs the object, and writes the message of its constructor, only
    when nobody has constructed it yet; the configuration it shows first is
    the one it finds, the defaults on the first run and the values of the
    earlier run afterwards; the configuration it shows last and leaves
    behind is its own. *)
Theorem singleton_demo_shows_previous_state (w : World) :
  exists chunks w',
    demoSingleton w = Ok tt w' /\
    cout w' = (chunks ++ cout w)%list /\
    instance w' = Some {| appName_ := "Design Patterns Demo";
                          version_ := "2.0.0"; debugMode_ := true |} /\
    In ("   App Name: Design Patterns Demo" ++ nl) chunks /\
    (instance w = None ->
       In ("🔧 ConfigurationManager initialized" ++ nl) chunks /\
       In ("   App Name: MyApp" ++ nl) chunks /\
       In ("   Debug Mode: OFF" ++ nl) chunks /\
       constructed w' = S (constructed w)) /\
    (forall c, instance w = Some c ->
       ~ In ("🔧 ConfigurationManager initialized" ++ nl) chunks /\
       In ("   App Name: " ++ appName_ c ++ nl) chunks /\
       In ("   Version: " ++ version_ c ++ nl) chunks /\
       constructed w' = constructed w).
Proof.
  destruct w as [ci co ce inst k inv].
  unfold demoSingleton, getInstance, displayConfig, setAppName, setVersion,
    setDebugMode, load, store, ConfigurationManager_new.
  destruct inst as [c|]; run_m;
    (eexists; eexists; split; [reflexivity|]; cbn [cout cin cerr invoked instance constructed];
     split; [grows|]; split; [reflexivity|]; split; [find_chunk|]).
  - split; [intros E; discriminate E|].
    intros c0 [= <-]. split; [|split; [find_chunk | split; [find_chunk | reflexivity]]].
    cbn [In]. intros H.
    repeat (destruct H as [H|H]; [discriminate H|]). exact H.
  - split; [intros _|intros c0 E; discriminate E].
    split; [find_chunk|]. split; [find_chunk|]. split; [find_chunk | reflexivity].
Qed.

(* ------------------------------------------------------------------ *)
(** ** Concurrent callers: every call can return *)

Lemma work_set_thread (t : nat) (x th : thread) (l : list thread) :
  nth_error l t = Some th ->
  list_sum (map work (set_thread t x l)) + work th =
    list_sum (map work l) + work x.
Proof.
  revert t. induction l as [|y l IH]; intros [|t] H; cbn in H; try discriminate H.
  - injection H as ->. cbn [set_thread map list_sum fold_right]. lia.
  - cbn [set_thread map list_sum fold_right]. specialize (IH t H).
    unfold list_sum in IH. lia.
Qed.

(** A step that changes the state does some of the work. *)
Lemma step_works (t : nat) (s : system) :
  guard_invariant s -> step t s <> s -> remaining (step t s) < remaining s.
Proof.
  intros (Hall & _) Hne. revert Hne. unfold step, remaining.
  destruct (nth_error (threads s) t) as [th|] eqn:Hth; [|intros H; now contradiction H].
  destruct (Hall t th Hth) as (_ & Hpos).
  destruct (constructing th) eqn:Hc.
  - destruct (ConfigurationManager_new_run (world s)) as (w' & -> & _).
    intros _. cbn [threads].
    pose proof (work_set_thread t
                  {| pending := pred (pending th); constructing := false;
                     returned := returned th ++ [instance_address] |} th _ Hth) as H.
    specialize (Hpos eq_refl). unfold work at 2 4 in H. rewrite Hc in H.
    cbn [pending constructing] in H. lia.
  - destruct (pending th) as [|k] eqn:Hp; [intros H; now contradiction H|].
    destruct (static_guard s); [| intros H; now contradiction H |];
      intros _; cbn [threads];
      match goal with
      | |- context [set_thread t ?x _] =>
          pose proof (work_set_thread t x th _ Hth) as H
      end;
      unfold work at 2 4 in H; rewrite Hc, Hp in H;
      cbn [pending constructing] in H; lia.
Qed.

Lemma all_returned_or_pending (l : list thread) :
  (forall t th, nth_error l t = Some th -> pending th = 0) \/
  (exists t th, nth_error l t = Some th /\ 0 < pending th).
Proof.
  induction l as [|x l [IH|(t & th & Hth & Hp)]].
  - left. intros [|t] th H; discriminate H.
  - destruct (pending x) as [|k] eqn:Hx.
    + left. intros [|t] th H; cbn in H; [injection H as <-; exact Hx | eauto].
    + right. exists 0, x. split; [reflexivity | lia].
  - right. now exists (S t), th.
Qed.

Lemma exec_app (a b : list nat) (s : system) :
  exec (a ++ b) s = exec b (exec a s).
Proof. revert s. induction a as [|t a IH]; intros s; [reflexivity | apply IH]. Qed.

Lemma some_schedule_completes (n : nat) (s : system) :
  guard_invariant s -> remaining s <= n ->
  exists more,
    forall t th, nth_error (threads (exec more s)) t = Some th -> pending th = 0.
Proof.
  revert s. induction n as [|n IH]; intros s Hinv Hle.
  - destruct (all_returned_or_pending (threads s)) as [Hdone|(t & th & Hth & Hp)];
      [now exists []|].
    destruct (no_deadlock s t th Hinv Hth Hp) as (t' & Hstep).
    pose proof (step_works t' s Hinv Hstep). lia.
  - destruct (all_returned_or_pending (threads s)) as [Hdone|(t & th & Hth & Hp)];
      [now exists []|].
    destruct (no_deadlock s t th Hinv Hth Hp) as (t' & Hstep).
    pose proof (step_works t' s Hinv Hstep) as Hless.
    destruct (IH (step t' s)) as (more & Hmore);
      [now apply guard_invariant_step | lia |].
    now exists (t' :: more).
Qed.

(** X16. No caller of [getInstance] is left waiting for ever: from every
    state that concurrent callers can reach, some schedule lets every
    thread finish all its calls. Then each thread holds one reference per
    call, all of them the address of the one object, and if any call was
    asked for the object exists and its constructor has run exactly once. *)
Theorem every_call_can_return (input : string) (calls schedule : list nat) :
  exists more,
    let s := exec (schedule ++ more) (boot input calls) in
    (forall t th, nth_error (threads s) t = Some th ->
       pending th = 0 /\
       returned th = repeat instance_address (nth t calls 0)) /\
    (forall t n, nth_error calls t = Some (S n) ->
       constructed (world s) = 1 /\ instance (world s) <> None).
Proof.
  destruct (reachable_exec input calls schedule) as (Hinv & _).
  destruct (some_schedule_completes _ _ Hinv (le_n _)) as (more & Hdone).
  exists more. cbv zeta.
  destruct (reachable_exec input calls (schedule ++ more)) as (Hinv' & Hlen & Hacc).
  rewrite exec_app in Hinv', Hlen, Hacc |- *.
  set (s := exec more (exec schedule (boot input calls))) in *.
  assert (Hret : forall t th, nth_error (threads s) t = Some th ->
            pending th = 0 /\ returned th = repeat instance_address (nth t calls 0)).
  { intros t th Hth. pose proof (Hdone t th Hth) as Hp. split; [exact Hp|].
    assert (Ht : t < length calls)
      by (rewrite <- Hlen; apply nth_error_Some; congruence).
    destruct (nth_error calls t) as [n|] eqn:Hn;
      [|apply nth_error_None in Hn; lia].
    rewrite (nth_error_nth calls t 0 Hn).
    specialize (Hacc t th n Hth Hn). rewrite Hp in Hacc. cbn [Nat.add] in Hacc.
    destruct Hinv' as (Hall & _). destruct (Hall t th Hth) as (Hrefs & _).
    rewrite <- Hacc. clear - Hrefs.
    induction (returned th) as [|r l IH]; [reflexivity|].
    cbn [length repeat]. rewrite (Hrefs r) by now left.
    f_equal. apply IH. intros r' Hr'. apply Hrefs. now right. }
  split; [exact Hret|].
  intros t n Hn.
  assert (Ht : t < length (threads s))
    by (rewrite Hlen; apply nth_error_Some; congruence).
  destruct (nth_error (threads s) t) as [th|] eqn:Hth;
    [|apply nth_error_None in Hth; lia].
  destruct (Hret t th Hth) as (_ & Hr).
  rewrite (nth_error_nth calls t 0 Hn) in Hr. cbn [repeat] in Hr.
  destruct Hinv' as (_ & Hguard).
  destruct (static_guard s) as [|o|].
  - destruct Hguard as (_ & _ & Hidle). destruct (Hidle t th Hth) as (_ & He).
    rewrite He in Hr. discriminate Hr.
  - destruct Hguard as (_ & _ & _ & Hidle). destruct (Hidle t th Hth) as (He & _).
    rewrite He in Hr. discriminate Hr.
  - destruct Hguard as (Hsome & Hone & _). split; [exact Hone | exact Hsome].
Qed.

End Program.

(* ================================================================== *)
(** * The properties at work on concrete inputs *)

Lemma selection_runs_its_demo_witness :
  exists p,
    pattern_at 4 = Some p /\
    forall w, exists w' printed,
      world_of (runPatternDemo example_address example_show_address
                  example_absentDemo 4 w) = Some w' /\
      invoked w' = (invoked w ++ [p])%list /\
      printed_between w w' printed /\
      occurs_in (patternName p) printed.
Proof.
  assert (Hnames : absent_demos_print_their_name example_absentDemo).
  { intros p _. apply contains_occurs_in. now destruct p. }
  assert (Hrange : (1 <= 4 <= 15)%Z) by lia.
  destruct (selection_runs_its_demo example_address example_show_address
              example_absentDemo 4 Hrange)
    as (p & Hp & _ & _ & _ & _ & Hrun).
  exists p. split; [exact Hp|]. intros w.
  destruct (Hrun w)
    as (w1 & w2 & w' & text & printed & _ & _ & _ & _ & Hw' & Hinv & Hprinted
        & _ & _ & _ & Hname).
  exists w', printed. split; [exact Hw'|]. split; [exact Hinv|].
  split; [exact Hprinted | exact (proj2 (Hname Hnames))].
Defined.

Lemma singleton_is_unique_witness :
  exists refs w',
    getInstance_times example_address 3 (start "") = Ok refs w' /\
    constructed w' <= 1.
Proof.
  exact (proj1 (proj2 (singleton_is_unique example_address)) 3 "").
Defined.

Lemma createProcessor_by_type_witness :
  createProcessor "cash" =
    inl (invalid_argument "Unknown payment processor type: cash").
Proof.
  apply (proj1 (proj2 (proj2 (proj2 createProcessor_by_type))) "cash");
    discriminate.
Defined.

Lemma built_request_shows_its_values_witness :
  exists r,
    built_from [ Method "POST"; Url "https://api.example.com/users";
                 Header "Content-Type" "application/json";
                 Body "{}"; Timeout 60 ] = Some r /\
    occurs_in "POST" (toString r) /\
    occurs_in "Content-Type" (toString r) /\
    occurs_in "{}" (toString r) /\
    occurs_in "60" (toString r).
Proof.
  assert (Htext : "{}" <> "") by discriminate.
  destruct (built_request_shows_its_values "Content-Type" "application/json" "{}"
              _ Htext (Permutation_refl _))
    as (r & Hr & Hm & _ & Hk & _ & _ & Hb & Ht).
  exists r. repeat (split; [assumption|]). assumption.
Defined.

Lemma continue_prompt_witness :
  exists w',
    turn example_address example_show_address example_absentDemo ""
      (start ("1" ++ nl ++ "yes" ++ nl)) = Ok (Continue, "yes") w'.
Proof.
  assert (Hreturns : demo_returns example_absentDemo 1)
    by (intros p [= <-]; now left).
  assert (Hrange : (1 <= 1 <= 15)%Z) by lia.
  destruct (continue_prompt example_address example_show_address
              example_absentDemo "" "yes" (start ("1" ++ nl ++ "yes" ++ nl)) 1
              _ _ eq_refl Hrange Hreturns eq_refl)
    as (p & w2 & _ & _ & Hyes & _).
  destruct Hyes as (w' & Hturn & _); [right; right; left; reflexivity|].
  exists w'. exact Hturn.
Defined.

Lemma tips_and_exit_selections_witness :
  exists w',
    turn example_address example_show_address example_absentDemo ""
      (start ("16" ++ nl ++ nl)) = Ok (Continue, "") w' /\
    invoked w' = [].
Proof.
  destruct (proj1 (tips_and_exit_selections example_address example_show_address
                     example_absentDemo "" (start ("16" ++ nl ++ nl)) _) eq_refl)
    as (w' & Hturn & _ & Hinv & _).
  exists w'. split; [exact Hturn | exact Hinv].
Defined.


Lemma out_of_range_selection_witness :
  exists w',
    turn example_address example_show_address example_absentDemo ""
      (start ("42" ++ nl ++ nl)) = Ok (Continue, "") w' /\
    invoked w' = [] /\ instance w' = None.
Proof.
  assert (Hout : (42 < 1 \/ 17 < 42)%Z) by lia.
  destruct (out_of_range_selection example_address example_show_address
              example_absentDemo "" (start ("42" ++ nl ++ nl)) 42 _ eq_refl Hout)
    as (w' & Hturn & _ & Hinv & Hinst & _).
  exists w'. split; [exact Hturn|]. split; [exact Hinv | exact Hinst].
Defined.

Lemma main_exit_status_witness :
  exists w',
    main example_address example_show_address example_throwingDemo 1
      (start ("4" ++ nl)) =
    Some (Ok 1%Z
            (with_cerr [("❌ Fatal error: " ++
                         "Unknown payment processor type: cash" ++ nl)%string] w')).
Proof.
  destruct (proj2 (proj2 (proj2 (proj2
              (main_exit_status example_address example_show_address
                 example_throwingDemo 0 (start ("4" ++ nl))))))
              4%Z Observer _ _ eq_refl eq_refl eq_refl eq_refl)
    as (w' & _ & Hmain).
  exists w'. exact Hmain.
Defined.

(** C4 as the specification words it fails: YES is an affirmative answer
    whatever the case of its letters, and it ends the loop. *)
Lemma upper_case_yes_ends_the_loop :
  affirmative_ignoring_case "YES" = true /\
  exists w',
    turn example_address example_show_address example_absentDemo ""
      (start ("1" ++ nl ++ "YES" ++ nl)) = Ok (Break, "YES") w' /\
    run example_address example_show_address example_absentDemo 1
      (start ("1" ++ nl ++ "YES" ++ nl)) = Some (Ok tt w').
Proof.
  split; [reflexivity|].
  destruct (turn_demo_returns example_address example_show_address
              example_absentDemo "" (start ("1" ++ nl ++ "YES" ++ nl)) 1 Builder
              _ _ (Some "YES") eq_refl eq_refl (or_introl eq_refl) eq_refl)
    as (w2 & _ & _ & _ & Hturn).
  cbv zeta in Hturn. change (declines "YES") with true in Hturn.
  eexists. split; [exact Hturn|].
  unfold run. now apply run_from_break with (cc' := "YES").
Qed.

(* ------------------------------------------------------------------ *)
(** ** Sessions, input and the components on concrete inputs *)

Lemma singleton_constructed_on_demand_witness :
  exists w',
    run example_address example_show_address example_absentDemo 1
      (start ("3" ++ nl ++ "n" ++ nl)) = Some (Ok tt w') /\
    instance w' <> None /\ constructed w' = 1.
Proof.
  assert (E : exists w',
             run example_address example_show_address example_absentDemo 1
               (start ("3" ++ nl ++ "n" ++ nl)) = Some (Ok tt w') /\
             invoked w' = [Singleton])
    by (vm_compute; eexists; split; reflexivity).
  destruct E as (w' & Hrun & Hinv).
  exists w'. split; [exact Hrun|].
  apply (proj1 (singleton_constructed_on_demand example_address
                  example_show_address example_absentDemo 1
                  ("3" ++ nl ++ "n" ++ nl) (Ok tt w') w' Hrun eq_refl)).
  rewrite Hinv. left. reflexivity.
Defined.

Lemma loop_starves_at_end_of_input_witness :
  main example_address example_show_address example_absentDemo 100
    (start (" " ++ nl)) = None.
Proof.
  exact (proj2 (loop_starves_at_end_of_input example_address example_show_address
                  example_absentDemo 100 "" (start (" " ++ nl)) eq_refl)).
Defined.

Lemma waitForEnter_consumes_witness :
  exists w',
    waitForEnter (start ("abc" ++ nl ++ "17" ++ nl)) = Ok tt w' /\
    buf (cin w') = "7" ++ nl.
Proof.
  destruct (waitForEnter_consumes (start ("abc" ++ nl ++ "17" ++ nl)) "abc" eq_refl)
    as (Hmore & _).
  specialize (Hmore "1"%char ("7" ++ nl) eq_refl).
  eexists. split; [exact Hmore | reflexivity].
Defined.

Lemma rejected_input_swallows_next_line_witness :
  exists w',
    turn example_address example_show_address example_absentDemo ""
      (start ("abc" ++ nl ++ "3" ++ nl ++ "17" ++ nl)) = Ok (Continue, "") w' /\
    buf (cin w') = "7" ++ nl /\ invoked w' = [].
Proof.
  assert (Hnn : non_numeric_input
                  (cin (start ("abc" ++ nl ++ "3" ++ nl ++ "17" ++ nl)))).
  { split; [reflexivity|]. split; [discriminate | reflexivity]. }
  destruct (rejected_input_swallows_next_line example_address example_show_address
              example_absentDemo "" (start ("abc" ++ nl ++ "3" ++ nl ++ "17" ++ nl))
              "abc" "3" ("7" ++ nl) "1"%char Hnn eq_refl eq_refl eq_refl)
    as (w' & Hturn & Hcin & Hinv).
  exists w'. split; [exact Hturn|]. split; [|exact Hinv].
  rewrite Hcin. reflexivity.
Defined.

Lemma missing_answer_reuses_previous_witness :
  (exists w', forall fuel,
     run_from example_address example_show_address example_absentDemo (S fuel) ""
       (start ("1" ++ nl)) = Some (Ok tt w')) /\
  (forall fuel,
     run_from example_address example_show_address example_absentDemo fuel "y"
       (start ("1" ++ nl)) = None).
Proof.
  assert (Hreturns : demo_returns example_absentDemo 1)
    by (intros p [= <-]; now left).
  assert (Hrange : (1 <= 1 <= 15)%Z) by lia.
  split.
  - destruct (proj1 (missing_answer_reuses_previous example_address
                       example_show_address example_absentDemo ""
                       (start ("1" ++ nl)) 1 _ eq_refl Hrange Hreturns eq_refl)
                eq_refl)
      as (w' & _ & Hrun).
    exists w'. exact Hrun.
  - destruct (proj1 (proj2 (missing_answer_reuses_previous example_address
                       example_show_address example_absentDemo "y"
                       (start ("1" ++ nl)) 1 _ eq_refl Hrange Hreturns eq_refl))
                eq_refl)
      as (w' & _ & Hrun).
    exact Hrun.
Defined.

Lemma typed_selection_runs_demo_witness :
  exists w',
    turn example_address example_show_address example_absentDemo ""
      (start ("2" ++ nl ++ "y" ++ nl ++ "17" ++ nl)) = Ok (Continue, "y") w' /\
    invoked w' = [Factory] /\
    buf (cin w') = nl ++ "17" ++ nl.
Proof.
  assert (Hbuf : buf (cin (start ("2" ++ nl ++ "y" ++ nl ++ "17" ++ nl))) =
                 show_int 2 ++ nl ++ "y" ++ nl ++ "17" ++ nl)
    by (vm_compute; reflexivity).
  destruct (typed_selection_runs_demo example_address example_show_address
              example_absentDemo ""
              (start ("2" ++ nl ++ "y" ++ nl ++ "17" ++ nl)) 2 Factory "y"
              ("17" ++ nl) eq_refl eq_refl (or_introl eq_refl) eq_refl Hbuf)
    as (w' & Hturn & Hinv & Hcin).
  exists w'. split; [exact Hturn|]. split; [exact Hinv|].
  rewrite Hcin. reflexivity.
Defined.

Lemma number_beyond_int_is_invalid_input_witness :
  exists w',
    turn example_address example_show_address example_absentDemo ""
      (start ("99999999999" ++ nl ++ nl)) = Ok (Continue, "") w' /\
    invoked w' = [].
Proof.
  assert (Hbig : (99999999999 < INT_MIN \/ INT_MAX < 99999999999)%Z)
    by (right; reflexivity).
  assert (Hbuf : buf (cin (start ("99999999999" ++ nl ++ nl))) =
                 "" ++ show_int 99999999999 ++ nl ++ nl)
    by (vm_compute; reflexivity).
  destruct (number_beyond_int_is_invalid_input example_address example_show_address
              example_absentDemo "" (start ("99999999999" ++ nl ++ nl))
              "" (nl ++ nl) 99999999999 eq_refl eq_refl eq_refl Hbig Hbuf)
    as (_ & w' & Hturn & _ & Hinv).
  exists w'. split; [exact Hturn | exact Hinv].
Defined.

Lemma fresh_builder_is_safe_witness :
  exists r,
    built_from [Url "https://example.org"; Header "Accept" "text/html"] = Some r /\
    method_ r = "GET" /\ body_ r = "" /\ timeout_ r = 30%Z.
Proof.
  destruct (fresh_builder_is_safe
              [Url "https://example.org"; Header "Accept" "text/html"])
    as (r & _ & Hbuilt & Hmethod & _ & Hbody & _ & Htimeout).
  exists r. split; [exact Hbuilt|].
  split; [|split]; [apply Hmethod | apply Hbody | apply Htimeout];
    intros x [H|[H|[]]]; discriminate H.
Defined.

Lemma last_setter_wins_witness :
  exists r,
    built_from [Method "POST"; Timeout 5; Method "PUT"; Url "https://example.org"]
      = Some r /\
    method_ r = "PUT".
Proof.
  apply (proj1 (last_setter_wins [Method "POST"; Timeout 5]
                  [Url "https://example.org"]) "PUT").
  intros m [H|[]]. discriminate H.
Defined.

Lemma configuration_fields_are_independent_witness :
  exists w',
    setVersion example_address example_address "2.0.0"
      (with_instance
         (Some {| appName_ := "MyApp"; version_ := "1.0.0"; debugMode_ := false |})
         (start "")) = Ok tt w' /\
    getAppName example_address example_address w' = Ok "MyApp" w' /\
    getVersion example_address example_address w' = Ok "2.0.0" w'.
Proof.
  destruct (proj1 (proj2 (proj2
              (configuration_fields_are_independent example_address
                 (with_instance
                    (Some {| appName_ := "MyApp"; version_ := "1.0.0";
                             debugMode_ := false |})
                    (start "")) _ eq_refl)))
              "2.0.0")
    as (w' & Hset & Hname & Hversion & _).
  exists w'. split; [exact Hset|]. split; [exact Hname | exact Hversion].
Defined.

Lemma singleton_demo_shows_previous_state_witness :
  exists chunks w',
    demoSingleton example_address example_show_address (start "") = Ok tt w' /\
    In ("   App Name: MyApp" ++ nl) chunks /\
    cout w' = chunks /\ constructed w' = 1.
Proof.
  destruct (singleton_demo_shows_previous_state example_address
              example_show_address (start ""))
    as (chunks & w' & Hrun & Hout & _ & _ & Hfirst & _).
  destruct (Hfirst eq_refl) as (_ & Hname & _ & Hk).
  exists chunks, w'. split; [exact Hrun|]. split; [exact Hname|].
  split; [|exact Hk]. rewrite Hout. apply List.app_nil_r.
Defined.

Lemma every_call_can_return_witness :
  exists more,
    constructed (world (exec example_address ([0; 1; 1] ++ more)
                          (boot "" [2; 1]))) = 1.
Proof.
  destruct (every_call_can_return example_address "" [2; 1] [0; 1; 1])
    as (more & _ & Hone).
  exists more. exact (proj1 (Hone 0 1 eq_refl)).
Defined.

